(** * stock-analysis: the indicator, normalisation and aggregation engine

    A shallow embedding of [internal/calc/indicators.go] and
    [internal/calc/engine.go], followed by the properties of the engine
    that the specification states.

    Modelling conventions.
    - [float64] values are exact extended rationals: a not-a-number value,
      the two infinities and the finite values.  Comparisons with NaN are
      false and arithmetic propagates NaN as in IEEE 754.  Rounding,
      overflow and the sign of zero are not represented.
    - Go's [int] is [Z] with the 64-bit wrap-around written out in [Int].
    - A slice is a [list]; an index out of range is a run-time panic,
      represented by [None] in the [option] monad.
    - A counted [for] loop is [for_lt] / [for_le]: the body is a function of
      the loop index and of the variables the loop assigns. *)

From Stdlib Require Import ZArith QArith Qreduction Lia Lqa String.
From stdpp Require Import base option list gmap strings.

Open Scope Z_scope.

(** ** Machine integers *)

Module Int.
  (** [- 2^63] and [2^63 - 1] *)
Definition min : Z := -9223372036854775808.
Definition max : Z := 9223372036854775807.
Definition wrap (z : Z) : Z :=
    (z + 9223372036854775808) mod 18446744073709551616 - 9223372036854775808.
Definition add (a b : Z) : Z := wrap (a + b).
Definition sub (a b : Z) : Z := wrap (a - b).
Definition fits (z : Z) : Prop := min <= z <= max.
End Int.

(** ** Floating-point values *)

Inductive float64 : Type :=
  | NaN
  | NInf
  | PInf
  | Fin (q : Q).

(** Finite values are kept in lowest terms, so that two results are equal
    as rationals exactly when they are equal terms. *)
Definition real (q : Q) : float64 := Fin (Qred q).

Definition of_int (z : Z) : float64 := Fin (inject_Z z).

Definition is_nan (x : float64) : bool :=
  match x with NaN => true | _ => false end.

Definition signed_inf (c : comparison) : float64 :=
  match c with Gt => PInf | Lt => NInf | Eq => NaN end.

Definition fneg (x : float64) : float64 :=
  match x with
  | NaN => NaN
  | NInf => PInf
  | PInf => NInf
  | Fin q => real (- q)
  end.

Definition fadd (x y : float64) : float64 :=
  match x, y with
  | NaN, _ | _, NaN => NaN
  | PInf, NInf | NInf, PInf => NaN
  | PInf, _ | _, PInf => PInf
  | NInf, _ | _, NInf => NInf
  | Fin a, Fin b => real (a + b)
  end.

Definition fsub (x y : float64) : float64 :=
  match x, y with
  | NaN, _ | _, NaN => NaN
  | PInf, PInf | NInf, NInf => NaN
  | PInf, _ | _, NInf => PInf
  | NInf, _ | _, PInf => NInf
  | Fin a, Fin b => real (a - b)
  end.

Definition fmul (x y : float64) : float64 :=
  match x, y with
  | NaN, _ | _, NaN => NaN
  | Fin a, Fin b => real (a * b)
  | Fin a, PInf | PInf, Fin a => signed_inf (a ?= 0)%Q
  | Fin a, NInf | NInf, Fin a => signed_inf (0 ?= a)%Q
  | PInf, PInf | NInf, NInf => PInf
  | PInf, NInf | NInf, PInf => NInf
  end.

Definition fdiv (x y : float64) : float64 :=
  match x, y with
  | NaN, _ | _, NaN => NaN
  | Fin a, Fin b =>
      if Qeq_bool b 0 then signed_inf (a ?= 0)%Q else real (a / b)
  | Fin _, (PInf | NInf) => Fin 0
  | (PInf | NInf), (PInf | NInf) => NaN
  | PInf, Fin b => signed_inf (if Qle_bool 0 b then Gt else Lt)
  | NInf, Fin b => signed_inf (if Qle_bool 0 b then Lt else Gt)
  end.

(** The order of the extended line; [None] when an operand is NaN. *)
Definition fcompare (x y : float64) : option comparison :=
  match x, y with
  | NaN, _ | _, NaN => None
  | NInf, NInf | PInf, PInf => Some Eq
  | NInf, _ | _, PInf => Some Lt
  | _, NInf | PInf, _ => Some Gt
  | Fin a, Fin b => Some (a ?= b)%Q
  end.

Definition flt (x y : float64) : bool :=
  match fcompare x y with Some Lt => true | _ => false end.
Definition fle (x y : float64) : bool :=
  match fcompare x y with Some Lt | Some Eq => true | _ => false end.
Definition fgt (x y : float64) : bool := flt y x.
Definition fge (x y : float64) : bool := fle y x.
Definition feq (x y : float64) : bool :=
  match fcompare x y with Some Eq => true | _ => false end.
Definition fne (x y : float64) : bool := negb (feq x y).

Declare Scope float_scope.
Delimit Scope float_scope with F.
Bind Scope float_scope with float64.
Notation "x + y" := (fadd x y) : float_scope.
Notation "x - y" := (fsub x y) : float_scope.
Notation "x * y" := (fmul x y) : float_scope.
Notation "x / y" := (fdiv x y) : float_scope.
Notation "- x" := (fneg x) : float_scope.
Notation "x <? y" := (flt x y) : float_scope.
Notation "x <=? y" := (fle x y) : float_scope.
Notation "x >? y" := (fgt x y) : float_scope.
Notation "x =? y" := (feq x y) : float_scope.
Notation "x !=? y" := (fne x y) (at level 70) : float_scope.

(** Floating-point literals of the source. *)
Definition f0 : float64 := Fin 0.
Definition f1 : float64 := Fin 1.
Definition f100 : float64 := Fin 100.

(** ** Slices and loops *)

Definition len {A} (s : list A) : Z := Z.of_nat (length s).

(** [make([]float64, n)]: [n] zeroes. *)
Definition make (n : Z) : list float64 := replicate (Z.to_nat n) f0.

(** [s[i]] as an expression. *)
Definition at_ {A} (s : list A) (i : Z) : option A :=
  if 0 <=? i then s !! Z.to_nat i else None.

(** [s[i] = v]. *)
Definition put {A} (s : list A) (i : Z) (v : A) : option (list A) :=
  if (0 <=? i) && (i <? len s) then Some (<[Z.to_nat i := v]> s) else None.

Fixpoint for_from {St} (n : nat) (i : Z) (body : Z -> St -> option St)
    (s : St) : option St :=
  match n with
  | O => Some s
  | S n' => s' ← body i s; for_from n' (i + 1) body s'
  end.

(** [for i := lo; i < hi; i++ { body }] *)
Definition for_lt {St} (lo hi : Z) (body : Z -> St -> option St) (s : St)
  : option St :=
  for_from (Z.to_nat (hi - lo)) lo body s.

(** [for i := lo; i <= hi; i++ { body }] *)
Definition for_le {St} (lo hi : Z) (body : Z -> St -> option St) (s : St)
  : option St :=
  for_from (Z.to_nat (hi - lo + 1)) lo body s.

(** [for i := range out { out[i] = math.NaN() }] *)
Definition fill_NaN (out : list float64) : option (list float64) :=
  for_lt 0 (len out) (fun i out => put out i NaN) out.

(** ** Indicator library (internal/calc/indicators.go) *)

(** Simple Moving Average *)
Definition SMA (values : list float64) (window : Z) : option (list float64) :=
  let out := make (len values) in
  out ← fill_NaN out;
  if len values <? window then Some out else
  let sum := f0 in
  sum ← for_lt 0 window (fun i sum =>
           v ← at_ values i; Some (sum + v)%F) sum;
  out ← put out (Int.sub window 1) (sum / of_int window)%F;
  '(sum, out) ← for_lt window (len values) (fun i '(sum, out) =>
           a ← at_ values (Int.sub i window);
           b ← at_ values i;
           let sum := (sum - a + b)%F in
           out ← put out i (sum / of_int window)%F;
           Some (sum, out)) (sum, out);
  Some out.

(** Momentum (return over N periods) *)
Definition Momentum (values : list float64) (window : Z) : option (list float64) :=
  let out := make (len values) in
  out ← fill_NaN out;
  out ← for_lt window (len values) (fun i out =>
           d ← at_ values (Int.sub i window);
           if (d !=? f0)%F then
             v ← at_ values i;
             put out i (v / d - f1)%F
           else Some out) out;
  Some out.

(** RSI *)
Definition RSI (values : list float64) (window : Z) : option (list float64) :=
  let out := make (len values) in
  out ← fill_NaN out;
  if len values <? Int.add window 1 then Some out else
  let gains := make (len values) in
  let losses := make (len values) in
  '(gains, losses) ← for_lt 1 (len values) (fun i '(gains, losses) =>
           a ← at_ values i;
           b ← at_ values (Int.sub i 1);
           let diff := (a - b)%F in
           if (diff >? f0)%F then
             gains ← put gains i diff; Some (gains, losses)
           else
             losses ← put losses i (- diff)%F; Some (gains, losses))
         (gains, losses);
  (* First average *)
  let avgGain := f0 in
  let avgLoss := f0 in
  '(avgGain, avgLoss) ← for_le 1 window (fun i '(avgGain, avgLoss) =>
           g ← at_ gains i;
           l ← at_ losses i;
           Some ((avgGain + g)%F, (avgLoss + l)%F)) (avgGain, avgLoss);
  let avgGain := (avgGain / of_int window)%F in
  let avgLoss := (avgLoss / of_int window)%F in
  (* Wilder's Smoothing *)
  '(avgGain, avgLoss, out) ← for_lt (Int.add window 1) (len values)
         (fun i '(avgGain, avgLoss, out) =>
           g ← at_ gains i;
           l ← at_ losses i;
           let avgGain := ((avgGain * of_int (Int.sub window 1) + g) / of_int window)%F in
           let avgLoss := ((avgLoss * of_int (Int.sub window 1) + l) / of_int window)%F in
           let rs := f0 in
           let rs :=
             if (avgLoss !=? f0)%F then (avgGain / avgLoss)%F
             else if (avgGain =? f0)%F then f0
             else Fin 1000000000 (* Max *) in
           out ← put out i (f100 - f100 / (f1 + rs))%F;
           Some (avgGain, avgLoss, out)) (avgGain, avgLoss, out);
  (* Initial value *)
  let rs := f0 in
  let rs := if (avgLoss !=? f0)%F then (avgGain / avgLoss)%F else rs in
  out ← (if (avgLoss =? f0)%F && (avgGain >? f0)%F
         then put out window f100
         else put out window (f100 - f100 / (f1 + rs))%F);
  Some out.

Definition EMA (values : list float64) (span : Z) : option (list float64) :=
  let out := make (len values) in
  let k := (Fin 2 / of_int (Int.add span 1))%F in
  if len values =? 0 then Some out else
  v0 ← at_ values 0;
  out ← put out 0 v0;
  out ← for_lt 1 (len values) (fun i out =>
           v ← at_ values i;
           p ← at_ out (Int.sub i 1);
           put out i (v * k + p * (f1 - k))%F) out;
  Some out.

(** MACD Histogram *)
Definition MACD (values : list float64) : option (list float64) :=
  fast ← EMA values 12;
  slow ← EMA values 26;
  let macdLine := make (len values) in
  macdLine ← for_lt 0 (len values) (fun i macdLine =>
           f ← at_ fast i;
           s ← at_ slow i;
           put macdLine i (f - s)%F) macdLine;
  signal ← EMA macdLine 9;
  let hist := make (len values) in
  hist ← for_lt 0 (len values) (fun i hist =>
           m ← at_ macdLine i;
           s ← at_ signal i;
           put hist i (m - s)%F) hist;
  Some hist.

(** Money Flow Index (MFI) *)
Definition MFI (high low close volume : list float64) (window : Z)
  : option (list float64) :=
  let out := make (len close) in
  out ← fill_NaN out;
  if len close <? Int.add window 1 then Some out else
  let typicalPrice := make (len close) in
  let rawMoneyFlow := make (len close) in
  '(typicalPrice, rawMoneyFlow) ← for_lt 0 (len close)
         (fun i '(typicalPrice, rawMoneyFlow) =>
           h ← at_ high i;
           l ← at_ low i;
           c ← at_ close i;
           typicalPrice ← put typicalPrice i ((h + l + c) / Fin 3)%F;
           t ← at_ typicalPrice i;
           v ← at_ volume i;
           rawMoneyFlow ← put rawMoneyFlow i (t * v)%F;
           Some (typicalPrice, rawMoneyFlow)) (typicalPrice, rawMoneyFlow);
  let posFlow := make (len close) in
  let negFlow := make (len close) in
  '(posFlow, negFlow) ← for_lt 1 (len close) (fun i '(posFlow, negFlow) =>
           t ← at_ typicalPrice i;
           t' ← at_ typicalPrice (Int.sub i 1);
           if (t >? t')%F then
             r ← at_ rawMoneyFlow i;
             posFlow ← put posFlow i r; Some (posFlow, negFlow)
           else if (t <? t')%F then
             r ← at_ rawMoneyFlow i;
             negFlow ← put negFlow i r; Some (posFlow, negFlow)
           else Some (posFlow, negFlow)) (posFlow, negFlow);
  let sumPos := f0 in
  let sumNeg := f0 in
  '(sumPos, sumNeg) ← for_le 1 window (fun i '(sumPos, sumNeg) =>
           p ← at_ posFlow i;
           n ← at_ negFlow i;
           Some ((sumPos + p)%F, (sumNeg + n)%F)) (sumPos, sumNeg);
  (* Rolling *)
  '(sumPos, sumNeg, out) ← for_lt window (len close)
         (fun i '(sumPos, sumNeg, out) =>
           '(sumPos, sumNeg) ←
             (if window <? i then
                p' ← at_ posFlow (Int.sub i window);
                p ← at_ posFlow i;
                n' ← at_ negFlow (Int.sub i window);
                n ← at_ negFlow i;
                Some ((sumPos - p' + p)%F, (sumNeg - n' + n)%F)
              else Some (sumPos, sumNeg));
           let mfr := f0 in
           let mfr :=
             if (sumNeg !=? f0)%F then (sumPos / sumNeg)%F
             else if (sumPos >? f0)%F then Fin 1000000000 (* Max *)
             else f0 in
           out ← put out i (f100 - f100 / (f1 + mfr))%F;
           Some (sumPos, sumNeg, out)) (sumPos, sumNeg, out);
  Some out.

(** Rolling Percentile (0-100).
    For each point, look back [window] periods (including current), find
    rank of current value. *)
Definition RollingScore (values : list float64) (window direction : Z)
  : option (list float64) :=
  let out := make (len values) in
  out ← fill_NaN out;
  (* make([]float64, 0, window) panics when the capacity is negative;
     running out of memory for a huge capacity is not represented *)
  if window <? 0 then None else
  let buf : list float64 := [] in
  '(out, buf) ← for_lt 0 (len values) (fun i '(out, buf) =>
           vi ← at_ values i;
           if is_nan vi then Some (out, buf) else
           let buf : list float64 := [] in
           let start := Int.add (Int.sub i window) 1 in
           let start := if start <? 0 then 0 else start in
           let currentVal := (vi * of_int direction)%F in
           if i <? Int.sub window 1 then
             out ← put out i NaN; Some (out, buf)
           else
           buf ← for_le start i (fun j buf =>
                    vj ← at_ values j;
                    if negb (is_nan vj)
                    then Some (buf ++ [(vj * of_int direction)%F])
                    else Some buf) buf;
           if len buf =? 0 then Some (out, buf) else
           (* Rank *)
           let countSmaller := 0 in
           let countSmaller :=
             foldl (fun c v => if (v <=? currentVal)%F then c + 1 else c)
                   countSmaller buf in
           let pct := (of_int countSmaller / of_int (len buf))%F in
           out ← put out i (pct * f100)%F;
           Some (out, buf)) (out, buf);
  Some out.

(** ** Data model (internal/models/types.go) *)

Module models.

  (** [time.Time] is opaque to the engine, which only copies it. *)
Definition Time : Type := Z.

  (** Price represents a single candle *)
Module Price.
Record t : Type := mk {
      Date : Time;
      Open : float64;
      High : float64;
      Low : float64;
      Close : float64;
      Volume : float64;
    }.
End Price.

  (** PriceFrame holds a series of prices *)
Module PriceFrame.
Record t : Type := mk {
      Ticker : string;
      Frequency : string;
      Prices : list Price.t;
    }.
End PriceFrame.

  (** The anonymous struct type shared by [ScoreResult.Values] and
      [ScoreResult.Raw]. *)
Module Parts.
Record t : Type := mk {
      Trend : float64;
      Momentum : float64;
      RSI : float64;
      MACD : float64;
      Drawdown : float64;
      Vol : float64;
      VolSent : float64;
      MFI : float64;
      BB : float64;
    }.
End Parts.

  (** ScoreResult represents the fear & greed score for a single day *)
Module ScoreResult.
Record t : Type := mk {
      Date : Time;
      Score : float64;
      Label : string;
      Price : float64;
      Values : Parts.t;
      Raw : Parts.t;
    }.
    (** The zero value, as [make([]models.ScoreResult, n)] creates it. *)
Definition zero : t :=
      let z := Parts.mk f0 f0 f0 f0 f0 f0 f0 f0 f0 in
      mk 0 f0 "" f0 z z.
End ScoreResult.

End models.

(** ** Aggregation engine (internal/calc/engine.go) *)

Record Config : Type := {
  NormWindow : Z;
  MAFast : Z;
  MASlow : Z;
  MomWindow : Z;
  VolWindow : Z;
  RSIWindow : Z;
  DDWindow : Z;
}.

Definition DefaultConfig : Config := {|
  NormWindow := 252;
  MAFast := 20;
  MASlow := 60;
  MomWindow := 20;
  VolWindow := 20;
  RSIWindow := 14;
  DDWindow := 252;
|}.

Definition Weights : gmap string float64 :=
  list_to_map [
    ("trend", Fin (15 # 100));
    ("momentum", Fin (15 # 100));
    ("rsi", Fin (10 # 100));
    ("macd", Fin (10 # 100));
    ("drawdown", Fin (10 # 100));
    ("volatility", Fin (10 # 100));
    ("mfi", Fin (15 # 100));
    ("bb_pct_b", Fin (15 # 100))
  ].

(** [Weights[key]]: a missing key reads as the zero value. *)
Definition weight (key : string) : float64 := default f0 (Weights !! key).

Definition LabelFromScore (s : float64) (lang : string) : string :=
  if is_nan s then "-" else
  if String.eqb lang "en" then
    if (s <? Fin 25)%F then "Extreme Fear"
    else if (s <? Fin 45)%F then "Fear"
    else if (s <=? Fin 55)%F then "Neutral"
    else if (s <=? Fin 75)%F then "Greed"
    else "Extreme Greed"
  else
  (* Default Chinese *)
  if (s <? Fin 25)%F then "极度恐惧"
  else if (s <? Fin 45)%F then "恐惧"
  else if (s <=? Fin 55)%F then "中性"
  else if (s <=? Fin 75)%F then "贪婪"
  else "极度贪婪".

(** The two indicators that take a square root.  [math.Sqrt] has no exact
    counterpart on rationals: it is a parameter, and every statement below
    holds whatever function is supplied for it. *)
Section WithSqrt.

Variable sqrt : float64 -> float64.

  (** Bollinger Bands %B *)
Definition BollingerPercentB (close : list float64) (window : Z)
      (numStdDev : float64) : option (list float64) :=
    let out := make (len close) in
    out ← fill_NaN out;
    if len close <? window then Some out else
    sma ← SMA close window;
    (* Rolling StdDev *)
    out ← for_lt (Int.sub window 1) (len close) (fun i out =>
             let sumSq := f0 in
             sumSq ← for_lt 0 window (fun j sumSq =>
                      val ← at_ close (Int.sub i j);
                      m ← at_ sma i;
                      let d := (val - m)%F in
                      Some (sumSq + d * d)%F) sumSq;
             let stdDev := sqrt (sumSq / of_int window)%F in
             m ← at_ sma i;
             let upper := (m + stdDev * numStdDev)%F in
             let lower := (m - stdDev * numStdDev)%F in
             if (upper !=? lower)%F then
               c ← at_ close i;
               put out i ((c - lower) / (upper - lower))%F
             else put out i (Fin (1 # 2))) out;
    Some out.

  (** Realized Volatility (Annualized) *)
Definition RealizedVol (values : list float64) (window : Z)
    : option (list float64) :=
    let out := make (len values) in
    out ← fill_NaN out;
    let returns := make (len values) in
    returns ← for_lt 1 (len values) (fun i returns =>
             p ← at_ values (Int.sub i 1);
             if (p !=? f0)%F then
               v ← at_ values i;
               put returns i (v / p - f1)%F
             else Some returns) returns;
    out ← for_lt window (len values) (fun i out =>
             let sum := f0 in
             sum ← for_lt 0 window (fun j sum =>
                      r ← at_ returns (Int.sub i j);
                      Some (sum + r)%F) sum;
             let mean := (sum / of_int window)%F in
             let sqSum := f0 in
             sqSum ← for_lt 0 window (fun j sqSum =>
                      r ← at_ returns (Int.sub i j);
                      let d := (r - mean)%F in
                      Some (sqSum + d * d)%F) sqSum;
             let std := sqrt (sqSum / of_int window)%F in
             put out i (std * sqrt (Fin 252))%F) out;
    Some out.


  (** The closure [add] inside [Compute]; it updates [wSum] and [scoreSum]. *)
Definition add (key : string) (val : float64) (acc : float64 * float64)
    : float64 * float64 :=
    let '(wSum, scoreSum) := acc in
    if negb (is_nan val) then
      let w := weight key in
      let scoreSum := (scoreSum + val * w)%F in
      let wSum := (wSum + w)%F in
      (wSum, scoreSum)
    else (wSum, scoreSum).

Definition Compute (pf : models.PriceFrame.t) (cfg : Config) (lang : string)
    : option (list models.ScoreResult.t) :=
    let prices := models.PriceFrame.Prices pf in
    let n := len prices in
    if n =? 0 then Some [] else
    (* Extract series *)
    '(closes, volumes, highs, lows) ← for_lt 0 n
         (fun i '(closes, volumes, highs, lows) =>
            p ← at_ prices i;
            closes ← put closes i (models.Price.Close p);
            volumes ← put volumes i (models.Price.Volume p);
            highs ← put highs i (models.Price.High p);
            lows ← put lows i (models.Price.Low p);
            Some (closes, volumes, highs, lows))
         (make n, make n, make n, make n);
    (* Adjust norm window if not enough data *)
    let normWindow := NormWindow cfg in
    let normWindow := if n <? normWindow then n else normWindow in
    let normWindow := if normWindow <? 10 then 10 else normWindow in
    (* 1. Calculate Raw Indicators *)
    maFast ← SMA closes (MAFast cfg);
    maSlow ← SMA closes (MASlow cfg);
    trendRaw ← for_lt 0 n (fun i trendRaw =>
            let t1 := f0 in
            mf ← at_ maFast i;
            t1 ← (if (mf >? f0)%F
                  then c ← at_ closes i; Some (c / mf - f1)%F
                  else Some t1);
            let t2 := f0 in
            ms ← at_ maSlow i;
            t2 ← (if (ms >? f0)%F
                  then c ← at_ closes i; Some (c / ms - f1)%F
                  else Some t2);
            put trendRaw i (Fin (1 # 2) * t1 + Fin (1 # 2) * t2)%F) (make n);
    momRaw ← Momentum closes (MomWindow cfg);
    rsiRaw ← RSI closes (RSIWindow cfg);
    macdRaw ← MACD closes;
    volRaw ← RealizedVol closes (VolWindow cfg);
    (* New Indicators *)
    mfiRaw ← MFI highs lows closes volumes 14;
    bbRaw ← BollingerPercentB closes 20 (Fin 2);
    (* Drawdown: rolling max *)
    ddRaw ← for_lt 0 n (fun i ddRaw =>
            let start := Int.add (Int.sub i (DDWindow cfg)) 1 in
            let start := if start <? 0 then 0 else start in
            let maxP := f0 in
            maxP ← for_le start i (fun j maxP =>
                     c ← at_ closes j;
                     if (c >? maxP)%F then Some c else Some maxP) maxP;
            if (maxP >? f0)%F
            then c ← at_ closes i; put ddRaw i (c / maxP - f1)%F
            else Some ddRaw) (make n);
    (* 2. Normalize to Scores (0-100) *)
    sTrend ← RollingScore trendRaw normWindow 1;
    sMom ← RollingScore momRaw normWindow 1;
    sRSI ← RollingScore rsiRaw normWindow 1;
    sMACD ← RollingScore macdRaw normWindow 1;
    sDD ← RollingScore ddRaw normWindow 1;
    sVol ← RollingScore volRaw normWindow (-1);
    sMFI ← RollingScore mfiRaw normWindow 1;
    sBB ← RollingScore bbRaw normWindow 1;
    (* 3. Aggregate *)
    results ← for_lt 0 n (fun i results =>
            p ← at_ prices i;
            rTrend ← at_ trendRaw i; rMom ← at_ momRaw i; rRSI ← at_ rsiRaw i;
            rMACD ← at_ macdRaw i; rDD ← at_ ddRaw i; rVol ← at_ volRaw i;
            vTrend ← at_ sTrend i; vMom ← at_ sMom i; vRSI ← at_ sRSI i;
            vMACD ← at_ sMACD i; vDD ← at_ sDD i; vVol ← at_ sVol i;
            vMFI ← at_ sMFI i; vBB ← at_ sBB i;
            let raw := models.Parts.mk rTrend rMom rRSI rMACD rDD rVol f0 f0 f0 in
            let values :=
              models.Parts.mk vTrend vMom vRSI vMACD vDD vVol f0 vMFI vBB in
            (* Weighted Sum *)
            let acc := (f0, f0) in
            let acc := add "trend" vTrend acc in
            let acc := add "momentum" vMom acc in
            let acc := add "rsi" vRSI acc in
            let acc := add "macd" vMACD acc in
            let acc := add "drawdown" vDD acc in
            let acc := add "volatility" vVol acc in
            let acc := add "mfi" vMFI acc in
            let acc := add "bb_pct_b" vBB acc in
            let '(wSum, scoreSum) := acc in
            let res :=
              if (wSum >? f0)%F then
                let score := (scoreSum / wSum)%F in
                models.ScoreResult.mk (models.Price.Date p) score
                  (LabelFromScore score lang) (models.Price.Close p) values raw
              else
                models.ScoreResult.mk (models.Price.Date p) NaN "-"
                  (models.Price.Close p) values raw in
            put results i res)
         (replicate (Z.to_nat n) models.ScoreResult.zero);
    Some results.

End WithSqrt.

(** A rational approximation of [math.Sqrt], to twelve decimal places,
    for running the engine on concrete series. *)
Definition sqrt12 (x : float64) : float64 :=
  match x with
  | NaN | NInf => NaN
  | PInf => PInf
  | Fin q =>
      if Qle_bool 0 q
      then real (Z.sqrt (Qnum q * 10 ^ 24 / Zpos (Qden q)) # 10 ^ 12)
      else NaN
  end.


(** ** The score endpoint (internal/api/handler.go) *)

Module api.

  (** [time.Time] as the offset of its instant from the zero time:
      [t.IsZero()] and [t.Before(u)] depend on the instants only. *)
Definition IsZero (t : models.Time) : bool := t =? 0.
Definition Before (t u : models.Time) : bool := t <? u.

Module SafeScore.
Record t : Type := mk {
      Date : string;
      Score : option float64; (* Pointer allows null *)
      Label : string;
      Price : float64;
    }.
End SafeScore.

Module SimpleScore.
Record t : Type := mk {
      Date : string;
      Score : float64;
      Label : string;
      Price : float64;
    }.
End SimpleScore.

  (** The fields of the response that are computed from the scores. *)
Module Response.
Record t : Type := mk {
      Latest : option SimpleScore.t;
      Series : list SafeScore.t;
      LatestSubscores : option (gmap string float64);
    }.
End Response.

  (** [for i, r := range results { if !r.Date.Before(start) { startIdx = i;
      break } }], from index [i] on. *)
Fixpoint first_from (start : models.Time) (results : list models.ScoreResult.t)
    (i startIdx : Z) : Z :=
    match results with
    | [] => startIdx
    | r :: rest =>
        if negb (Before (models.ScoreResult.Date r) start) then i
        else first_from start rest (i + 1) startIdx
    end.

  (** Find start index based on user request "start" time *)
Definition startIdx (start : models.Time) (tail : Z)
      (results : list models.ScoreResult.t) : Z :=
    let startIdx := 0 in
    let startIdx :=
      if negb (IsZero start) then first_from start results 0 startIdx
      else
        (* If no start provided, default logic (e.g. tail) *)
        let startIdx := Int.sub (len results) tail in
        if startIdx <? 0 then 0 else startIdx in
    (* Ensure bounds *)
    let startIdx :=
      if startIdx >=? len results then Int.sub (len results) 1 else startIdx in
    if startIdx <? 0 then 0 else startIdx.

Section WithFormat.

  (** [t.Format("2006-01-02")] *)
Variable format : models.Time -> string.

  (** Fix NaNs in series: [make] with a negative capacity panics. *)
Definition safeSeries (startIdx : Z) (results : list models.ScoreResult.t)
    : option (list SafeScore.t) :=
    if Int.sub (len results) startIdx <? 0 then None else
    for_lt startIdx (len results) (fun i safeSeries =>
      r ← at_ results i;
      let s := if negb (is_nan (models.ScoreResult.Score r))
               then Some (models.ScoreResult.Score r) else None in
      Some (safeSeries ++
              [SafeScore.mk (format (models.ScoreResult.Date r)) s
                 (models.ScoreResult.Label r) (models.ScoreResult.Price r)])) [].

  (** Latest *)
Definition latest (results : list models.ScoreResult.t)
    : option (option SimpleScore.t * option (gmap string float64)) :=
    if len results >? 0 then
      last ← at_ results (Int.sub (len results) 1);
      if negb (is_nan (models.ScoreResult.Score last)) then
        let v := models.ScoreResult.Values last in
        Some (Some (SimpleScore.mk (format (models.ScoreResult.Date last))
                      (models.ScoreResult.Score last)
                      (models.ScoreResult.Label last)
                      (models.ScoreResult.Price last)),
              Some (list_to_map [
                ("trend", models.Parts.Trend v);
                ("momentum", models.Parts.Momentum v);
                ("rsi", models.Parts.RSI v);
                ("macd", models.Parts.MACD v);
                ("drawdown", models.Parts.Drawdown v);
                ("volatility", models.Parts.Vol v);
                ("mfi", models.Parts.MFI v);
                ("bb_pct_b", models.Parts.BB v) ]))
      else Some (None, None)
    else Some (None, None).

Variable sqrt : float64 -> float64.

  (** [handleFearGreed] from the fetched frame to the response: the query
      parameters [start], [window], [tail] and [lang] are parsed, with
      their defaults, and the provider has returned [pf]. *)
Definition handleFearGreed (pf : models.PriceFrame.t) (start : models.Time)
      (window tail : Z) (lang : string) : option Response.t :=
    (* Compute *)
    let cfg := DefaultConfig in
    let cfg := {| NormWindow := window; MAFast := MAFast cfg;
                  MASlow := MASlow cfg; MomWindow := MomWindow cfg;
                  VolWindow := VolWindow cfg; RSIWindow := RSIWindow cfg;
                  DDWindow := DDWindow cfg |} in
    results ← Compute sqrt pf cfg lang;
    let startIdx := startIdx start tail results in
    safeSeries ← safeSeries startIdx results;
    '(latest, latestSubscores) ← latest results;
    Some (Response.mk latest safeSeries latestSubscores).

End WithFormat.
End api.

(** * Reference definitions

    The functions below restate, on lists, what the specification says
    the engine computes; the engine is compared with them. *)

(** ** Total correctness in the panic monad *)

(** [wp m Q]: the computation [m] does not panic and its result
    satisfies [Q]. *)
Definition wp {A} (m : option A) (Q : A -> Prop) : Prop :=
  exists a, m = Some a /\ Q a.

(** ** The normaliser *)

(** Positions [lo..hi], both included, of a series. *)
Definition positions {A} (s : list A) (lo hi : Z) : list A :=
  take (Z.to_nat (hi + 1 - lo)) (drop (Z.to_nat lo) s).

(** The defined (non-NaN) values of a list. *)
Definition valid (l : list float64) : list float64 :=
  filter (fun v => is_nan v = false) l.

(** The values of a list, each multiplied by the direction. *)
Definition directed (d : Z) (l : list float64) : list float64 :=
  map (fun v => (v * of_int d)%F) l.

(** How many values of [l] are less than or equal to [v]. *)
Definition count_le (v : float64) (l : list float64) : Z :=
  len (filter (fun x => (x <=? v)%F = true) l).

(** The percentile rank at index [i], in the specification's words:
    undefined before index [w - 1] and where the trailing window
    [i - w + 1 .. i] holds no valid value, else [100 * c / m].  The case
    of an undefined value at [i] is added: the code skips such an index. *)
Definition Normalize (series : list float64) (w d : Z) (i : Z) : float64 :=
  match at_ series i with
  | None => NaN
  | Some x =>
      let win := valid (positions series (i - w + 1) i) in
      let m := len win in
      if (i <? w - 1) || is_nan x || (m =? 0) then NaN
      else real (100 * inject_Z (count_le (x * of_int d)%F (directed d win))
                 / inject_Z m)
  end.

(** How many values of [l] equal [v]. *)
Definition count_eq (v : float64) (l : list float64) : Z :=
  len (filter (fun x => (x =? v)%F = true) l).

(** No two values of the list are equal. *)
Fixpoint no_ties (l : list float64) : bool :=
  match l with
  | [] => true
  | x :: l' => forallb (fun y => negb (x =? y)%F) l' && no_ties l'
  end.


(** ** What the loops of [Compute] store at one bar *)

(** The trend value of a bar, from its close and the two moving averages. *)
Definition trend_at (c mf ms : float64) : float64 :=
  let t1 := if (mf >? f0)%F then (c / mf - f1)%F else f0 in
  let t2 := if (ms >? f0)%F then (c / ms - f1)%F else f0 in
  (Fin (1 # 2) * t1 + Fin (1 # 2) * t2)%F.

(** First position of the drawdown window that ends at bar [i]. *)
Definition dd_start (ddWindow i : Z) : Z :=
  let start := Int.add (Int.sub i ddWindow) 1 in
  if start <? 0 then 0 else start.

(** The running maximum of a window, starting from zero. *)
Definition running_max (l : list float64) : float64 :=
  foldl (fun maxP c => if (c >? maxP)%F then c else maxP) f0 l.

Definition drawdown_at (closes : list float64) (ddWindow i : Z) (c : float64)
  : float64 :=
  let maxP := running_max (positions closes (dd_start ddWindow i) i) in
  if (maxP >? f0)%F then (c / maxP - f1)%F else f0.

(** The sub-scores of a bar with their weight keys, in the order in which
    [Compute] adds them. *)
Definition keyed (v : models.Parts.t) : list (string * float64) :=
  [ ("trend", models.Parts.Trend v);
    ("momentum", models.Parts.Momentum v);
    ("rsi", models.Parts.RSI v);
    ("macd", models.Parts.MACD v);
    ("drawdown", models.Parts.Drawdown v);
    ("volatility", models.Parts.Vol v);
    ("mfi", models.Parts.MFI v);
    ("bb_pct_b", models.Parts.BB v) ].

(** The record of one bar, from its price, raw values and sub-scores. *)
Definition bar_result (p : models.Price.t) (lang : string)
    (raw values : models.Parts.t) : models.ScoreResult.t :=
  let '(wSum, scoreSum) :=
    foldl (fun acc kv => add kv.1 kv.2 acc) (f0, f0) (keyed values) in
  if (wSum >? f0)%F then
    models.ScoreResult.mk (models.Price.Date p) (scoreSum / wSum)%F
      (LabelFromScore (scoreSum / wSum)%F lang) (models.Price.Close p) values raw
  else
    models.ScoreResult.mk (models.Price.Date p) NaN "-"
      (models.Price.Close p) values raw.

(** The normalisation window that [Compute] uses for [n] bars. *)
Definition norm_window (cfg : Config) (n : Z) : Z :=
  let w := if n <? NormWindow cfg then n else NormWindow cfg in
  if w <? 10 then 10 else w.

Definition Config_ok (cfg : Config) : Prop :=
  0 < MAFast cfg <= Int.max /\ 0 < MASlow cfg <= Int.max /\
  0 <= MomWindow cfg <= Int.max /\ 0 <= VolWindow cfg <= Int.max /\
  0 <= RSIWindow cfg < Int.max.

(** The intermediate series of one run of [Compute]. *)
Record Series : Type := {
  s_maFast : list float64; s_maSlow : list float64;
  s_trend : list float64; s_mom : list float64; s_rsi : list float64;
  s_macd : list float64; s_vol : list float64; s_mfi : list float64;
  s_bb : list float64; s_dd : list float64;
}.

Section ComputeSpec.
Variable sqrt : float64 -> float64.
Variables (pf : models.PriceFrame.t) (cfg : Config) (lang : string).

Let prices := models.PriceFrame.Prices pf.
Let closes := map models.Price.Close prices.
Let n := len prices.
Let w := norm_window cfg n.

  (** [Compute] ran on these series and produced [results]. *)
Definition Compute_post (S : Series) (results : list models.ScoreResult.t)
    : Prop :=
    SMA closes (MAFast cfg) = Some (s_maFast S) /\
    SMA closes (MASlow cfg) = Some (s_maSlow S) /\
    Momentum closes (MomWindow cfg) = Some (s_mom S) /\
    RSI closes (RSIWindow cfg) = Some (s_rsi S) /\
    MACD closes = Some (s_macd S) /\
    RealizedVol sqrt closes (VolWindow cfg) = Some (s_vol S) /\
    MFI (map models.Price.High prices) (map models.Price.Low prices) closes
        (map models.Price.Volume prices) 14 = Some (s_mfi S) /\
    BollingerPercentB sqrt closes 20 (Fin 2) = Some (s_bb S) /\
    (forall i p mf ms, at_ prices i = Some p ->
       at_ (s_maFast S) i = Some mf -> at_ (s_maSlow S) i = Some ms ->
       at_ (s_trend S) i = Some (trend_at (models.Price.Close p) mf ms)) /\
    (forall i p, at_ prices i = Some p ->
       at_ (s_dd S) i
       = Some (drawdown_at closes (DDWindow cfg) i (models.Price.Close p))) /\
    length results = length prices /\
    forall i p, at_ prices i = Some p ->
      exists rTrend rMom rRSI rMACD rDD rVol,
        at_ (s_trend S) i = Some rTrend /\ at_ (s_mom S) i = Some rMom /\
        at_ (s_rsi S) i = Some rRSI /\ at_ (s_macd S) i = Some rMACD /\
        at_ (s_dd S) i = Some rDD /\ at_ (s_vol S) i = Some rVol /\
        at_ results i = Some (bar_result p lang
          (models.Parts.mk rTrend rMom rRSI rMACD rDD rVol f0 f0 f0)
          (models.Parts.mk
             (Normalize (s_trend S) w 1 i) (Normalize (s_mom S) w 1 i)
             (Normalize (s_rsi S) w 1 i) (Normalize (s_macd S) w 1 i)
             (Normalize (s_dd S) w 1 i) (Normalize (s_vol S) w (-1) i)
             f0
             (Normalize (s_mfi S) w 1 i) (Normalize (s_bb S) w 1 i))).
End ComputeSpec.

(** ** The weighted aggregate, as the specification words it *)

(** The rational value of a finite score. *)
Definition to_Q (x : float64) : Q :=
  match x with Fin q => q | _ => 0%Q end.

(** The sub-scores of a bar that are defined. *)
Definition defined_scores (v : models.Parts.t) : list (string * float64) :=
  filter (fun kv => is_nan kv.2 = false) (keyed v).

(** Sum of [subScore * weight] over a list of keyed sub-scores. *)
Definition weighted_sum (l : list (string * float64)) : Q :=
  foldr (fun kv acc => (to_Q kv.2 * to_Q (weight kv.1) + acc)%Q) 0%Q l.

(** Sum of the weights of a list of keyed sub-scores. *)
Definition weight_sum (l : list (string * float64)) : Q :=
  foldr (fun kv acc => (to_Q (weight kv.1) + acc)%Q) 0%Q l.

Definition aggregate (v : models.Parts.t) : float64 :=
  match defined_scores v with
  | [] => NaN
  | l => real (weighted_sum l / weight_sum l)
  end.

(** A score that is either undefined or finite. *)
Definition nan_or_fin (x : float64) : Prop :=
  x = NaN \/ exists q, x = Fin q.

(** A key of the weight table, with a positive weight. *)
Definition weighted_key (k : string) : Prop :=
  exists q, weight k = Fin q /\ (0 < q)%Q.


(** ** Raw indicators of a bar, on rationals *)

(** One term of the trend strength, for a finite close [c] and a moving
    average [ma]: [c / ma - 1] where the average is positive, zero where
    it is undefined or not positive. *)
Definition trend_term (c : Q) (ma : float64) : Q :=
  match ma with
  | Fin m => if Qlt_le_dec 0 m then (c / m - 1)%Q else 0%Q
  | PInf => (-1)%Q
  | NaN | NInf => 0%Q
  end.


(** A non-negative real number. *)
Definition nonneg (x : float64) : Prop := exists c, x = Fin c /\ (0 <= c)%Q.


(** ** Wilder's RSI, as the specification words it *)

(** Gain and loss of the price change from [a] to [b]. *)
Definition gain (a b : Q) : Q := if Qlt_le_dec a b then (b - a)%Q else 0%Q.
Definition loss (a b : Q) : Q := if Qlt_le_dec a b then 0%Q else (a - b)%Q.

(** The price changes of a series, as pairs (gain, loss). *)
Fixpoint changes (closes : list Q) : list (Q * Q) :=
  match closes with
  | a :: (b :: _) as rest => (gain a b, loss a b) :: changes rest
  | _ => []
  end.

(** [100 - 100 / (1 + RS)] with [RS = avgGain / avgLoss]; 100 when
    [avgLoss = 0] and [avgGain > 0]; [RS = 0] when both are 0. *)
Definition rsi_score (avg : Q * Q) : Q :=
  let '(avgGain, avgLoss) := avg in
  if Qeq_bool avgLoss 0 then
    if Qlt_le_dec 0 avgGain then 100%Q else (100 - 100 / (1 + 0))%Q
  else (100 - 100 / (1 + avgGain / avgLoss))%Q.

(** [avg = (prevAvg * (window - 1) + current) / window] *)
Definition smooth (window : Q) (prev cur : Q * Q) : Q * Q :=
  (((prev.1 * (window - 1) + cur.1) / window)%Q,
   ((prev.2 * (window - 1) + cur.2) / window)%Q).

(** The averages at the indices after the first defined one. *)
Fixpoint smoothed (window : Q) (prev : Q * Q) (rest : list (Q * Q))
  : list (Q * Q) :=
  match rest with
  | [] => []
  | cur :: rest' =>
      let avg := smooth window prev cur in avg :: smoothed window avg rest'
  end.

Definition Qsum (l : list Q) : Q := foldr Qplus 0%Q l.

(** Undefined before index [window]; from there on the score of the
    averages of each index. *)
Definition RSI_wilder (closes : list Q) (window : nat) : list (option Q) :=
  if decide (length closes < window + 1)%nat then replicate (length closes) None
  else
    let ch := changes closes in
    let w := inject_Z (Z.of_nat window) in
    let first := ((Qsum (take window ch).*1 / w)%Q, (Qsum (take window ch).*2 / w)%Q) in
    replicate window None
    ++ map (fun avg => Some (Qred (rsi_score avg)))
           (first :: smoothed w first (drop window ch)).


(** ** Further reference notions

    Used to state what the indicators, the engine and the endpoint do
    beyond the claims of the specification. *)

(** A finite value. *)
Definition finite (x : float64) : Prop := exists q, x = Fin q.

(** The sum of the rational values of a list. *)
Definition sum_of (l : list float64) : Q := Qsum (map to_Q l).

(** A finite value between [lo] and [hi]. *)
Definition within (lo hi : Q) (x : float64) : Prop :=
  exists q, x = Fin q /\ (lo <= q <= hi)%Q.

(** What [Momentum] stores at index [i]. *)
Definition momentum_at (values : list float64) (window i : Z) : float64 :=
  if i <? window then NaN
  else match at_ values (i - window), at_ values i with
       | Some d, Some v => if (d !=? f0)%F then (v / d - f1)%F else NaN
       | _, _ => NaN
       end.


(** No value of the series is greater than the one before it. *)
Definition never_rises (values : list float64) : Prop :=
  forall i a b, at_ values (i - 1) = Some (Fin b) ->
    at_ values i = Some (Fin a) -> (a <= b)%Q.

(** [f] keeps undefined values undefined and keeps the order of the
    values of [values]. *)
Definition keeps_order (f : float64 -> float64) (values : list float64)
  : Prop :=
  Forall (fun a =>
    is_nan (f a) = is_nan a /\
    Forall (fun b => (f a <=? f b)%F = (a <=? b)%F) values) values.

(** A score: undefined, or a real number in (0, 100]. *)
Definition score_ok (x : float64) : Prop :=
  x = NaN \/ exists q, x = Fin q /\ (0 < q <= 100)%Q.

(** Two candles with the same date, high, low, close and volume. *)
Definition same_inputs (p p' : models.Price.t) : Prop :=
  models.Price.Date p = models.Price.Date p' /\
  models.Price.High p = models.Price.High p' /\
  models.Price.Low p = models.Price.Low p' /\
  models.Price.Close p = models.Price.Close p' /\
  models.Price.Volume p = models.Price.Volume p'.

(** The series entry of a record. *)
Definition safe_of (format : models.Time -> string) (r : models.ScoreResult.t)
  : api.SafeScore.t :=
  api.SafeScore.mk (format (models.ScoreResult.Date r))
    (if is_nan (models.ScoreResult.Score r) then None
     else Some (models.ScoreResult.Score r))
    (models.ScoreResult.Label r) (models.ScoreResult.Price r).

(** The configuration of the endpoint: the defaults, with the reference
    window of the request. *)
Definition window_config (window : Z) : Config :=
  {| NormWindow := window; MAFast := 20; MASlow := 60; MomWindow := 20;
     VolWindow := 20; RSIWindow := 14; DDWindow := 252 |}.


(** * Example series *)

(** A candle whose four prices are all [c]. *)
Definition flat_bar (day c : Z) : models.Price.t :=
  models.Price.mk day (of_int c) (of_int c) (of_int c) (of_int c) (of_int 1000).

(** Ten bars, enough for the floor of the normalisation window. *)
Definition ten_bars : models.PriceFrame.t :=
  models.PriceFrame.mk "X" "1d"
    (zip_with flat_bar [0; 1; 2; 3; 4; 5; 6; 7; 8; 9]
                       [10; 11; 12; 11; 13; 14; 13; 15; 16; 15]).

Definition ten_bars_results : list models.ScoreResult.t :=
  Eval vm_compute in default [] (Compute sqrt12 ten_bars DefaultConfig "en").

Definition ten_bars_last : models.ScoreResult.t :=
  Eval vm_compute in default models.ScoreResult.zero (at_ ten_bars_results 9).

(** Twenty bars: the fast average (20) is defined at the last bar, the
    slow one (60) is not. *)
Definition twenty_bars : models.PriceFrame.t :=
  models.PriceFrame.mk "X" "1d"
    (zip_with flat_bar (seqZ 0 20)
       [10; 11; 12; 11; 13; 14; 13; 15; 16; 15;
        17; 18; 17; 19; 20; 19; 21; 22; 21; 23]).

Definition twenty_bars_results : list models.ScoreResult.t :=
  Eval vm_compute in
    default [] (Compute sqrt12 twenty_bars DefaultConfig "en").

Definition twenty_bars_last : models.ScoreResult.t :=
  Eval vm_compute in
    default models.ScoreResult.zero (at_ twenty_bars_results 19).

Definition twenty_bars_fast : list float64 :=
  Eval vm_compute in
    default [] (SMA (map models.Price.Close (models.PriceFrame.Prices twenty_bars)) 20).

Definition twenty_bars_slow : list float64 :=
  Eval vm_compute in
    default [] (SMA (map models.Price.Close (models.PriceFrame.Prices twenty_bars)) 60).

(** A single candle. *)
Definition bar1 : models.Price.t :=
  models.Price.mk 0 (Fin 10) (Fin 12) (Fin 9) (Fin 11) (Fin 1000).


(** Three bars: fewer than the floor of the normalisation window. *)
Definition three_bars : models.PriceFrame.t :=
  models.PriceFrame.mk "X" "1d" (zip_with flat_bar [0; 1; 2] [10; 11; 12]).

Definition ten_bars_early : models.ScoreResult.t :=
  Eval vm_compute in default models.ScoreResult.zero (at_ ten_bars_results 3).

(** A stand-in for the date layout. *)
Definition day_of (t : models.Time) : string :=
  if t <? 5 then "early" else "late".

(** The ten bars under another ticker and frequency, with other opening
    prices. *)
Definition ten_bars_reopened : models.PriceFrame.t :=
  models.PriceFrame.mk "Y" "1h"
    (map (fun p => models.Price.mk (models.Price.Date p) (of_int 1)
                     (models.Price.High p) (models.Price.Low p)
                     (models.Price.Close p) (models.Price.Volume p))
         (models.PriceFrame.Prices ten_bars)).

(** Doubling a value. *)
Definition twice (x : float64) : float64 := (x * Fin 2)%F.

(** * Reasoning principles *)

(** ** Machine integers *)

Lemma Int_wrap_id z : Int.fits z -> Int.wrap z = z.
Proof.
  unfold Int.fits, Int.min, Int.max, Int.wrap. intros H.
  rewrite Z.mod_small; lia.
Qed.

Lemma Int_add_id a b : Int.fits (a + b) -> Int.add a b = a + b.
Proof. apply Int_wrap_id. Qed.

Lemma Int_sub_id a b : Int.fits (a - b) -> Int.sub a b = a - b.
Proof. apply Int_wrap_id. Qed.

Ltac int_lia := unfold Int.fits, Int.min, Int.max in *; lia.

(** ** The panic monad: total correctness *)


Lemma wp_ret {A} (a : A) (Q : A -> Prop) : Q a -> wp (Some a) Q.
Proof. intros H. exists a. auto. Qed.

Lemma wp_bind {A B} (m : option A) (f : A -> option B) (Q : B -> Prop) :
  wp m (fun a => wp (f a) Q) -> wp (m ≫= f) Q.
Proof. intros (a & -> & H). exact H. Qed.

Lemma wp_mono {A} (m : option A) (Q Q' : A -> Prop) :
  wp m Q -> (forall a, Q a -> Q' a) -> wp m Q'.
Proof. intros (a & -> & H) HQ. exists a. auto. Qed.

Lemma wp_elim {A} (m : option A) (Q : A -> Prop) a :
  wp m Q -> m = Some a -> Q a.
Proof. intros (a' & -> & H) [= <-]. exact H. Qed.

Lemma wp_at {A} (s : list A) i (Q : A -> Prop) :
  0 <= i < len s ->
  (forall v, s !! Z.to_nat i = Some v -> Q v) ->
  wp (at_ s i) Q.
Proof.
  unfold len, at_. intros Hi HQ.
  destruct (Z.leb_spec 0 i); [|lia].
  destruct (lookup_lt_is_Some_2 s (Z.to_nat i)) as [v Hv]; [lia|].
  exists v. auto.
Qed.

Lemma wp_put {A} (s : list A) i v (Q : list A -> Prop) :
  0 <= i < len s ->
  Q (<[Z.to_nat i := v]> s) ->
  wp (put s i v) Q.
Proof.
  unfold put. intros Hi HQ.
  destruct (Z.leb_spec 0 i); [|lia].
  destruct (Z.ltb_spec i (len s)); [|lia].
  simpl. eexists. eauto.
Qed.

Lemma wp_for_from {St} (I : Z -> St -> Prop) n i body s :
  I i s ->
  (forall j s, i <= j < i + Z.of_nat n -> I j s -> wp (body j s) (I (j + 1))) ->
  wp (for_from n i body s) (I (i + Z.of_nat n)).
Proof.
  revert i s. induction n as [|n IH]; intros i s Hs Hbody; simpl for_from.
  - apply wp_ret. replace (i + Z.of_nat 0) with i by lia. exact Hs.
  - apply wp_bind.
    eapply wp_mono; [apply Hbody; [lia | exact Hs]|].
    intros s' Hs'. simpl.
    replace (i + Z.of_nat (S n)) with (i + 1 + Z.of_nat n) by lia.
    apply IH; [exact Hs'|].
    intros j s0 Hj. apply Hbody. lia.
Qed.

(** The invariant rule for [for i := lo; i < hi; i++]. *)
Lemma wp_for_lt {St} (I : Z -> St -> Prop) lo hi body s (Q : St -> Prop) :
  I lo s ->
  (forall j s, lo <= j < hi -> I j s -> wp (body j s) (I (j + 1))) ->
  (forall s, I (Z.max lo hi) s -> Q s) ->
  wp (for_lt lo hi body s) Q.
Proof.
  intros Hs Hbody HQ. unfold for_lt.
  eapply wp_mono.
  - apply (wp_for_from I); [exact Hs|].
    intros j s0 Hj. apply Hbody. lia.
  - intros s' Hs'. apply HQ.
    replace (Z.max lo hi) with (lo + Z.of_nat (Z.to_nat (hi - lo))) by lia.
    exact Hs'.
Qed.

(** The invariant rule for [for i := lo; i <= hi; i++]. *)
Lemma wp_for_le {St} (I : Z -> St -> Prop) lo hi body s (Q : St -> Prop) :
  I lo s ->
  (forall j s, lo <= j <= hi -> I j s -> wp (body j s) (I (j + 1))) ->
  (forall s, I (Z.max lo (hi + 1)) s -> Q s) ->
  wp (for_le lo hi body s) Q.
Proof.
  intros Hs Hbody HQ. unfold for_le.
  eapply wp_mono.
  - apply (wp_for_from I); [exact Hs|].
    intros j s0 Hj. apply Hbody. lia.
  - intros s' Hs'. apply HQ.
    replace (Z.max lo (hi + 1))
      with (lo + Z.of_nat (Z.to_nat (hi - lo + 1))) by lia.
    exact Hs'.
Qed.

(** ** Slices *)

Lemma len_make n : 0 <= n -> len (make n) = n.
Proof. intros H. unfold len, make. rewrite length_replicate. lia. Qed.

Lemma len_insert {A} (s : list A) i v : len (<[i := v]> s) = len s.
Proof. unfold len. rewrite length_insert. reflexivity. Qed.

Lemma len_nonneg {A} (s : list A) : 0 <= len s.
Proof. unfold len. lia. Qed.

Lemma at_insert {A} (s : list A) i k v :
  0 <= i < len s -> 0 <= k ->
  at_ (<[Z.to_nat i := v]> s) k = if decide (k = i) then Some v else at_ s k.
Proof.
  intros Hi Hk. unfold at_. destruct (Z.leb_spec 0 k); [|lia].
  destruct (decide (k = i)) as [->|Hne].
  - apply list_lookup_insert_eq. unfold len in Hi. lia.
  - apply list_lookup_insert_ne. lia.
Qed.

Lemma at_lookup {A} (s : list A) i : 0 <= i -> at_ s i = s !! Z.to_nat i.
Proof. intros H. unfold at_. destruct (Z.leb_spec 0 i); [reflexivity|lia]. Qed.

Lemma positions_snoc {A} (s : list A) lo j x :
  0 <= lo <= j -> s !! Z.to_nat j = Some x ->
  positions s lo j = positions s lo (j - 1) ++ [x].
Proof.
  intros H Hx. unfold positions.
  replace (Z.to_nat (j + 1 - lo)) with (S (Z.to_nat (j - 1 + 1 - lo))) by lia.
  apply take_S_r. rewrite lookup_drop.
  replace (Z.to_nat lo + Z.to_nat (j - 1 + 1 - lo))%nat with (Z.to_nat j) by lia.
  exact Hx.
Qed.

Lemma positions_empty {A} (s : list A) lo hi : hi < lo -> positions s lo hi = [].
Proof.
  intros H. unfold positions.
  replace (Z.to_nat (hi + 1 - lo)) with 0%nat by lia. reflexivity.
Qed.

Lemma valid_snoc l x :
  valid (l ++ [x]) = valid l ++ (if is_nan x then [] else [x]).
Proof.
  unfold valid. rewrite filter_app. f_equal.
  destruct x; reflexivity.
Qed.

Lemma foldl_count_le cur buf c0 :
  foldl (fun c v => if (v <=? cur)%F then c + 1 else c) c0 buf
  = c0 + count_le cur buf.
Proof.
  unfold count_le, len. revert c0.
  induction buf as [|v buf IH]; intros c0; simpl.
  - lia.
  - rewrite IH. rewrite filter_cons.
    destruct (decide ((v <=? cur)%F = true)) as [->|Hne].
    + simpl. lia.
    + destruct (v <=? cur)%F; [congruence|]. lia.
Qed.

Lemma real_eq a b : (a == b)%Q -> real a = real b.
Proof. intros H. unfold real. f_equal. apply Qred_complete. exact H. Qed.

Lemma percent_eq c m :
  m <> 0 ->
  (of_int c / of_int m * f100)%F = real (100 * inject_Z c / inject_Z m).
Proof.
  intros Hm. unfold of_int, fdiv, f100.
  assert (Hq : ~ (inject_Z m == 0)%Q).
  { unfold Qeq. simpl. lia. }
  destruct (Qeq_bool (inject_Z m) 0) eqn:E.
  { apply Qeq_bool_iff in E. contradiction. }
  unfold real at 1. unfold fmul. apply real_eq.
  rewrite Qred_correct. field. exact Hq.
Qed.

(** ** Tactics for the panic monad *)

Ltac zprep :=
  repeat match goal with
  | H : (_ <? _) = true |- _ => apply Z.ltb_lt in H
  | H : (_ <? _) = false |- _ => apply Z.ltb_ge in H
  | H : (_ <=? _) = true |- _ => apply Z.leb_le in H
  | H : (_ <=? _) = false |- _ => apply Z.leb_gt in H
  | H : (_ =? _) = true |- _ => apply Z.eqb_eq in H
  | H : (_ =? _) = false |- _ => apply Z.eqb_neq in H
  end.

(** Solves bounds on indices and lengths. *)
Ltac slen :=
  zprep; unfold Int.fits, Int.min, Int.max, len, make in *;
  rewrite ?length_insert, ?length_replicate in *; lia.

Ltac int_simp :=
  repeat first
    [ rewrite Int_add_id in * by slen
    | rewrite Int_sub_id in * by slen ].

Ltac wp_go :=
  repeat (int_simp; lazymatch goal with
    | |- wp (mbind _ _) _ => apply wp_bind
    | |- wp (Some _) _ => apply wp_ret
    | |- wp (at_ _ _) _ => apply wp_at; [slen | intros ? ?]
    | |- wp (put _ _ _) _ => apply wp_put; [slen | ]
    | |- wp (if ?b then _ else _) _ => destruct b eqn:?
    | |- wp (match ?p with (_, _) => _ end) _ => destruct p
    end).

Lemma fill_NaN_wp out :
  wp (fill_NaN out) (fun out' => out' = replicate (length out) NaN).
Proof.
  unfold fill_NaN.
  apply (wp_for_lt (fun j s =>
    length s = length out /\
    forall k, (k < Z.to_nat j)%nat -> s !! k = Some NaN)).
  - split; [reflexivity|]. intros k Hk. lia.
  - intros j s Hj [Hlen Hs]. apply wp_put; [unfold len in *; lia|].
    split; [rewrite length_insert; exact Hlen|].
    intros k Hk. destruct (decide (k = Z.to_nat j)) as [->|Hne].
    + apply list_lookup_insert_eq. unfold len in *. lia.
    + rewrite list_lookup_insert_ne by congruence. apply Hs. lia.
  - intros s [Hlen Hs]. apply list_eq. intros k.
    destruct (decide (k < length out)%nat) as [Hk|Hk].
    + rewrite Hs by (unfold len; lia).
      symmetry. apply lookup_replicate_2. exact Hk.
    + rewrite !lookup_ge_None_2; [reflexivity| |]; rewrite ?length_replicate; lia.
Qed.

Ltac wp_fill :=
  try lazymatch goal with |- wp (mbind _ _) _ => apply wp_bind end;
  eapply wp_mono; [apply fill_NaN_wp|]; intros ? ->.

Lemma SMA_wp values window :
  0 < window -> Int.fits window -> Int.fits (len values) ->
  wp (SMA values window) (fun out => length out = length values).
Proof.
  intros Hw Hfw Hfl. unfold SMA. wp_fill. wp_go; [slen|].
  apply (wp_for_lt (fun _ _ => True)); [exact I| |].
  { intros j s Hj _. wp_go. exact I. }
  intros sum _. wp_go.
  apply (wp_for_lt (fun _ st => length st.2 = length values)); [simpl; slen| |].
  { intros j [sum' o] Hj Hinv. simpl in Hinv. wp_go. simpl. slen. }
  intros [sum' o] Hinv. wp_go. exact Hinv.
Qed.

Lemma Momentum_wp values window :
  0 <= window -> Int.fits window -> Int.fits (len values) ->
  wp (Momentum values window) (fun out => length out = length values).
Proof.
  intros Hw Hfw Hfl. unfold Momentum. wp_fill. wp_go.
  apply (wp_for_lt (fun _ o => length o = length values)); [slen| |].
  { intros j o Hj Hinv. wp_go; slen. }
  intros o Hinv. wp_go. exact Hinv.
Qed.

Lemma EMA_wp values span :
  Int.fits (len values) ->
  wp (EMA values span) (fun out => length out = length values).
Proof.
  intros Hfl. unfold EMA. wp_go; [slen|].
  apply (wp_for_lt (fun _ o => length o = length values)); [slen| |].
  { intros j o Hj Hinv. wp_go. slen. }
  intros o Hinv. wp_go. exact Hinv.
Qed.

Ltac wp_call L :=
  try lazymatch goal with |- wp (mbind _ _) _ => apply wp_bind end;
  eapply wp_mono; [apply L|]; [..|intros ? ?].

Lemma MACD_wp values :
  Int.fits (len values) ->
  wp (MACD values) (fun out => length out = length values).
Proof.
  intros Hfl. unfold MACD.
  wp_call EMA_wp; [assumption|]. wp_call EMA_wp; [assumption|].
  wp_go.
  apply (wp_for_lt (fun _ o => length o = length values)); [slen| |].
  { intros j o Hj Hinv. wp_go. slen. }
  intros macdLine Hm.
  wp_call EMA_wp; [slen|]. wp_go.
  apply (wp_for_lt (fun _ o => length o = length values)); [slen| |].
  { intros j o Hj Hinv. wp_go. slen. }
  intros hist Hh. wp_go. exact Hh.
Qed.

Lemma RSI_wp values window :
  0 <= window < Int.max -> Int.fits (len values) ->
  wp (RSI values window) (fun out => length out = length values).
Proof.
  intros Hw Hfl. unfold RSI. wp_fill. wp_go; [slen|].
  apply (wp_for_lt (fun _ st =>
    length st.1 = length values /\ length st.2 = length values));
    [simpl; slen| |].
  { intros j [g l] Hj [Hg Hl]. simpl in Hg, Hl. wp_go; simpl; slen. }
  intros [gains losses] [Hg Hl]. simpl in Hg, Hl. wp_go.
  apply (wp_for_le (fun _ _ => True)); [exact I| |].
  { intros j [ag al] Hj _. wp_go. exact I. }
  intros [avgGain avgLoss] _. wp_go.
  apply (wp_for_lt (fun _ st => length st.2 = length values)); [simpl; slen| |].
  { intros j [[ag al] o] Hj Hinv. simpl in Hinv. wp_go; simpl; slen. }
  intros [[ag al] o] Hinv. simpl in Hinv. wp_go; slen.
Qed.

Lemma MFI_wp high low close volume window :
  0 <= window < Int.max -> Int.fits (len close) ->
  length high = length close -> length low = length close ->
  length volume = length close ->
  wp (MFI high low close volume window)
     (fun out => length out = length close).
Proof.
  intros Hw Hfl Hh Hl Hv. unfold MFI. wp_fill. wp_go; [slen|].
  apply (wp_for_lt (fun _ st =>
    length st.1 = length close /\ length st.2 = length close));
    [simpl; slen| |].
  { intros j [tp rmf] Hj [H1 H2]. simpl in H1, H2. wp_go; simpl; slen. }
  intros [typicalPrice rawMoneyFlow] [Ht Hr]. simpl in Ht, Hr. wp_go.
  apply (wp_for_lt (fun _ st =>
    length st.1 = length close /\ length st.2 = length close));
    [simpl; slen| |].
  { intros j [pf nf] Hj [H1 H2]. simpl in H1, H2. wp_go; simpl; slen. }
  intros [posFlow negFlow] [Hp Hn]. simpl in Hp, Hn. wp_go.
  apply (wp_for_le (fun _ _ => True)); [exact I| |].
  { intros j [sp sn] Hj _. wp_go. exact I. }
  intros [sumPos sumNeg] _. wp_go.
  apply (wp_for_lt (fun _ st => length st.2 = length close)); [simpl; slen| |].
  { intros j [[sp sn] o] Hj Hinv. simpl in Hinv. wp_go; simpl; slen. }
  intros [[sp sn] o] Hinv. simpl in Hinv. wp_go; slen.
Qed.

Lemma RealizedVol_wp sqrt values window :
  0 <= window -> Int.fits window -> Int.fits (len values) ->
  wp (RealizedVol sqrt values window)
     (fun out => length out = length values).
Proof.
  intros Hw Hfw Hfl. unfold RealizedVol. wp_fill. wp_go.
  apply (wp_for_lt (fun _ o => length o = length values)); [slen| |].
  { intros j o Hj Hinv. wp_go; slen. }
  intros returns Hr. wp_go.
  apply (wp_for_lt (fun _ o => length o = length values)); [slen| |].
  { intros j o Hj Hinv. wp_go.
    apply (wp_for_lt (fun _ _ => True)); [exact I| |].
    { intros k s Hk _. wp_go. exact I. }
    intros sum _. wp_go.
    apply (wp_for_lt (fun _ _ => True)); [exact I| |].
    { intros k s Hk _. wp_go. exact I. }
    intros sqSum _. wp_go. slen. }
  intros o Hinv. wp_go. exact Hinv.
Qed.

Lemma BollingerPercentB_wp sqrt close window numStdDev :
  0 < window -> Int.fits window -> Int.fits (len close) ->
  wp (BollingerPercentB sqrt close window numStdDev)
     (fun out => length out = length close).
Proof.
  intros Hw Hfw Hfl. unfold BollingerPercentB. wp_fill. wp_go; [slen|].
  wp_call SMA_wp; [assumption..|]. wp_go.
  apply (wp_for_lt (fun _ o => length o = length close)); [slen| |].
  { intros j o Hj Hinv. wp_go.
    apply (wp_for_lt (fun _ _ => True)); [exact I| |].
    { intros k s Hk _. wp_go. exact I. }
    intros sumSq _. wp_go; slen. }
  intros o Hinv. wp_go. exact Hinv.
Qed.

(** ** The order on floating-point values *)

Lemma fle_Fin a b : (Fin a <=? Fin b)%F = true <-> (a <= b)%Q.
Proof.
  unfold fle, fcompare. rewrite Qle_alt.
  destruct (a ?= b)%Q; split; intros H; congruence.
Qed.

Lemma flt_Fin a b : (Fin a <? Fin b)%F = true <-> (a < b)%Q.
Proof.
  unfold flt, fcompare. rewrite Qlt_alt.
  destruct (a ?= b)%Q; split; intros H; congruence.
Qed.

Lemma feq_Fin a b : (Fin a =? Fin b)%F = true <-> (a == b)%Q.
Proof.
  unfold feq, fcompare. rewrite Qeq_alt.
  destruct (a ?= b)%Q; split; intros H; congruence.
Qed.

Lemma fle_refl x : is_nan x = false -> (x <=? x)%F = true.
Proof.
  destruct x; try reflexivity; [discriminate|].
  intros _. apply fle_Fin. apply Qle_refl.
Qed.

(** Exactly one or both of [x <= v], [v <= x] hold on defined values, and
    both exactly when the two are equal. *)
Lemma fle_total_count x v :
  is_nan x = false -> is_nan v = false ->
  Z.b2z (x <=? v)%F + Z.b2z (v <=? x)%F = 1 + Z.b2z (x =? v)%F.
Proof.
  destruct x as [| | |a], v as [| | |b]; try discriminate; try reflexivity.
  intros _ _. unfold fle, feq, fcompare.
  rewrite <- (Qcompare_antisym a b).
  destruct (a ?= b)%Q; reflexivity.
Qed.

Lemma fmul_dir_nan x d : d = 1 \/ d = -1 ->
  is_nan (x * of_int d)%F = is_nan x.
Proof. intros [-> | ->]; destruct x; reflexivity. Qed.

Lemma fle_dir_pos x y : ((x * of_int 1) <=? (y * of_int 1))%F = (x <=? y)%F.
Proof.
  destruct x as [| | |a], y as [| | |b]; try reflexivity.
  apply eq_true_iff_eq. unfold fmul, real, of_int.
  rewrite !fle_Fin, !Qred_correct.
  assert (E : forall q, (q * inject_Z 1 == q)%Q) by (intros; ring).
  rewrite !E. reflexivity.
Qed.

Lemma fle_dir_neg x y :
  ((x * of_int (-1)) <=? (y * of_int (-1)))%F = (y <=? x)%F.
Proof.
  destruct x as [| | |a], y as [| | |b]; try reflexivity.
  apply eq_true_iff_eq. unfold fmul, real, of_int.
  rewrite !fle_Fin, !Qred_correct.
  assert (E : forall q, (q * inject_Z (-1) == - q)%Q) by (intros; ring).
  rewrite !E. split; intros H.
  - apply Qopp_le_compat in H. rewrite !Qopp_involutive in H. exact H.
  - apply Qopp_le_compat. exact H.
Qed.

(** * The rolling percentile normaliser *)

Lemma at_replicate {A} n (x : A) k :
  0 <= k < Z.of_nat n -> at_ (replicate n x) k = Some x.
Proof.
  intros H. rewrite at_lookup by lia. apply lookup_replicate_2. lia.
Qed.

Lemma len_directed d l : len (directed d l) = len l.
Proof. unfold len, directed. rewrite length_map. reflexivity. Qed.

Lemma RollingScore_spec values window direction :
  0 <= window -> Int.fits window -> Int.fits (len values) ->
  wp (RollingScore values window direction) (fun out =>
    length out = length values /\
    forall i, 0 <= i < len values ->
      at_ out i = Some (Normalize values window direction i)).
Proof.
  intros Hw Hfw Hfl. unfold RollingScore. wp_fill. wp_go; [slen|].
  apply (wp_for_lt (fun i st =>
    length st.1 = length values /\
    (forall k, 0 <= k < i ->
       at_ st.1 k = Some (Normalize values window direction k)) /\
    (forall k, i <= k < len values -> at_ st.1 k = Some NaN))).
  { simpl. split; [slen|]. split; [intros; lia|].
    intros k Hk. apply at_replicate. slen. }
  2:{ intros [out buf] (Hlen & Hdone & _). simpl in *. wp_go.
      split; [exact Hlen|]. intros i Hi. apply Hdone. lia. }
  intros i [out buf] Hi (Hlen & Hdone & Htodo). simpl in Hlen, Hdone, Htodo.
  assert (Hstep : forall out',
    length out' = length values ->
    (forall k, 0 <= k -> k <> i -> at_ out' k = at_ out k) ->
    at_ out' i = Some (Normalize values window direction i) ->
    forall buf' : list float64,
    (fun st : list float64 * list float64 =>
      length st.1 = length values /\
      (forall k, 0 <= k < i + 1 ->
         at_ st.1 k = Some (Normalize values window direction k)) /\
      (forall k, i + 1 <= k < len values -> at_ st.1 k = Some NaN)) (out', buf')).
  { intros out' Hl' Hsame Hi' buf'. simpl. split; [exact Hl'|]. split.
    - intros k Hk. destruct (decide (k = i)) as [->|Hne]; [exact Hi'|].
      rewrite Hsame by lia. apply Hdone. lia.
    - intros k Hk. rewrite Hsame by lia. apply Htodo. lia. }
  wp_go.
  - (* values[i] is NaN: continue *)
    apply Hstep; [exact Hlen|reflexivity|].
    rewrite Htodo by lia. unfold Normalize. rewrite at_lookup by lia.
    rewrite H. rewrite Heqb0. rewrite orb_true_r. reflexivity.
  - (* i < window - 1 *)
    apply Hstep; [slen| |].
    + intros k Hk Hne. rewrite at_insert by slen.
      destruct (decide (k = i)); [contradiction|reflexivity].
    + rewrite at_insert by slen. rewrite decide_True by reflexivity.
      unfold Normalize. rewrite at_lookup by lia. rewrite H.
      rewrite Heqb1. reflexivity.
  - (* the window is complete *)
    assert (Hstart : (i - window + 1 <? 0) = false) by (apply Z.ltb_ge; slen).
    rewrite Hstart. set (start := i - window + 1).
    apply (wp_for_le (fun j b =>
      b = directed direction (valid (positions values start (j - 1))))).
    { rewrite positions_empty by lia. reflexivity. }
    { intros j b Hj ->. wp_go.
      - apply negb_true_iff in Heqb2.
        rewrite (positions_snoc values start (j + 1 - 1) v0)
          by (rewrite ?Z.add_simpl_r; first [slen | assumption]).
        rewrite valid_snoc, Heqb2. unfold directed. rewrite map_app.
        rewrite Z.add_simpl_r. reflexivity.
      - apply negb_false_iff in Heqb2.
        rewrite (positions_snoc values start (j + 1 - 1) v0)
          by (rewrite ?Z.add_simpl_r; first [slen | assumption]).
        rewrite valid_snoc, Heqb2, app_nil_r.
        rewrite Z.add_simpl_r. reflexivity. }
    intros b ->. replace (Z.max start (i + 1) - 1) with i by slen.
    rewrite len_directed. wp_go.
    + apply Hstep; [exact Hlen|reflexivity|].
      rewrite Htodo by lia. unfold Normalize. rewrite at_lookup by lia.
      rewrite H. fold start. rewrite Heqb2, !orb_true_r. reflexivity.
    + apply Hstep; [slen| |].
      * intros k Hk Hne. rewrite at_insert by slen.
        destruct (decide (k = i)); [contradiction|reflexivity].
      * rewrite at_insert by slen. rewrite decide_True by reflexivity.
        unfold Normalize. rewrite at_lookup by lia. rewrite H. fold start.
        rewrite Heqb1, Heqb0, Heqb2. simpl orb. cbv iota.
        rewrite foldl_count_le, Z.add_0_l.
        rewrite percent_eq by slen. reflexivity.
Qed.

(** ** Ranks *)

Lemma count_le_cons v y l :
  count_le v (y :: l) = Z.b2z (y <=? v)%F + count_le v l.
Proof.
  unfold count_le, len. rewrite filter_cons.
  destruct (decide ((y <=? v)%F = true)) as [->|Hne].
  - simpl. lia.
  - destruct (y <=? v)%F; [congruence|]. simpl. lia.
Qed.

Lemma count_eq_cons v y l :
  count_eq v (y :: l) = Z.b2z (y =? v)%F + count_eq v l.
Proof.
  unfold count_eq, len. rewrite filter_cons.
  destruct (decide ((y =? v)%F = true)) as [->|Hne].
  - simpl. lia.
  - destruct (y =? v)%F; [congruence|]. simpl. lia.
Qed.

Lemma count_le_bounds v l : 0 <= count_le v l <= len l.
Proof.
  unfold count_le, len. pose proof (length_filter (fun x => (x <=? v)%F = true) l).
  lia.
Qed.

Lemma valid_Forall l : Forall (fun v => is_nan v = false) (valid l).
Proof. unfold valid. apply Forall_forall. intros x Hx. apply list_elem_of_filter in Hx. tauto. Qed.

Lemma rank_complement win x :
  Forall (fun v => is_nan v = false) win -> is_nan x = false ->
  count_le (x * of_int 1)%F (directed 1 win)
  + count_le (x * of_int (-1))%F (directed (-1) win)
  = len win + count_eq x win.
Proof.
  intros Hwin Hx. induction Hwin as [|y l Hy _ IH].
  - reflexivity.
  - simpl directed. rewrite !count_le_cons, count_eq_cons.
    rewrite fle_dir_pos, fle_dir_neg.
    pose proof (fle_total_count y x Hy Hx).
    unfold len in *. simpl length. lia.
Qed.

Lemma count_eq_app v l1 l2 : count_eq v (l1 ++ l2) = count_eq v l1 + count_eq v l2.
Proof.
  unfold count_eq, len. rewrite filter_app, length_app. lia.
Qed.

Lemma feq_refl x : is_nan x = false -> (x =? x)%F = true.
Proof.
  destruct x; try reflexivity; [discriminate|].
  intros _. apply feq_Fin. reflexivity.
Qed.

Lemma count_eq_last l x :
  no_ties (l ++ [x]) = true -> is_nan x = false -> count_eq x (l ++ [x]) = 1.
Proof.
  intros Hnt Hx. rewrite count_eq_app, count_eq_cons, feq_refl by exact Hx.
  enough (count_eq x l = 0) by (unfold count_eq at 2; simpl; unfold len in *; simpl; lia).
  induction l as [|y l IH]; [reflexivity|].
  simpl in Hnt. apply andb_true_iff in Hnt as [Hy Hl].
  rewrite forallb_app in Hy. apply andb_true_iff in Hy as [_ Hy].
  simpl in Hy. rewrite andb_true_r in Hy. apply negb_true_iff in Hy.
  rewrite count_eq_cons, Hy, IH by exact Hl. reflexivity.
Qed.

(** The trailing window of a defined value ends with that value. *)
Lemma window_last values w i x :
  1 <= w -> w - 1 <= i -> values !! Z.to_nat i = Some x -> is_nan x = false ->
  valid (positions values (i - w + 1) i)
  = valid (positions values (i - w + 1) (i - 1)) ++ [x].
Proof.
  intros Hw Hi Hx Hnan.
  rewrite (positions_snoc values (i - w + 1) i x) by first [lia | assumption].
  rewrite valid_snoc, Hnan. reflexivity.
Qed.

Lemma window_nonempty values w i :
  0 <= w -> len (valid (positions values (i - w + 1) i)) <> 0 -> 1 <= w.
Proof.
  intros Hw Hm. destruct (decide (w = 0)) as [->|]; [|lia].
  rewrite positions_empty in Hm by lia. contradiction.
Qed.

Lemma count_le_last d l x :
  d = 1 \/ d = -1 -> is_nan x = false ->
  1 <= count_le (x * of_int d)%F (directed d (l ++ [x])).
Proof.
  intros Hd Hx. unfold directed. rewrite map_app. simpl.
  unfold count_le, len. rewrite filter_app, length_app.
  rewrite filter_cons, decide_True.
  - simpl. lia.
  - apply fle_refl. rewrite fmul_dir_nan; assumption.
Qed.

Lemma at_Some_range {A} (s : list A) i x : at_ s i = Some x -> 0 <= i < len s.
Proof.
  unfold at_, len. destruct (Z.leb_spec 0 i) as [Hi|Hi]; [|discriminate].
  intros Hx%lookup_lt_Some. lia.
Qed.

Lemma RollingScore_at values w d out i y :
  0 <= w -> Int.fits w -> Int.fits (len values) ->
  RollingScore values w d = Some out -> at_ out i = Some y ->
  y = Normalize values w d i.
Proof.
  intros Hw Hfw Hfl Hout Hy.
  pose proof (wp_elim _ _ _ (RollingScore_spec values w d Hw Hfw Hfl) Hout)
    as [Hlen Hspec].
  pose proof (at_Some_range _ _ _ Hy) as Hi.
  rewrite Hspec in Hy by (unfold len in *; lia). congruence.
Qed.

(** Where the reference normaliser is defined. *)
Lemma Normalize_defined values w d i y :
  0 <= w -> Normalize values w d i = y -> is_nan y = false ->
  exists x,
    at_ values i = Some x /\ is_nan x = false /\ 1 <= w /\ w - 1 <= i /\
    len (valid (positions values (i - w + 1) i)) <> 0 /\
    y = real (100 * inject_Z (count_le (x * of_int d)%F
                (directed d (valid (positions values (i - w + 1) i))))
              / inject_Z (len (valid (positions values (i - w + 1) i)))).
Proof.
  intros Hw <- Hy. unfold Normalize in *.
  destruct (at_ values i) as [x|] eqn:Hx; [|discriminate].
  exists x. split; [reflexivity|].
  destruct (Z.ltb_spec i (w - 1)); [discriminate|].
  destruct (is_nan x); [discriminate|].
  destruct (Z.eqb_spec (len (valid (positions values (i - w + 1) i))) 0);
    [discriminate|].
  simpl. repeat split; try assumption; try lia.
  eapply window_nonempty; eassumption.
Qed.

(** C2 (as the code has it). The output of the normaliser at index [i]
    is undefined when [i < w - 1], when the value at [i] is itself
    undefined, or when the trailing window [i - w + 1 .. i] holds no valid
    value; otherwise it is [100 * c / m], where [m] counts the valid values
    of the window and [c] those whose directed value is at most the
    directed value at [i]. *)
Theorem RollingScore_percentile values w d :
  0 <= w -> Int.fits w -> Int.fits (len values) ->
  exists out, RollingScore values w d = Some out /\
    length out = length values /\
    forall i x, at_ values i = Some x ->
      let win := valid (positions values (i - w + 1) i) in
      let m := len win in
      let c := count_le (x * of_int d)%F (directed d win) in
      (i < w - 1 \/ is_nan x = true \/ m = 0 -> at_ out i = Some NaN) /\
      (w - 1 <= i -> is_nan x = false -> m <> 0 ->
         at_ out i = Some (real (100 * inject_Z c / inject_Z m))).
Proof.
  intros Hw Hfw Hfl.
  destruct (RollingScore_spec values w d Hw Hfw Hfl) as (out & Hout & Hlen & Hspec).
  exists out. split; [exact Hout|]. split; [exact Hlen|].
  intros i x Hx win m c.
  pose proof (at_Some_range _ _ _ Hx) as Hi.
  rewrite (Hspec i Hi). unfold Normalize. rewrite Hx. fold win m c.
  split.
  - intros [H | [H | H]].
    + apply Z.ltb_lt in H. rewrite H. reflexivity.
    + rewrite H, orb_true_r. reflexivity.
    + apply Z.eqb_eq in H. rewrite H, orb_true_r. reflexivity.
  - intros H1 H2 H3. apply Z.ltb_ge in H1. apply Z.eqb_neq in H3.
    rewrite H1, H2, H3. reflexivity.
Qed.

(** C9. A defined output of the normaliser is strictly positive: it is at
    least [100 / m], where [m] counts the valid values of the trailing
    window, because the current value counts itself; and it is at most
    100. *)
Theorem RollingScore_positive values w d out i y :
  0 <= w -> Int.fits w -> Int.fits (len values) -> d = 1 \/ d = -1 ->
  RollingScore values w d = Some out ->
  at_ out i = Some y -> is_nan y = false ->
  let m := len (valid (positions values (i - w + 1) i)) in
  exists q, y = Fin q /\ (0 < q)%Q /\ (100 / inject_Z m <= q)%Q /\ (q <= 100)%Q.
Proof.
  intros Hw Hfw Hfl Hd Hout Hy Hnan m.
  pose proof (RollingScore_at _ _ _ _ _ _ Hw Hfw Hfl Hout Hy) as E.
  symmetry in E.
  destruct (Normalize_defined _ _ _ _ _ Hw E Hnan)
    as (x & Hx & Hxn & Hw1 & Hi & Hm & ->).
  fold m in Hm |- *.
  assert (Hxl : values !! Z.to_nat i = Some x).
  { rewrite <- at_lookup by lia. exact Hx. }
  set (c := count_le _ _).
  assert (Hc : 1 <= c <= m).
  { subst c m. split.
    - rewrite (window_last values w i x) by assumption.
      apply count_le_last; assumption.
    - pose proof (count_le_bounds (x * of_int d)%F
        (directed d (valid (positions values (i - w + 1) i)))) as Hb.
      rewrite len_directed in Hb. lia. }
  eexists. split; [reflexivity|].
  assert (Hmq : (0 < inject_Z m)%Q).
  { rewrite <- (Zlt_Qlt 0). lia. }
  assert (Hcq : (1 <= inject_Z c)%Q /\ (inject_Z c <= inject_Z m)%Q).
  { rewrite <- (Zle_Qle 1), <- Zle_Qle. lia. }
  rewrite Qred_correct.
  repeat split.
  - apply Qlt_shift_div_l; [exact Hmq|]. lra.
  - apply Qle_shift_div_l; [exact Hmq|].
    assert (E100 : (100 / inject_Z m * inject_Z m == 100)%Q) by (field; lra).
    rewrite E100. lra.
  - apply Qle_shift_div_r; [exact Hmq|]. lra.
Qed.

(** C5 (as the code has it). Where both directions give a defined output
    and no two valid values of the trailing window are equal, the output
    for direction -1 is [100 + 100 / m] minus the output for direction +1,
    [m] being the number of valid values of the window: the current value
    is counted in both ranks. *)
Theorem RollingScore_direction_complement values w i outp outn p n :
  0 <= w -> Int.fits w -> Int.fits (len values) ->
  RollingScore values w 1 = Some outp ->
  RollingScore values w (-1) = Some outn ->
  at_ outp i = Some (Fin p) -> at_ outn i = Some (Fin n) ->
  no_ties (valid (positions values (i - w + 1) i)) = true ->
  let m := len (valid (positions values (i - w + 1) i)) in
  (n == 100 + 100 / inject_Z m - p)%Q.
Proof.
  intros Hw Hfw Hfl Hp Hn Hip Hin Hties m.
  pose proof (RollingScore_at _ _ _ _ _ _ Hw Hfw Hfl Hp Hip) as Ep.
  pose proof (RollingScore_at _ _ _ _ _ _ Hw Hfw Hfl Hn Hin) as En.
  symmetry in Ep, En.
  destruct (Normalize_defined _ _ _ _ _ Hw Ep eq_refl)
    as (x & Hx & Hxn & Hw1 & Hi & Hm & Ep').
  destruct (Normalize_defined _ _ _ _ _ Hw En eq_refl)
    as (x' & Hx' & _ & _ & _ & _ & En').
  rewrite Hx in Hx'. injection Hx' as <-.
  fold m in Hm, Ep', En'.
  assert (Hxl : values !! Z.to_nat i = Some x).
  { rewrite <- at_lookup by lia. exact Hx. }
  pose proof (rank_complement (valid (positions values (i - w + 1) i)) x
                (valid_Forall _) Hxn) as Hsum.
  assert (Hone : count_eq x (valid (positions values (i - w + 1) i)) = 1).
  { rewrite (window_last values w i x) in Hties |- * by assumption.
    apply count_eq_last; assumption. }
  rewrite Hone in Hsum. fold m in Hsum.
  set (cp := count_le (x * of_int 1)%F _) in *.
  set (cn := count_le (x * of_int (-1))%F _) in *.
  injection Ep' as ->. injection En' as ->.
  rewrite !Qred_correct.
  replace cn with (m + 1 - cp) by lia.
  assert (Hmq : ~ (inject_Z m == 0)%Q).
  { unfold Qeq. simpl. lia. }
  unfold Zminus. rewrite !inject_Z_plus, inject_Z_opp.
  field. exact Hmq.
Qed.

Lemma fits_small z : -1000 <= z <= 1000 -> Int.fits z.
Proof. int_lia. Qed.

(** C2 as stated fails where the current value itself is undefined: in the
    series 1, NaN with window 2 the trailing window of index 1 holds one
    valid value, yet the output is undefined, not [100 * 0 / 1]. *)
Lemma RollingScore_undefined_current_value :
  let values := [Fin 1; NaN] in
  let win := valid (positions values (1 - 2 + 1) 1) in
  let m := len win in
  let c := count_le (NaN * of_int 1)%F (directed 1 win) in
  at_ values 1 = Some NaN /\ 2 - 1 <= 1 /\ m <> 0 /\
  RollingScore values 2 1 = Some [NaN; NaN] /\
  Some NaN <> Some (real (100 * inject_Z c / inject_Z m)).
Proof.
  vm_compute. repeat split; discriminate.
Qed.

Lemma RollingScore_percentile_example :
  let values := [Fin 3; Fin 1; Fin 2] in
  0 <= 2 /\ Int.fits 2 /\ Int.fits (len values) /\
  exists out, RollingScore values 2 1 = Some out /\
    length out = length values /\
    forall i x, at_ values i = Some x ->
      let win := valid (positions values (i - 2 + 1) i) in
      let m := len win in
      let c := count_le (x * of_int 1)%F (directed 1 win) in
      (i < 2 - 1 \/ is_nan x = true \/ m = 0 -> at_ out i = Some NaN) /\
      (2 - 1 <= i -> is_nan x = false -> m <> 0 ->
         at_ out i = Some (real (100 * inject_Z c / inject_Z m))).
Proof.
  intros values.
  assert (H0 : 0 <= 2) by lia.
  assert (H1 : Int.fits 2) by (apply fits_small; lia).
  assert (H2 : Int.fits (len values)) by (apply fits_small; vm_compute; split; discriminate).
  split; [exact H0|]. split; [exact H1|]. split; [exact H2|].
  exact (RollingScore_percentile values 2 1 H0 H1 H2).
Defined.

Lemma RollingScore_positive_example :
  let values := [Fin 3; Fin 1; Fin 2] in
  let out := [NaN; Fin 50; Fin 100] in
  let m := len (valid (positions values (1 - 2 + 1) 1)) in
  0 <= 2 /\ Int.fits 2 /\ Int.fits (len values) /\ (1 = 1 \/ 1 = -1) /\
  RollingScore values 2 1 = Some out /\ at_ out 1 = Some (Fin 50) /\
  is_nan (Fin 50) = false /\
  exists q, Fin 50 = Fin q /\ (0 < q)%Q /\ (100 / inject_Z m <= q)%Q /\ (q <= 100)%Q.
Proof.
  intros values out m.
  assert (H0 : 0 <= 2) by lia.
  assert (H1 : Int.fits 2) by (apply fits_small; lia).
  assert (H2 : Int.fits (len values)) by (apply fits_small; vm_compute; split; discriminate).
  assert (H3 : 1 = 1 \/ 1 = -1) by (left; reflexivity).
  assert (H4 : RollingScore values 2 1 = Some out) by (vm_compute; reflexivity).
  assert (H5 : at_ out 1 = Some (Fin 50)) by reflexivity.
  assert (H6 : is_nan (Fin 50) = false) by reflexivity.
  repeat (split; [assumption|]).
  exact (RollingScore_positive values 2 1 out 1 (Fin 50) H0 H1 H2 H3 H4 H5 H6).
Defined.

(** C5 as stated fails: on the series 1, 2 with window 2 there are no ties,
    direction +1 gives 100 at index 1 and direction -1 gives 50, not
    [100 - 100]. *)
Lemma RollingScore_complement_is_not_exact :
  let values := [Fin 1; Fin 2] in
  RollingScore values 2 1 = Some [NaN; Fin 100] /\
  RollingScore values 2 (-1) = Some [NaN; Fin 50] /\
  no_ties (valid (positions values (1 - 2 + 1) 1)) = true /\
  ~ (50 == 100 - 100)%Q.
Proof.
  vm_compute. repeat split; discriminate.
Qed.

Lemma RollingScore_direction_complement_example :
  let values := [Fin 1; Fin 2] in
  let m := len (valid (positions values (1 - 2 + 1) 1)) in
  0 <= 2 /\ Int.fits 2 /\ Int.fits (len values) /\
  RollingScore values 2 1 = Some [NaN; Fin 100] /\
  RollingScore values 2 (-1) = Some [NaN; Fin 50] /\
  at_ [NaN; Fin 100] 1 = Some (Fin 100) /\ at_ [NaN; Fin 50] 1 = Some (Fin 50) /\
  no_ties (valid (positions values (1 - 2 + 1) 1)) = true /\
  (50 == 100 + 100 / inject_Z m - 100)%Q.
Proof.
  intros values m.
  assert (H0 : 0 <= 2) by lia.
  assert (H1 : Int.fits 2) by (apply fits_small; lia).
  assert (H2 : Int.fits (len values)) by (apply fits_small; vm_compute; split; discriminate).
  assert (H3 : RollingScore values 2 1 = Some [NaN; Fin 100]) by (vm_compute; reflexivity).
  assert (H4 : RollingScore values 2 (-1) = Some [NaN; Fin 50]) by (vm_compute; reflexivity).
  assert (H5 : at_ [NaN; Fin 100] 1 = Some (Fin 100)) by reflexivity.
  assert (H6 : at_ [NaN; Fin 50] 1 = Some (Fin 50)) by reflexivity.
  assert (H7 : no_ties (valid (positions values (1 - 2 + 1) 1)) = true) by reflexivity.
  repeat (split; [assumption|]).
  exact (RollingScore_direction_complement values 2 1 _ _ 100 50 H0 H1 H2 H3 H4 H5 H6 H7).
Defined.

(** * The aggregation engine *)

Lemma at_map {A B} (f : A -> B) (s : list A) i : at_ (map f s) i = f <$> at_ s i.
Proof.
  unfold at_. destruct (0 <=? i); [|reflexivity].
  change (map f s) with (f <$> s). apply list_lookup_fmap.
Qed.

Lemma at_is_Some {A} (s : list A) i : 0 <= i < len s -> exists x, at_ s i = Some x.
Proof.
  intros H. rewrite at_lookup by lia.
  apply lookup_lt_is_Some_2. unfold len in H. lia.
Qed.

Lemma list_eq_at {A} (l1 l2 : list A) :
  length l1 = length l2 ->
  (forall k, 0 <= k < len l2 -> at_ l1 k = at_ l2 k) -> l1 = l2.
Proof.
  intros Hlen H. apply list_eq. intros k.
  destruct (decide (k < length l2)%nat) as [Hk|Hk].
  - specialize (H (Z.of_nat k)). rewrite !at_lookup, Nat2Z.id in H by lia.
    apply H. unfold len. lia.
  - rewrite !lookup_ge_None_2; [reflexivity|lia|lia].
Qed.

Lemma len_map {A B} (f : A -> B) (s : list A) : len (map f s) = len s.
Proof. unfold len. rewrite length_map. reflexivity. Qed.

Lemma running_max_snoc l c :
  running_max (l ++ [c])
  = if (c >? running_max l)%F then c else running_max l.
Proof. unfold running_max. rewrite foldl_app. reflexivity. Qed.

(** Calls a function whose total-correctness lemma is [L], keeping the
    equation of the call. *)
Ltac wp_have L x E H :=
  try lazymatch goal with |- wp (mbind _ _) _ => apply wp_bind end;
  let Hex := fresh in
  assert (Hex := L); unfold wp in Hex at 1;
  destruct Hex as (x & E & H); rewrite E; apply wp_ret.

Lemma Compute_spec sqrt pf cfg lang :
  Config_ok cfg ->
  Int.fits (len (models.PriceFrame.Prices pf)) ->
  len (models.PriceFrame.Prices pf) <> 0 ->
  wp (Compute sqrt pf cfg lang)
     (fun results => exists S, Compute_post sqrt pf cfg lang S results).
Proof.
  intros (HmaF & HmaS & Hmom & Hvol & Hrsi) Hfit Hn0.
  unfold Compute. set (prices := models.PriceFrame.Prices pf) in *.
  set (n := len prices) in *.
  destruct (Z.eqb_spec n 0) as [|_]; [contradiction|].
  assert (Hn : 0 <= n) by apply len_nonneg.
  (* Extract series *)
  apply wp_bind.
  apply (wp_for_lt (fun i st =>
    let '(c, v, h, l) := st in
    (length c = length prices /\ length v = length prices /\
     length h = length prices /\ length l = length prices) /\
    forall k, 0 <= k < i ->
      at_ c k = models.Price.Close <$> at_ prices k /\
      at_ v k = models.Price.Volume <$> at_ prices k /\
      at_ h k = models.Price.High <$> at_ prices k /\
      at_ l k = models.Price.Low <$> at_ prices k)).
  { split; [repeat split; subst n; slen|]. intros; lia. }
  { intros i [[[c v] h] l] Hi [(Hc & Hv & Hh & Hl) Hdone]. subst n.
    wp_go. split; [repeat split; slen|].
    intros k Hk. rewrite !at_insert by slen.
    destruct (decide (k = i)) as [->|Hne].
    - rewrite at_lookup by lia. rewrite H. repeat split.
    - apply Hdone. lia. }
  intros [[[closes volumes] highs] lows] [(Hc & Hv & Hh & Hl) Hall].
  replace (Z.max 0 n) with n in Hall by lia.
  assert (closes = map models.Price.Close prices) as ->.
  { apply list_eq_at; [rewrite length_map; exact Hc|]. intros k Hk.
    rewrite len_map in Hk. rewrite at_map. apply Hall. exact Hk. }
  assert (volumes = map models.Price.Volume prices) as ->.
  { apply list_eq_at; [rewrite length_map; exact Hv|]. intros k Hk.
    rewrite len_map in Hk. rewrite at_map. apply Hall. exact Hk. }
  assert (highs = map models.Price.High prices) as ->.
  { apply list_eq_at; [rewrite length_map; exact Hh|]. intros k Hk.
    rewrite len_map in Hk. rewrite at_map. apply Hall. exact Hk. }
  assert (lows = map models.Price.Low prices) as ->.
  { apply list_eq_at; [rewrite length_map; exact Hl|]. intros k Hk.
    rewrite len_map in Hk. rewrite at_map. apply Hall. exact Hk. }
  clear Hall Hc Hv Hh Hl.
  set (closes := map models.Price.Close prices) in *.
  assert (Hlc : len closes = n) by apply len_map.
  assert (Hfc : Int.fits (len closes)) by (rewrite Hlc; exact Hfit).
  fold (norm_window cfg n). set (w := norm_window cfg n).
  assert (Hw : 10 <= w /\ Int.fits w).
  { subst w. unfold norm_window.
    repeat match goal with
           | |- context [?a <? ?b] => destruct (Z.ltb_spec a b)
           end; int_lia. }
  (* 1. Calculate Raw Indicators *)
  wp_have (SMA_wp closes (MAFast cfg) ltac:(lia) ltac:(int_lia) Hfc) maFast EmaFast HlmaFast.
  wp_have (SMA_wp closes (MASlow cfg) ltac:(lia) ltac:(int_lia) Hfc) maSlow EmaSlow HlmaSlow.
  apply wp_bind.
  apply (wp_for_lt (fun i t =>
    length t = length prices /\
    forall k p mf ms, 0 <= k < i -> at_ prices k = Some p ->
      at_ maFast k = Some mf -> at_ maSlow k = Some ms ->
      at_ t k = Some (trend_at (models.Price.Close p) mf ms))).
  { split; [subst n; slen|]. intros; lia. }
  { intros i t Hi [Ht Hdone]. subst n.
    destruct (at_is_Some prices i ltac:(lia)) as [p Hp].
    destruct (at_is_Some maFast i ltac:(slen)) as [mf Hmf].
    destruct (at_is_Some maSlow i ltac:(slen)) as [ms Hms].
    assert (Hc : at_ closes i = Some (models.Price.Close p)).
    { unfold closes. rewrite at_map, Hp. reflexivity. }
    rewrite Hmf, Hms, Hc. simpl.
    assert (Hput : wp (put t i (trend_at (models.Price.Close p) mf ms))
      (fun t' => length t' = length prices /\
         forall k p mf ms, 0 <= k < i + 1 -> at_ prices k = Some p ->
           at_ maFast k = Some mf -> at_ maSlow k = Some ms ->
           at_ t' k = Some (trend_at (models.Price.Close p) mf ms))).
    { wp_go. split; [slen|].
      intros k p' mf' ms' Hk Hp' Hmf' Hms'. rewrite at_insert by slen.
      destruct (decide (k = i)) as [->|Hne]; [|apply Hdone; [lia|assumption..]].
      congruence. }
    unfold trend_at in Hput at 1.
    destruct (mf >? f0)%F, (ms >? f0)%F; exact Hput. }
  intros trendRaw [Hlt Htrend]. replace (Z.max 0 n) with n in Htrend by lia.
  wp_have (Momentum_wp closes (MomWindow cfg) ltac:(lia) ltac:(int_lia) Hfc) momRaw Emom Hlmom.
  wp_have (RSI_wp closes (RSIWindow cfg) ltac:(lia) Hfc) rsiRaw Ersi Hlrsi.
  wp_have (MACD_wp closes Hfc) macdRaw Emacd Hlmacd.
  wp_have (RealizedVol_wp sqrt closes (VolWindow cfg) ltac:(lia) ltac:(int_lia) Hfc) volRaw Evol Hlvol.
  assert (Hlens : forall f : models.Price.t -> float64,
            length (map f prices) = length closes).
  { intros f. unfold closes. rewrite !length_map. reflexivity. }
  wp_have (MFI_wp (map models.Price.High prices) (map models.Price.Low prices)
             closes (map models.Price.Volume prices) 14 ltac:(int_lia) Hfc
             (Hlens _) (Hlens _) (Hlens _)) mfiRaw Emfi Hlmfi.
  wp_have (BollingerPercentB_wp sqrt closes 20 (Fin 2) ltac:(lia) ltac:(int_lia) Hfc) bbRaw Ebb Hlbb.
  (* Drawdown *)
  apply wp_bind.
  apply (wp_for_lt (fun i d =>
    length d = length prices /\
    (forall k p, 0 <= k < i -> at_ prices k = Some p ->
       at_ d k = Some (drawdown_at closes (DDWindow cfg) k (models.Price.Close p))) /\
    (forall k, i <= k < n -> at_ d k = Some f0))).
  { split; [subst n; slen|]. split; [intros; lia|].
    intros k Hk. apply at_replicate. lia. }
  { intros i d Hi (Hd & Hdone & Htodo). subst n.
    destruct (at_is_Some prices i ltac:(lia)) as [p Hp].
    assert (Hc : at_ closes i = Some (models.Price.Close p)).
    { unfold closes. rewrite at_map, Hp. reflexivity. }
    fold (dd_start (DDWindow cfg) i).
    assert (Hs0 : 0 <= dd_start (DDWindow cfg) i).
    { unfold dd_start. destruct (Z.ltb_spec (Int.add (Int.sub i (DDWindow cfg)) 1) 0); lia. }
    set (start := dd_start (DDWindow cfg) i) in *.
    apply wp_bind.
    apply (wp_for_le (fun j m =>
      m = running_max (positions closes start (j - 1)))).
    { rewrite positions_empty by lia. reflexivity. }
    { intros j m Hj ->. wp_go;
        rewrite (positions_snoc closes start (j + 1 - 1) v)
          by (rewrite ?Z.add_simpl_r; first [lia | assumption]);
        rewrite running_max_snoc, Z.add_simpl_r, Heqb; reflexivity. }
    intros m ->.
    assert (Hwin : positions closes start (Z.max start (i + 1) - 1)
                   = positions closes start i).
    { destruct (Z.le_gt_cases start (i + 1)).
      - f_equal. lia.
      - rewrite !positions_empty by lia. reflexivity. }
    rewrite Hwin, Hc. clear Hwin.
    assert (Hstep : forall d',
      length d' = length prices ->
      (forall k, 0 <= k -> k <> i -> at_ d' k = at_ d k) ->
      at_ d' i = Some (drawdown_at closes (DDWindow cfg) i (models.Price.Close p)) ->
      length d' = length prices /\
      (forall k p, 0 <= k < i + 1 -> at_ prices k = Some p ->
         at_ d' k = Some (drawdown_at closes (DDWindow cfg) k (models.Price.Close p))) /\
      (forall k, i + 1 <= k < len prices -> at_ d' k = Some f0)).
    { intros d' Hl' Hsame Hi'. split; [exact Hl'|]. split.
      - intros k p' Hk Hp'. destruct (decide (k = i)) as [->|Hne].
        + rewrite Hp in Hp'. injection Hp' as <-. exact Hi'.
        + rewrite Hsame by lia. apply Hdone; [lia|assumption].
      - intros k Hk. rewrite Hsame by lia. apply Htodo. lia. }
    wp_go; apply Hstep.
    - slen.
    - intros k Hk Hne. rewrite at_insert by slen.
      destruct (decide (k = i)); [contradiction|reflexivity].
    - rewrite at_insert by slen. rewrite decide_True by reflexivity.
      unfold drawdown_at. fold start. rewrite Heqb. reflexivity.
    - exact Hd.
    - reflexivity.
    - rewrite Htodo by lia. unfold drawdown_at. fold start.
      rewrite Heqb. reflexivity. }
  intros ddRaw (Hldd & Hdd & _). replace (Z.max 0 n) with n in Hdd by lia.
  (* 2. Normalize to Scores (0-100) *)
  assert (Hlcl : length closes = length prices) by apply length_map.
  assert (Hrs : forall raw d, length raw = length prices ->
            wp (RollingScore raw w d) (fun out =>
              length out = length raw /\
              forall i, 0 <= i < len raw ->
                at_ out i = Some (Normalize raw w d i))).
  { intros raw d Hl. apply RollingScore_spec; [lia|tauto|].
    unfold len in *. rewrite Hl. exact Hfit. }
  wp_have (Hrs trendRaw 1 ltac:(congruence)) sTrend EsTrend HsTrend.
  wp_have (Hrs momRaw 1 ltac:(congruence)) sMom EsMom HsMom.
  wp_have (Hrs rsiRaw 1 ltac:(congruence)) sRSI EsRSI HsRSI.
  wp_have (Hrs macdRaw 1 ltac:(congruence)) sMACD EsMACD HsMACD.
  wp_have (Hrs ddRaw 1 ltac:(congruence)) sDD EsDD HsDD.
  wp_have (Hrs volRaw (-1) ltac:(congruence)) sVol EsVol HsVol.
  wp_have (Hrs mfiRaw 1 ltac:(congruence)) sMFI EsMFI HsMFI.
  wp_have (Hrs bbRaw 1 ltac:(congruence)) sBB EsBB HsBB.
  clear Hrs.
  (* 3. Aggregate *)
  set (S := {| s_maFast := maFast; s_maSlow := maSlow; s_trend := trendRaw;
               s_mom := momRaw; s_rsi := rsiRaw; s_macd := macdRaw;
               s_vol := volRaw; s_mfi := mfiRaw; s_bb := bbRaw;
               s_dd := ddRaw |}).
  set (bar := fun i p rTrend rMom rRSI rMACD rDD rVol =>
    bar_result p lang
      (models.Parts.mk rTrend rMom rRSI rMACD rDD rVol f0 f0 f0)
      (models.Parts.mk
         (Normalize trendRaw w 1 i) (Normalize momRaw w 1 i)
         (Normalize rsiRaw w 1 i) (Normalize macdRaw w 1 i)
         (Normalize ddRaw w 1 i) (Normalize volRaw w (-1) i)
         f0
         (Normalize mfiRaw w 1 i) (Normalize bbRaw w 1 i))).
  set (Done := fun (r : list models.ScoreResult.t) (k : Z) (p : models.Price.t) =>
    exists rTrend rMom rRSI rMACD rDD rVol,
      at_ trendRaw k = Some rTrend /\ at_ momRaw k = Some rMom /\
      at_ rsiRaw k = Some rRSI /\ at_ macdRaw k = Some rMACD /\
      at_ ddRaw k = Some rDD /\ at_ volRaw k = Some rVol /\
      at_ r k = Some (bar k p rTrend rMom rRSI rMACD rDD rVol)).
  apply wp_bind.
  apply (wp_for_lt (fun i r =>
    length r = length prices /\
    forall k p, 0 <= k < i -> at_ prices k = Some p -> Done r k p)).
  { split; [subst n; slen|]. intros; lia. }
  { intros i r Hi [Hr Hdone]. subst n.
    destruct (at_is_Some prices i ltac:(lia)) as [p Hp].
    destruct (at_is_Some trendRaw i ltac:(slen)) as [rTrend HrT].
    destruct (at_is_Some momRaw i ltac:(slen)) as [rMom HrM].
    destruct (at_is_Some rsiRaw i ltac:(slen)) as [rRSI HrR].
    destruct (at_is_Some macdRaw i ltac:(slen)) as [rMACD HrC].
    destruct (at_is_Some ddRaw i ltac:(slen)) as [rDD HrD].
    destruct (at_is_Some volRaw i ltac:(slen)) as [rVol HrV].
    rewrite Hp, HrT, HrM, HrR, HrC, HrD, HrV.
    rewrite (proj2 HsTrend i), (proj2 HsMom i), (proj2 HsRSI i),
      (proj2 HsMACD i), (proj2 HsDD i), (proj2 HsVol i), (proj2 HsMFI i),
      (proj2 HsBB i) by slen.
    do 15 (apply wp_bind; apply wp_ret).
    assert (Hput : wp (put r i (bar i p rTrend rMom rRSI rMACD rDD rVol))
      (fun r' => length r' = length prices /\
         forall k p, 0 <= k < i + 1 -> at_ prices k = Some p -> Done r' k p)).
    { apply wp_put; [slen|]. split; [slen|].
      intros k p' Hk Hp'. unfold Done. rewrite at_insert by slen.
      destruct (decide (k = i)) as [->|Hne].
      - rewrite Hp in Hp'. injection Hp' as <-.
        exists rTrend, rMom, rRSI, rMACD, rDD, rVol.
        repeat (split; [assumption|]). reflexivity.
      - apply Hdone; [lia|assumption]. }
    unfold bar, bar_result, keyed in Hput. cbn [foldl fst snd] in Hput.
    destruct (add "bb_pct_b" _ _) as [wSum scoreSum].
    exact Hput. }
  intros results [Hlr Hres]. replace (Z.max 0 n) with n in Hres by lia.
  apply wp_ret. exists S. unfold Compute_post. fold prices closes.
  repeat (split; [assumption|]).
  split.
  { intros i p mf ms Hp. apply Htrend; [|exact Hp].
    apply at_Some_range in Hp. exact Hp. }
  split.
  { intros i p Hp. apply Hdd; [|exact Hp]. apply at_Some_range in Hp. exact Hp. }
  split; [exact Hlr|].
  intros i p Hp. apply Hres; [|exact Hp]. apply at_Some_range in Hp. exact Hp.
Qed.

Lemma Normalize_nan_or_fin s w d i : nan_or_fin (Normalize s w d i).
Proof.
  unfold Normalize, nan_or_fin.
  destruct (at_ s i); [|left; reflexivity].
  destruct (_ || _); [left; reflexivity|right; eexists; reflexivity].
Qed.

Lemma add_nan k acc : add k NaN acc = acc.
Proof. destruct acc. reflexivity. Qed.

Lemma add_fin k q W S wq :
  weight k = Fin wq ->
  add k (Fin q) (Fin W, Fin S)
  = (Fin (Qred (W + wq)), Fin (Qred (S + Qred (q * wq)))).
Proof. intros H. unfold add. simpl. rewrite H. reflexivity. Qed.

Lemma add_fold l :
  Forall (fun kv => weighted_key kv.1 /\ nan_or_fin kv.2) l ->
  forall W S, exists W' S',
    foldl (fun acc kv => add kv.1 kv.2 acc) (Fin W, Fin S) l = (Fin W', Fin S') /\
    (W' == W + weight_sum (filter (fun kv => is_nan kv.2 = false) l))%Q /\
    (S' == S + weighted_sum (filter (fun kv => is_nan kv.2 = false) l))%Q.
Proof.
  induction 1 as [|[k s] l [(wq & Hwq & Hpos) Hs] _ IH]; intros W S.
  - exists W, S. simpl. split; [reflexivity|]. split; ring.
  - cbn [foldl fst snd]. rewrite filter_cons. simpl in Hwq, Hs.
    destruct Hs as [-> | [q ->]]; cbn [is_nan snd].
    + rewrite add_nan, decide_False by discriminate. apply IH.
    + rewrite (add_fin _ _ _ _ _ Hwq), decide_True by reflexivity.
      destruct (IH (Qred (W + wq)) (Qred (S + Qred (q * wq)))) as (W' & S' & E & HW & HS).
      exists W', S'. split; [exact E|].
      simpl weight_sum. simpl weighted_sum. rewrite Hwq. simpl to_Q.
      rewrite HW, HS, !Qred_correct. split; ring.
Qed.

Lemma weight_sum_pos l :
  Forall (fun kv : string * float64 => weighted_key kv.1) l -> l <> [] ->
  (0 < weight_sum l)%Q.
Proof.
  induction 1 as [|[k s] l (wq & Hwq & Hpos) Hl IH]; intros Hne; [contradiction|].
  simpl in Hwq. simpl. rewrite Hwq. simpl.
  destruct l as [|kv l'].
  - simpl. lra.
  - assert (0 < weight_sum (kv :: l'))%Q by (apply IH; discriminate). lra.
Qed.

Lemma keyed_weighted v : Forall (fun kv => weighted_key kv.1) (keyed v).
Proof.
  unfold keyed. repeat constructor; simpl;
    (eexists; split; [vm_compute; reflexivity|reflexivity]).
Qed.

Lemma flt_f0_Fin q : (Fin q >? f0)%F = true <-> (0 < q)%Q.
Proof. unfold fgt, f0. apply flt_Fin. Qed.

Lemma bar_result_score p lang raw v :
  Forall (fun kv : string * float64 => nan_or_fin kv.2) (keyed v) ->
  models.ScoreResult.Score (bar_result p lang raw v) = aggregate v.
Proof.
  intros Hv. unfold bar_result, aggregate, defined_scores.
  assert (Hall : Forall (fun kv => weighted_key kv.1 /\ nan_or_fin kv.2) (keyed v)).
  { apply Forall_and. split; [apply keyed_weighted|exact Hv]. }
  destruct (add_fold _ Hall 0%Q 0%Q) as (W & S & E & HW & HS).
  change (Fin 0, Fin 0) with (f0, f0) in E. rewrite E.
  set (l := filter (fun kv => is_nan kv.2 = false) (keyed v)) in *.
  destruct l as [|kv l'] eqn:El.
  - simpl in HW. destruct (Fin W >? f0)%F eqn:G; [|reflexivity].
    apply flt_f0_Fin in G. lra.
  - assert (Hpos : (0 < weight_sum (kv :: l'))%Q).
    { apply weight_sum_pos; [|discriminate]. rewrite <- El. subst l.
      apply Forall_forall. intros x [_ Hx]%list_elem_of_filter.
      revert x Hx. apply Forall_forall, keyed_weighted. }
    assert (HWpos : (0 < W)%Q) by lra.
    apply flt_f0_Fin in HWpos as G. rewrite G. simpl.
    destruct (Qeq_bool W 0) eqn:Z0.
    { apply Qeq_bool_iff in Z0. lra. }
    apply real_eq. rewrite HW, HS, !Qplus_0_l. reflexivity.
Qed.

Lemma bar_result_fields p lang raw v :
  models.ScoreResult.Values (bar_result p lang raw v) = v /\
  models.ScoreResult.Raw (bar_result p lang raw v) = raw /\
  models.ScoreResult.Price (bar_result p lang raw v) = models.Price.Close p /\
  models.ScoreResult.Date (bar_result p lang raw v) = models.Price.Date p.
Proof.
  unfold bar_result. destruct (foldl _ _ _) as [W S].
  destruct (Fin 0 <? W)%F eqn:E; unfold fgt, f0; rewrite E; repeat split.
Qed.

(** One record of [Compute]'s output, with the series it was built from. *)
Lemma Compute_bar sqrt pf cfg lang results i r :
  Config_ok cfg -> Int.fits (len (models.PriceFrame.Prices pf)) ->
  Compute sqrt pf cfg lang = Some results -> at_ results i = Some r ->
  exists S p rTrend rMom rRSI rMACD rDD rVol,
    Compute_post sqrt pf cfg lang S results /\
    at_ (models.PriceFrame.Prices pf) i = Some p /\
    at_ (s_trend S) i = Some rTrend /\ at_ (s_mom S) i = Some rMom /\
    at_ (s_rsi S) i = Some rRSI /\ at_ (s_macd S) i = Some rMACD /\
    at_ (s_dd S) i = Some rDD /\ at_ (s_vol S) i = Some rVol /\
    let w := norm_window cfg (len (models.PriceFrame.Prices pf)) in
    r = bar_result p lang
          (models.Parts.mk rTrend rMom rRSI rMACD rDD rVol f0 f0 f0)
          (models.Parts.mk
             (Normalize (s_trend S) w 1 i) (Normalize (s_mom S) w 1 i)
             (Normalize (s_rsi S) w 1 i) (Normalize (s_macd S) w 1 i)
             (Normalize (s_dd S) w 1 i) (Normalize (s_vol S) w (-1) i)
             f0
             (Normalize (s_mfi S) w 1 i) (Normalize (s_bb S) w 1 i)).
Proof.
  intros Hc Hf E Hr.
  destruct (decide (len (models.PriceFrame.Prices pf) = 0)) as [H0|H0].
  { unfold Compute in E. rewrite H0 in E. simpl in E. injection E as <-.
    apply at_Some_range in Hr. unfold len in Hr. simpl in Hr. lia. }
  pose proof (wp_elim _ _ _ (Compute_spec sqrt pf cfg lang Hc Hf H0) E)
    as [S HS].
  pose proof HS as (_ & _ & _ & _ & _ & _ & _ & _ & _ & _ & Hlen & Hbars).
  pose proof (at_Some_range _ _ _ Hr) as Hi.
  destruct (at_is_Some (models.PriceFrame.Prices pf) i) as [p Hp].
  { unfold len in *. lia. }
  destruct (Hbars i p Hp) as (rT & rM & rR & rC & rD & rV & H1 & H2 & H3 & H4 & H5 & H6 & H7).
  exists S, p, rT, rM, rR, rC, rD, rV.
  repeat (split; [assumption|]). simpl. congruence.
Qed.

Lemma DefaultConfig_ok : Config_ok DefaultConfig.
Proof. unfold Config_ok, DefaultConfig, Int.max. simpl. lia. Qed.


(** The bounds on the windows below are needed: a window of zero makes
    [SMA] store at index [-1], and a negative one makes [Momentum] and
    [RollingScore] fail as well. *)
Remark nonpositive_window_panics :
  SMA [] 0 = None /\ SMA [Fin 1] 0 = None /\
  Momentum [Fin 1] (-1) = None /\ RollingScore [Fin 1] (-1) 1 = None.
Proof. repeat split; reflexivity. Qed.

(** C8. Every output series is index-aligned with its input: for a window
    in range each indicator function returns, without a run-time panic, a
    series as long as its input (the empty and the one-element series
    included), and [Compute] returns one record per bar, the empty
    sequence for an empty frame. *)
Theorem outputs_index_aligned (sqrt : float64 -> float64) :
  (forall values window,
     Int.fits (len values) -> 0 < window <= Int.max ->
     exists out, SMA values window = Some out /\ length out = length values) /\
  (forall values span,
     Int.fits (len values) ->
     exists out, EMA values span = Some out /\ length out = length values) /\
  (forall values window,
     Int.fits (len values) -> 0 <= window < Int.max ->
     exists out, RSI values window = Some out /\ length out = length values) /\
  (forall values,
     Int.fits (len values) ->
     exists out, MACD values = Some out /\ length out = length values) /\
  (forall high low close volume window,
     Int.fits (len close) -> 0 <= window < Int.max ->
     length high = length close -> length low = length close ->
     length volume = length close ->
     exists out, MFI high low close volume window = Some out /\
                 length out = length close) /\
  (forall close window numStdDev,
     Int.fits (len close) -> 0 < window <= Int.max ->
     exists out, BollingerPercentB sqrt close window numStdDev = Some out /\
                 length out = length close) /\
  (forall values window,
     Int.fits (len values) -> 0 <= window <= Int.max ->
     exists out, RealizedVol sqrt values window = Some out /\
                 length out = length values) /\
  (forall values window,
     Int.fits (len values) -> 0 <= window <= Int.max ->
     exists out, Momentum values window = Some out /\
                 length out = length values) /\
  (forall values window direction,
     Int.fits (len values) -> 0 <= window <= Int.max ->
     exists out, RollingScore values window direction = Some out /\
                 length out = length values) /\
  (forall pf cfg lang,
     models.PriceFrame.Prices pf = [] -> Compute sqrt pf cfg lang = Some []) /\
  (forall pf cfg lang,
     Int.fits (len (models.PriceFrame.Prices pf)) -> Config_ok cfg ->
     exists results, Compute sqrt pf cfg lang = Some results /\
       length results = length (models.PriceFrame.Prices pf)).
Proof.
  repeat split.
  - intros values window Hf Hw. apply SMA_wp; [lia|int_lia|exact Hf].
  - intros values span Hf. apply EMA_wp. exact Hf.
  - intros values window Hf Hw. apply RSI_wp; [lia|exact Hf].
  - intros values Hf. apply MACD_wp. exact Hf.
  - intros high low close volume window Hf Hw Hh Hl Hv.
    apply MFI_wp; assumption.
  - intros close window numStdDev Hf Hw.
    apply BollingerPercentB_wp; [lia|int_lia|exact Hf].
  - intros values window Hf Hw. apply RealizedVol_wp; [lia|int_lia|exact Hf].
  - intros values window Hf Hw. apply Momentum_wp; [lia|int_lia|exact Hf].
  - intros values window direction Hf Hw.
    destruct (RollingScore_spec values window direction) as (out & E & Hl & _);
      [lia|int_lia|exact Hf|].
    exists out. auto.
  - intros pf cfg lang Hp. unfold Compute. rewrite Hp. reflexivity.
  - intros pf cfg lang Hf Hc.
    destruct (decide (len (models.PriceFrame.Prices pf) = 0)) as [H0|H0].
    + exists []. unfold Compute. rewrite H0. split; [reflexivity|].
      unfold len in H0. simpl. lia.
    + destruct (Compute_spec sqrt pf cfg lang Hc Hf H0)
        as (results & E & S & Hpost).
      exists results. split; [exact E|]. apply Hpost.
Qed.


Lemma outputs_index_aligned_example :
  (Int.fits (len [Fin 11]) /\ 0 < 1 <= Int.max /\
   exists out, SMA [Fin 11] 1 = Some out /\ length out = length [Fin 11]) /\
  (Int.fits (len (@nil float64)) /\ 0 < 3 <= Int.max /\
   exists out, SMA [] 3 = Some out /\ length out = length (@nil float64)) /\
  (Int.fits (len [bar1]) /\ Config_ok DefaultConfig /\
   exists results,
     Compute sqrt12 (models.PriceFrame.mk "X" "1d" [bar1]) DefaultConfig "en"
       = Some results /\
     length results = length [bar1]).
Proof.
  pose proof (outputs_index_aligned sqrt12) as (Hsma & _ & _ & _ & _ & _ & _ & _ & _ & _ & Hcompute).
  assert (F1 : Int.fits (len [Fin 11])) by (vm_compute; split; discriminate).
  assert (F0 : Int.fits (len (@nil float64))) by (vm_compute; split; discriminate).
  assert (Fb : Int.fits (len [bar1])) by (vm_compute; split; discriminate).
  assert (W1 : 0 < 1 <= Int.max) by (vm_compute; split; [reflexivity|discriminate]).
  assert (W3 : 0 < 3 <= Int.max) by (vm_compute; split; [reflexivity|discriminate]).
  assert (Cok : Config_ok DefaultConfig).
  { unfold Config_ok, DefaultConfig, Int.max. simpl. lia. }
  split; [|split].
  - split; [exact F1|]. split; [exact W1|]. exact (Hsma [Fin 11] 1 F1 W1).
  - split; [exact F0|]. split; [exact W3|]. exact (Hsma [] 3 F0 W3).
  - split; [exact Fb|]. split; [exact Cok|].
    exact (Hcompute (models.PriceFrame.mk "X" "1d" [bar1]) DefaultConfig "en" Fb Cok).
Defined.

(** C1. At every bar of [Compute]'s output the aggregate score is the sum
    of [subScore * weight] over the defined sub-scores divided by the sum
    of the weights of those sub-scores; it is undefined exactly when no
    sub-score is defined.  Eight sub-scores equal to 60 give 60, and a
    single defined sub-score of 80 gives 80. *)
Theorem aggregate_is_weighted_mean sqrt pf cfg lang results i r :
  Config_ok cfg -> Int.fits (len (models.PriceFrame.Prices pf)) ->
  Compute sqrt pf cfg lang = Some results -> at_ results i = Some r ->
  let v := models.ScoreResult.Values r in
  let score := models.ScoreResult.Score r in
  score = match defined_scores v with
          | [] => NaN
          | l => real (weighted_sum l / weight_sum l)
          end /\
  (score = NaN <-> defined_scores v = []) /\
  (map snd (keyed v) = replicate 8 (Fin 60) -> score = Fin 60) /\
  (forall j, (j < 8)%nat ->
     map snd (keyed v) = <[j := Fin 80]> (replicate 8 NaN) -> score = Fin 80).
Proof.
  intros Hc Hf E Hr v score.
  destruct (Compute_bar sqrt pf cfg lang results i r Hc Hf E Hr)
    as (S & p & rT & rM & rR & rC & rD & rV & _ & _ & _ & _ & _ & _ & _ & _ & Hbar).
  simpl in Hbar.
  assert (Hscore : score = aggregate v).
  { subst score v. rewrite Hbar.
    rewrite (proj1 (bar_result_fields _ _ _ _)).
    apply bar_result_score. unfold keyed. simpl.
    repeat (constructor; [apply Normalize_nan_or_fin|]). constructor. }
  clearbody score v. clear Hbar. unfold aggregate in Hscore.
  split; [exact Hscore|]. split; [|split].
  - rewrite Hscore. destruct (defined_scores v); split; intros H;
      first [reflexivity | discriminate].
  - intros H. rewrite Hscore. destruct v as [vT vM vR vC vD vV vS vF vB].
    simpl in H. injection H as -> -> -> -> -> -> -> ->. vm_compute. reflexivity.
  - intros j Hj H. rewrite Hscore. destruct v as [vT vM vR vC vD vV vS vF vB].
    do 8 (destruct j as [|j];
          [simpl in H; injection H as -> -> -> -> -> -> -> ->;
           vm_compute; reflexivity|]).
    lia.
Qed.

Lemma aggregate_is_weighted_mean_example :
  Config_ok DefaultConfig /\
  Int.fits (len (models.PriceFrame.Prices ten_bars)) /\
  Compute sqrt12 ten_bars DefaultConfig "en" = Some ten_bars_results /\
  at_ ten_bars_results 9 = Some ten_bars_last /\
  let v := models.ScoreResult.Values ten_bars_last in
  let score := models.ScoreResult.Score ten_bars_last in
  score = match defined_scores v with
          | [] => NaN
          | l => real (weighted_sum l / weight_sum l)
          end /\
  (score = NaN <-> defined_scores v = []) /\
  (map snd (keyed v) = replicate 8 (Fin 60) -> score = Fin 60) /\
  (forall j, (j < 8)%nat ->
     map snd (keyed v) = <[j := Fin 80]> (replicate 8 NaN) -> score = Fin 80).
Proof.
  assert (Cok : Config_ok DefaultConfig).
  { unfold Config_ok, DefaultConfig, Int.max. simpl. lia. }
  assert (Hf : Int.fits (len (models.PriceFrame.Prices ten_bars))).
  { vm_compute. split; discriminate. }
  assert (E : Compute sqrt12 ten_bars DefaultConfig "en" = Some ten_bars_results).
  { vm_compute. reflexivity. }
  assert (Hr : at_ ten_bars_results 9 = Some ten_bars_last).
  { vm_compute. reflexivity. }
  split; [exact Cok|]. split; [exact Hf|]. split; [exact E|]. split; [exact Hr|].
  exact (aggregate_is_weighted_mean sqrt12 ten_bars DefaultConfig "en"
           ten_bars_results 9 ten_bars_last Cok Hf E Hr).
Defined.

Lemma trend_term_eq c ma :
  exists q,
    (if (ma >? f0)%F then (Fin c / ma - f1)%F else f0) = Fin q /\
    (q == trend_term c ma)%Q.
Proof.
  destruct ma as [| | |m]; simpl.
  - exists 0%Q. split; reflexivity.
  - exists 0%Q. split; reflexivity.
  - eexists. split; [reflexivity|]. rewrite Qred_correct. reflexivity.
  - destruct (Fin m >? f0)%F eqn:G.
    + apply flt_f0_Fin in G. destruct (Qlt_le_dec 0 m) as [_|Hle]; [|lra].
      destruct (Qeq_bool m 0) eqn:Z0.
      { apply Qeq_bool_iff in Z0. lra. }
      eexists. split; [reflexivity|]. rewrite !Qred_correct. reflexivity.
    + destruct (Qlt_le_dec 0 m) as [Hlt|_].
      { apply flt_f0_Fin in Hlt. congruence. }
      exists 0%Q. split; reflexivity.
Qed.

Lemma trend_at_eq c mf ms :
  trend_at (Fin c) mf ms
  = real ((1 # 2) * trend_term c mf + (1 # 2) * trend_term c ms).
Proof.
  unfold trend_at.
  destruct (trend_term_eq c mf) as (q1 & -> & E1).
  destruct (trend_term_eq c ms) as (q2 & -> & E2).
  unfold fmul, fadd, real at 1. apply real_eq.
  rewrite !Qred_correct, E1, E2. reflexivity.
Qed.

(** C4 (as the code has it). The trend value of a bar is defined for
    every finite close: it is half the sum of the two terms
    [close / MA - 1], where a term is zero when its moving average is
    undefined or not positive. *)
Theorem trend_strength_of_bar sqrt pf cfg lang results i r c maFast maSlow mf ms :
  Config_ok cfg -> Int.fits (len (models.PriceFrame.Prices pf)) ->
  Compute sqrt pf cfg lang = Some results -> at_ results i = Some r ->
  models.ScoreResult.Price r = Fin c ->
  SMA (map models.Price.Close (models.PriceFrame.Prices pf)) (MAFast cfg)
    = Some maFast ->
  SMA (map models.Price.Close (models.PriceFrame.Prices pf)) (MASlow cfg)
    = Some maSlow ->
  at_ maFast i = Some mf -> at_ maSlow i = Some ms ->
  models.Parts.Trend (models.ScoreResult.Raw r)
  = real ((1 # 2) * trend_term c mf + (1 # 2) * trend_term c ms).
Proof.
  intros Hc Hf E Hr Hprice EF ES Hmf Hms.
  destruct (Compute_bar sqrt pf cfg lang results i r Hc Hf E Hr)
    as (S & p & rT & rM & rR & rC & rD & rV & Hpost & Hp & HrT & _ & _ & _ & _ & _ & Hbar).
  simpl in Hbar.
  destruct Hpost as (EF' & ES' & _ & _ & _ & _ & _ & _ & Htrend & _).
  rewrite EF in EF'. rewrite ES in ES'.
  injection EF' as ->. injection ES' as ->.
  rewrite (Htrend i p mf ms Hp Hmf Hms) in HrT. injection HrT as <-.
  subst r.
  destruct (bar_result_fields p lang
    (models.Parts.mk (trend_at (models.Price.Close p) mf ms) rM rR rC rD rV f0 f0 f0)
    (models.Parts.mk
       (Normalize (s_trend S) (norm_window cfg (len (models.PriceFrame.Prices pf))) 1 i)
       (Normalize (s_mom S) (norm_window cfg (len (models.PriceFrame.Prices pf))) 1 i)
       (Normalize (s_rsi S) (norm_window cfg (len (models.PriceFrame.Prices pf))) 1 i)
       (Normalize (s_macd S) (norm_window cfg (len (models.PriceFrame.Prices pf))) 1 i)
       (Normalize (s_dd S) (norm_window cfg (len (models.PriceFrame.Prices pf))) 1 i)
       (Normalize (s_vol S) (norm_window cfg (len (models.PriceFrame.Prices pf))) (-1) i)
       f0
       (Normalize (s_mfi S) (norm_window cfg (len (models.PriceFrame.Prices pf))) 1 i)
       (Normalize (s_bb S) (norm_window cfg (len (models.PriceFrame.Prices pf))) 1 i)))
    as (_ & -> & Hpr & _).
  rewrite Hpr in Hprice. simpl. rewrite Hprice. apply trend_at_eq.
Qed.

(** C4 as stated fails: at the last of twenty bars the slow moving average
    is undefined, and the trend is defined all the same. *)
Lemma trend_defined_without_slow_average :
  let closes := map models.Price.Close (models.PriceFrame.Prices twenty_bars) in
  SMA closes (MASlow DefaultConfig) = Some twenty_bars_slow /\
  at_ twenty_bars_slow 19 = Some NaN /\
  Compute sqrt12 twenty_bars DefaultConfig "en" = Some twenty_bars_results /\
  at_ twenty_bars_results 19 = Some twenty_bars_last /\
  models.Parts.Trend (models.ScoreResult.Raw twenty_bars_last) = Fin (133 # 654) /\
  is_nan (models.Parts.Trend (models.ScoreResult.Raw twenty_bars_last)) = false.
Proof. repeat split; vm_compute; reflexivity. Qed.

Lemma trend_strength_of_bar_example :
  let closes := map models.Price.Close (models.PriceFrame.Prices twenty_bars) in
  Config_ok DefaultConfig /\
  Int.fits (len (models.PriceFrame.Prices twenty_bars)) /\
  Compute sqrt12 twenty_bars DefaultConfig "en" = Some twenty_bars_results /\
  at_ twenty_bars_results 19 = Some twenty_bars_last /\
  models.ScoreResult.Price twenty_bars_last = Fin 23 /\
  SMA closes (MAFast DefaultConfig) = Some twenty_bars_fast /\
  SMA closes (MASlow DefaultConfig) = Some twenty_bars_slow /\
  at_ twenty_bars_fast 19 = Some (Fin (327 # 20)) /\
  at_ twenty_bars_slow 19 = Some NaN /\
  models.Parts.Trend (models.ScoreResult.Raw twenty_bars_last)
  = real ((1 # 2) * trend_term 23 (Fin (327 # 20)) + (1 # 2) * trend_term 23 NaN).
Proof.
  intros closes.
  assert (H1 := DefaultConfig_ok).
  assert (H2 : Int.fits (len (models.PriceFrame.Prices twenty_bars))).
  { apply fits_small. vm_compute. split; discriminate. }
  assert (H3 : Compute sqrt12 twenty_bars DefaultConfig "en" = Some twenty_bars_results)
    by (vm_compute; reflexivity).
  assert (H4 : at_ twenty_bars_results 19 = Some twenty_bars_last)
    by (vm_compute; reflexivity).
  assert (H5 : models.ScoreResult.Price twenty_bars_last = Fin 23) by reflexivity.
  assert (H6 : SMA closes (MAFast DefaultConfig) = Some twenty_bars_fast)
    by (vm_compute; reflexivity).
  assert (H7 : SMA closes (MASlow DefaultConfig) = Some twenty_bars_slow)
    by (vm_compute; reflexivity).
  assert (H8 : at_ twenty_bars_fast 19 = Some (Fin (327 # 20))) by reflexivity.
  assert (H9 : at_ twenty_bars_slow 19 = Some NaN) by reflexivity.
  repeat (split; [assumption|]).
  exact (trend_strength_of_bar sqrt12 twenty_bars DefaultConfig "en"
           twenty_bars_results 19 twenty_bars_last 23
           twenty_bars_fast twenty_bars_slow (Fin (327 # 20)) NaN
           H1 H2 H3 H4 H5 H6 H7 H8 H9).
Defined.


Lemma running_max_spec l :
  Forall nonneg l ->
  exists mx, running_max l = Fin mx /\ (0 <= mx)%Q /\
    (forall c, Fin c ∈ l -> (c <= mx)%Q) /\
    (l <> [] -> exists c, Fin c ∈ l /\ (c == mx)%Q).
Proof.
  induction l as [|x l IH] using rev_ind; intros Hl.
  - exists 0%Q. repeat split; try lra.
    + intros c Hc. apply elem_of_nil in Hc. contradiction.
    + intros H. contradiction.
  - apply Forall_app in Hl as [Hl Hx]. rewrite Forall_singleton in Hx.
    destruct Hx as (c & -> & Hc).
    destruct (IH Hl) as (mx & E & Hmx & Hub & Hwit).
    rewrite running_max_snoc, E.
    destruct (Fin c >? Fin mx)%F eqn:G.
    + apply flt_Fin in G. exists c. repeat split; try lra.
      * intros c' [Hc'|Hc']%elem_of_app.
        -- apply Hub in Hc'. lra.
        -- apply list_elem_of_singleton in Hc'. injection Hc' as ->. lra.
      * intros _. exists c. split; [|reflexivity].
        apply elem_of_app. right. apply list_elem_of_singleton. reflexivity.
    + assert (Hle : (c <= mx)%Q).
      { destruct (Qlt_le_dec mx c) as [Hlt|Hle]; [|exact Hle].
        apply flt_Fin in Hlt. unfold fgt in G. congruence. }
      exists mx. repeat split; try lra.
      * intros c' [Hc'|Hc']%elem_of_app.
        -- apply Hub. exact Hc'.
        -- apply list_elem_of_singleton in Hc'. injection Hc' as ->. exact Hle.
      * intros _. destruct l as [|y l'].
        -- simpl in E. injection E as <-. exists c. split.
           ++ apply elem_of_app. right. apply list_elem_of_singleton. reflexivity.
           ++ lra.
        -- destruct Hwit as (c' & Hc' & Ec'); [discriminate|].
           exists c'. split; [|exact Ec']. apply elem_of_app. left. exact Hc'.
Qed.

Lemma positions_Forall {A} (P : A -> Prop) (s : list A) lo hi :
  Forall P s -> Forall P (positions s lo hi).
Proof. intros H. unfold positions. apply Forall_take, Forall_drop, H. Qed.

Lemma dd_start_eq ddWindow i :
  0 < ddWindow <= Int.max -> 0 <= i <= Int.max ->
  dd_start ddWindow i = Z.max 0 (i - ddWindow + 1).
Proof.
  intros Hd Hi. unfold dd_start. int_simp.
  destruct (Z.ltb_spec (i - ddWindow + 1) 0); lia.
Qed.

(** C7. For non-negative closes the drawdown of every bar is defined and
    at most zero; it is [close / runningMax - 1] whenever the running
    maximum of the trailing window, which starts no earlier than the
    first bar and ends at the current one, is positive. *)
Theorem drawdown_nonpositive sqrt pf cfg lang results i r :
  Config_ok cfg -> Int.fits (len (models.PriceFrame.Prices pf)) ->
  0 < DDWindow cfg <= Int.max ->
  Forall (fun p => nonneg (models.Price.Close p)) (models.PriceFrame.Prices pf) ->
  Compute sqrt pf cfg lang = Some results -> at_ results i = Some r ->
  let closes := map models.Price.Close (models.PriceFrame.Prices pf) in
  let window := positions closes (Z.max 0 (i - DDWindow cfg + 1)) i in
  exists q c mx,
    models.Parts.Drawdown (models.ScoreResult.Raw r) = Fin q /\
    models.ScoreResult.Price r = Fin c /\
    (q <= 0)%Q /\
    (forall x, Fin x ∈ window -> (x <= mx)%Q) /\
    (exists x, Fin x ∈ window /\ (x == mx)%Q) /\
    (0 < mx -> q == c / mx - 1)%Q.
Proof.
  intros Hc Hf Hdd Hnn E Hr closes window.
  destruct (Compute_bar sqrt pf cfg lang results i r Hc Hf E Hr)
    as (S & p & rT & rM & rR & rC & rD & rV & Hpost & Hp & _ & _ & _ & _ & HrD & _ & Hbar).
  simpl in Hbar.
  destruct Hpost as (_ & _ & _ & _ & _ & _ & _ & _ & _ & Hdraw & _).
  rewrite (Hdraw i p Hp) in HrD. injection HrD as <-. fold closes in Hbar.
  pose proof (at_Some_range _ _ _ Hp) as Hi.
  unfold drawdown_at in Hbar.
  rewrite dd_start_eq in Hbar by int_lia. fold window in Hbar.
  assert (Hcl : Forall nonneg closes).
  { unfold closes. apply Forall_forall. intros x Hx.
    apply list_elem_of_fmap in Hx as (p' & -> & Hp').
    revert p' Hp'. apply Forall_forall. exact Hnn. }
  destruct (running_max_spec window (positions_Forall _ _ _ _ Hcl))
    as (mx & Emax & Hmx & Hub & Hwit).
  assert (Hpc : nonneg (models.Price.Close p)).
  { pose proof Hp as Hin. rewrite at_lookup in Hin by lia.
    apply list_elem_of_lookup_2 in Hin.
    exact (proj1 (Forall_forall _ _) Hnn p Hin). }
  destruct Hpc as (c & Ec & Hc0).
  assert (Hlast : window = positions closes (Z.max 0 (i - DDWindow cfg + 1)) (i - 1)
                           ++ [Fin c]).
  { unfold window. apply positions_snoc; [lia|].
    rewrite <- at_lookup by lia. unfold closes. rewrite at_map, Hp, <- Ec.
    reflexivity. }
  assert (Hcmx : (c <= mx)%Q).
  { apply Hub. rewrite Hlast. apply elem_of_app. right.
    apply list_elem_of_singleton. reflexivity. }
  assert (Hne : window <> []).
  { rewrite Hlast. intros H. apply app_eq_nil in H as [_ H]. discriminate. }
  rewrite Emax, Ec in Hbar. subst r.
  destruct (bar_result_fields p lang
    (models.Parts.mk rT rM rR rC
       (if (Fin mx >? f0)%F then (Fin c / Fin mx - f1)%F else f0) rV f0 f0 f0)
    (models.Parts.mk
       (Normalize (s_trend S) (norm_window cfg (len (models.PriceFrame.Prices pf))) 1 i)
       (Normalize (s_mom S) (norm_window cfg (len (models.PriceFrame.Prices pf))) 1 i)
       (Normalize (s_rsi S) (norm_window cfg (len (models.PriceFrame.Prices pf))) 1 i)
       (Normalize (s_macd S) (norm_window cfg (len (models.PriceFrame.Prices pf))) 1 i)
       (Normalize (s_dd S) (norm_window cfg (len (models.PriceFrame.Prices pf))) 1 i)
       (Normalize (s_vol S) (norm_window cfg (len (models.PriceFrame.Prices pf))) (-1) i)
       f0
       (Normalize (s_mfi S) (norm_window cfg (len (models.PriceFrame.Prices pf))) 1 i)
       (Normalize (s_bb S) (norm_window cfg (len (models.PriceFrame.Prices pf))) 1 i)))
    as (_ & -> & -> & _).
  cbn [models.Parts.Drawdown]. rewrite Ec.
  destruct (Fin mx >? f0)%F eqn:G.
  - apply flt_f0_Fin in G.
    unfold fdiv. destruct (Qeq_bool mx 0) eqn:Z0.
    { apply Qeq_bool_iff in Z0. lra. }
    eexists _, c, mx. split; [reflexivity|]. split; [reflexivity|].
    rewrite !Qred_correct.
    assert (Hq : (c / mx <= 1)%Q).
    { apply Qle_shift_div_r; lra. }
    split; [lra|]. split; [exact Hub|]. split; [exact (Hwit Hne)|].
    intros _. reflexivity.
  - exists 0%Q, c, mx. split; [reflexivity|]. split; [reflexivity|].
    split; [lra|]. split; [exact Hub|]. split; [exact (Hwit Hne)|].
    intros Hpos. apply flt_f0_Fin in Hpos. congruence.
Qed.

Lemma ten_bars_nonneg :
  Forall (fun p => nonneg (models.Price.Close p)) (models.PriceFrame.Prices ten_bars).
Proof.
  repeat (constructor; [eexists; split; [reflexivity|discriminate]|]).
  constructor.
Qed.

Lemma drawdown_nonpositive_example :
  let closes := map models.Price.Close (models.PriceFrame.Prices ten_bars) in
  let window := positions closes (Z.max 0 (9 - DDWindow DefaultConfig + 1)) 9 in
  Config_ok DefaultConfig /\
  Int.fits (len (models.PriceFrame.Prices ten_bars)) /\
  0 < DDWindow DefaultConfig <= Int.max /\
  Forall (fun p => nonneg (models.Price.Close p)) (models.PriceFrame.Prices ten_bars) /\
  Compute sqrt12 ten_bars DefaultConfig "en" = Some ten_bars_results /\
  at_ ten_bars_results 9 = Some ten_bars_last /\
  exists q c mx,
    models.Parts.Drawdown (models.ScoreResult.Raw ten_bars_last) = Fin q /\
    models.ScoreResult.Price ten_bars_last = Fin c /\
    (q <= 0)%Q /\
    (forall x, Fin x ∈ window -> (x <= mx)%Q) /\
    (exists x, Fin x ∈ window /\ (x == mx)%Q) /\
    (0 < mx -> q == c / mx - 1)%Q.
Proof.
  intros closes window.
  assert (H1 := DefaultConfig_ok).
  assert (H2 : Int.fits (len (models.PriceFrame.Prices ten_bars))).
  { apply fits_small. vm_compute. split; discriminate. }
  assert (H3 : 0 < DDWindow DefaultConfig <= Int.max).
  { unfold DefaultConfig, Int.max. simpl. lia. }
  assert (H4 := ten_bars_nonneg).
  assert (H5 : Compute sqrt12 ten_bars DefaultConfig "en" = Some ten_bars_results)
    by (vm_compute; reflexivity).
  assert (H6 : at_ ten_bars_results 9 = Some ten_bars_last)
    by (vm_compute; reflexivity).
  repeat (split; [assumption|]).
  exact (drawdown_nonpositive sqrt12 ten_bars DefaultConfig "en"
           ten_bars_results 9 ten_bars_last H1 H2 H3 H4 H5 H6).
Defined.

(** ** The label classifier *)

Lemma flt_Fin_false a b : (Fin a <? Fin b)%F = false <-> (b <= a)%Q.
Proof.
  split; intros H.
  - destruct (Qlt_le_dec a b) as [Hlt|Hle]; [|exact Hle].
    apply flt_Fin in Hlt. congruence.
  - destruct (Fin a <? Fin b)%F eqn:E; [|reflexivity].
    apply flt_Fin in E. lra.
Qed.

Lemma fle_Fin_false a b : (Fin a <=? Fin b)%F = false <-> (b < a)%Q.
Proof.
  split; intros H.
  - destruct (Qlt_le_dec b a) as [Hlt|Hle]; [exact Hlt|].
    apply fle_Fin in Hle. congruence.
  - destruct (Fin a <=? Fin b)%F eqn:E; [|reflexivity].
    apply fle_Fin in E. lra.
Qed.

(** Decides the four comparisons of [LabelFromScore] on a finite score. *)
Ltac label_cases q :=
  unfold LabelFromScore; cbn [is_nan String.eqb Ascii.eqb Bool.eqb];
  destruct (Fin q <? Fin 25)%F eqn:E25;
  [apply flt_Fin in E25 | apply flt_Fin_false in E25];
  (destruct (Fin q <? Fin 45)%F eqn:E45;
   [apply flt_Fin in E45 | apply flt_Fin_false in E45]);
  (destruct (Fin q <=? Fin 55)%F eqn:E55;
   [apply fle_Fin in E55 | apply fle_Fin_false in E55]);
  (destruct (Fin q <=? Fin 75)%F eqn:E75;
   [apply fle_Fin in E75 | apply fle_Fin_false in E75]);
  first [reflexivity | lra].

(** C6. The label is a threshold function of the score, in the English
    table for the language "en" and in the Chinese table for "zh" (an
    infinite score falls in the extreme bucket of its sign); an undefined
    score gives the marker "-", which is no bucket label. *)
Theorem LabelFromScore_thresholds (q : Q) :
  ((q < 25 -> LabelFromScore (Fin q) "en" = "Extreme Fear") /\
   (25 <= q < 45 -> LabelFromScore (Fin q) "en" = "Fear") /\
   (45 <= q <= 55 -> LabelFromScore (Fin q) "en" = "Neutral") /\
   (55 < q <= 75 -> LabelFromScore (Fin q) "en" = "Greed") /\
   (75 < q -> LabelFromScore (Fin q) "en" = "Extreme Greed"))%Q /\
  ((q < 25 -> LabelFromScore (Fin q) "zh" = "极度恐惧") /\
   (25 <= q < 45 -> LabelFromScore (Fin q) "zh" = "恐惧") /\
   (45 <= q <= 55 -> LabelFromScore (Fin q) "zh" = "中性") /\
   (55 < q <= 75 -> LabelFromScore (Fin q) "zh" = "贪婪") /\
   (75 < q -> LabelFromScore (Fin q) "zh" = "极度贪婪"))%Q /\
  (LabelFromScore NInf "en" = "Extreme Fear" /\
   LabelFromScore PInf "en" = "Extreme Greed" /\
   LabelFromScore NInf "zh" = "极度恐惧" /\
   LabelFromScore PInf "zh" = "极度贪婪") /\
  (forall lang, LabelFromScore NaN lang = "-") /\
  (forall lang, LabelFromScore (Fin q) lang <> "-").
Proof.
  split; [|split; [|split; [|split]]].
  - repeat split; intros H; label_cases q.
  - repeat split; intros H; label_cases q.
  - repeat split; reflexivity.
  - intros lang. reflexivity.
  - intros lang. unfold LabelFromScore. cbn [is_nan].
    destruct (String.eqb lang "en");
      destruct (Fin q <? Fin 25)%F, (Fin q <? Fin 45)%F,
        (Fin q <=? Fin 55)%F, (Fin q <=? Fin 75)%F; discriminate.
Qed.

(** The boundary scores 24.9, 25, 45, 55.01 and 76 of the English table. *)
Lemma LabelFromScore_thresholds_example :
  ((249 # 10 < 25)%Q /\ LabelFromScore (Fin (249 # 10)) "en" = "Extreme Fear") /\
  ((25 <= 25 < 45)%Q /\ LabelFromScore (Fin 25) "en" = "Fear") /\
  ((45 <= 45 <= 55)%Q /\ LabelFromScore (Fin 45) "en" = "Neutral") /\
  ((55 < 5501 # 100 <= 75)%Q /\ LabelFromScore (Fin (5501 # 100)) "en" = "Greed") /\
  ((75 < 76)%Q /\ LabelFromScore (Fin 76) "en" = "Extreme Greed").
Proof.
  assert (H1 : (249 # 10 < 25)%Q) by reflexivity.
  assert (H2 : (25 <= 25 < 45)%Q) by (split; [discriminate|reflexivity]).
  assert (H3 : (45 <= 45 <= 55)%Q) by (split; discriminate).
  assert (H4 : (55 < 5501 # 100 <= 75)%Q) by (split; [reflexivity|discriminate]).
  assert (H5 : (75 < 76)%Q) by reflexivity.
  split; [|split; [|split; [|split]]].
  - split; [exact H1|].
    exact (proj1 (proj1 (LabelFromScore_thresholds (249 # 10))) H1).
  - split; [exact H2|].
    exact (proj1 (proj2 (proj1 (LabelFromScore_thresholds 25))) H2).
  - split; [exact H3|].
    exact (proj1 (proj2 (proj2 (proj1 (LabelFromScore_thresholds 45)))) H3).
  - split; [exact H4|].
    exact (proj1 (proj2 (proj2 (proj2
             (proj1 (LabelFromScore_thresholds (5501 # 100)))))) H4).
  - split; [exact H5|].
    exact (proj2 (proj2 (proj2 (proj2
             (proj1 (LabelFromScore_thresholds 76))))) H5).
Defined.

(** C10. Every language other than "en", the empty and the unknown ones
    included, selects the Chinese table. *)
Theorem LabelFromScore_default_language (s : float64) (lang : string) :
  lang <> "en" ->
  LabelFromScore s lang = LabelFromScore s "zh" /\
  (is_nan s = false ->
   LabelFromScore s lang ∈ ["极度恐惧"; "恐惧"; "中性"; "贪婪"; "极度贪婪"]).
Proof.
  intros Hlang. apply String.eqb_neq in Hlang.
  unfold LabelFromScore. rewrite Hlang. cbn [String.eqb Ascii.eqb Bool.eqb].
  split; [reflexivity|]. intros ->.
  destruct (s <? Fin 25)%F; [set_solver|].
  destruct (s <? Fin 45)%F; [set_solver|].
  destruct (s <=? Fin 55)%F; [set_solver|].
  destruct (s <=? Fin 75)%F; set_solver.
Qed.

Lemma LabelFromScore_default_language_example :
  "fr" <> "en" /\
  LabelFromScore (Fin 80) "fr" = LabelFromScore (Fin 80) "zh" /\
  (is_nan (Fin 80) = false ->
   LabelFromScore (Fin 80) "fr" ∈ ["极度恐惧"; "恐惧"; "中性"; "贪婪"; "极度贪婪"]).
Proof.
  assert (H : "fr" <> "en") by discriminate.
  split; [exact H|]. exact (LabelFromScore_default_language (Fin 80) "fr" H).
Defined.

(** * The relative strength index *)

(** C3 fails on the code.  On the closes 1, 2, 3, 2 with window 2 the
    initial averages are (1, 0), so index 2 should score 100; the code
    stores 50 there, the score of the averages of index 3: the block that
    sets the initial value runs after the smoothing loop has overwritten
    the averages.  With the default window 14 and the closes 1 .. 15, 14
    index 14 should score 100 and the code stores 650/7.  On the rising
    closes 1, 2, 3, 4 the average loss stays 0 and index 3 should score
    100; the code stores [100 - 100 / (1 + 1e9)]. *)
Theorem RSI_departs_from_wilder :
  (RSI (map of_int [1; 2; 3; 2]) 2 = Some [NaN; NaN; Fin 50; Fin 50] /\
   RSI_wilder [1; 2; 3; 2]%Q 2 = [None; None; Some 100%Q; Some 50%Q]) /\
  (RSI (map of_int (seqZ 1 15 ++ [14])) 14
     = Some (replicate 14 NaN ++ [Fin (650 # 7); Fin (650 # 7)]) /\
   RSI_wilder (map inject_Z (seqZ 1 15 ++ [14])) 14
     = replicate 14 None ++ [Some 100%Q; Some (650 # 7)]) /\
  (RSI (map of_int [1; 2; 3; 4]) 2
     = Some [NaN; NaN; Fin 100; Fin (100000000000 # 1000000001)] /\
   RSI_wilder [1; 2; 3; 4]%Q 2 = [None; None; Some 100%Q; Some 100%Q]).
Proof.
  split; [|split].
  - split; vm_compute; reflexivity.
  - split; vm_compute; reflexivity.
  - split; vm_compute; reflexivity.
Qed.

(** * Further properties of the indicators *)

(** A total-correctness statement, spelled out. *)
Lemma wp_total {A} (m : option A) (Q : A -> Prop) :
  wp m Q -> exists a, m = Some a /\ Q a.
Proof. intros H. exact H. Qed.

(** ** Sums over windows *)

Lemma sum_of_app l1 l2 : (sum_of (l1 ++ l2) == sum_of l1 + sum_of l2)%Q.
Proof.
  unfold sum_of. induction l1 as [|x l1 IH]; simpl.
  - ring.
  - unfold Qsum in *. simpl. rewrite IH. ring.
Qed.

Lemma sum_of_cons x l : (sum_of (x :: l) == to_Q x + sum_of l)%Q.
Proof. reflexivity. Qed.

Lemma positions_cons {A} (s : list A) lo hi x :
  0 <= lo <= hi -> s !! Z.to_nat lo = Some x ->
  positions s lo hi = x :: positions s (lo + 1) hi.
Proof.
  intros H Hx. unfold positions.
  replace (Z.to_nat (hi + 1 - lo)) with (S (Z.to_nat (hi + 1 - (lo + 1)))) by lia.
  rewrite (drop_S s x (Z.to_nat lo) Hx). simpl.
  replace (Z.to_nat (lo + 1)) with (S (Z.to_nat lo)) by lia. reflexivity.
Qed.

Lemma sum_of_singleton x : (sum_of [x] == to_Q x)%Q.
Proof. unfold sum_of, Qsum. simpl. ring. Qed.

(** Sliding a window one position to the right. *)
Lemma sum_of_slide s lo hi a b :
  0 <= lo -> lo <= hi ->
  s !! Z.to_nat lo = Some a -> s !! Z.to_nat (hi + 1) = Some b ->
  (sum_of (positions s (lo + 1) (hi + 1))
   == sum_of (positions s lo hi) - to_Q a + to_Q b)%Q.
Proof.
  intros H0 H1 Ha Hb.
  rewrite (positions_cons s lo hi a) by first [lia | assumption].
  rewrite (positions_snoc s (lo + 1) (hi + 1) b) by first [lia | assumption].
  rewrite Z.add_simpl_r, sum_of_app, sum_of_singleton, sum_of_cons. ring.
Qed.

Lemma positions_prefix {A} (s : list A) hi :
  positions s 0 hi = take (Z.to_nat (hi + 1)) s.
Proof. unfold positions. simpl. f_equal. lia. Qed.

Lemma Forall_at {A} (P : A -> Prop) (s : list A) i x :
  Forall P s -> s !! i = Some x -> P x.
Proof. intros H Hx. exact (proj1 (Forall_lookup P s) H i x Hx). Qed.

(** ** Moving averages *)

Lemma fdiv_int q w : 0 < w -> (Fin q / of_int w)%F = real (q / inject_Z w).
Proof.
  intros Hw. unfold fdiv, of_int.
  destruct (Qeq_bool (inject_Z w) 0) eqn:E; [|reflexivity].
  apply Qeq_bool_iff in E. unfold Qeq in E. simpl in E. lia.
Qed.

Lemma SMA_spec values window :
  0 < window <= Int.max -> Int.fits (len values) -> Forall finite values ->
  wp (SMA values window) (fun out =>
    length out = length values /\
    forall i, 0 <= i < len values ->
      at_ out i = Some
        (if i <? window - 1 then NaN
         else real (sum_of (positions values (i - window + 1) i)
                    / inject_Z window))).
Proof.
  intros Hw Hfl Hfin. unfold SMA. wp_fill. wp_go.
  { split; [slen|]. intros i Hi. rewrite at_replicate by slen.
    destruct (Z.ltb_spec i (window - 1)); [reflexivity|slen]. }
  apply (wp_for_lt (fun i sum =>
    exists s, sum = Fin s /\ (s == sum_of (positions values 0 (i - 1)))%Q)).
  { exists 0%Q. split; [reflexivity|]. rewrite positions_empty by lia. reflexivity. }
  { intros j sum Hj (s & -> & Hs). wp_go.
    destruct (Forall_at _ _ _ _ Hfin H) as [q ->].
    eexists. split; [reflexivity|].
    rewrite (positions_snoc values 0 (j + 1 - 1) (Fin q))
      by (rewrite ?Z.add_simpl_r; first [lia | assumption]).
    rewrite Z.add_simpl_r, sum_of_app, sum_of_singleton, Qred_correct, Hs.
    reflexivity. }
  intros sum (s & -> & Hs). replace (Z.max 0 window - 1) with (window - 1) in Hs by lia.
  wp_go.
  set (ref := fun i => if i <? window - 1 then NaN
         else real (sum_of (positions values (i - window + 1) i) / inject_Z window)).
  apply (wp_for_lt (fun i st =>
    (exists s, st.1 = Fin s /\
       (s == sum_of (positions values (i - window) (i - 1)))%Q) /\
    length st.2 = length values /\
    (forall k, 0 <= k < i -> at_ st.2 k = Some (ref k)))).
  { cbn [fst snd]. split; [|split].
    - exists s. split; [reflexivity|]. rewrite Z.sub_diag. exact Hs.
    - slen.
    - intros k Hk. rewrite at_insert by slen.
      destruct (decide (k = window - 1)) as [->|Hne].
      + unfold ref. rewrite Z.ltb_irrefl. rewrite fdiv_int by lia.
        f_equal. apply real_eq. rewrite Hs.
        replace (window - 1 - window + 1) with 0 by lia. reflexivity.
      + rewrite at_replicate by slen. unfold ref.
        destruct (Z.ltb_spec k (window - 1)); [reflexivity|lia]. }
  { intros j [sum out] Hj ((s' & Hsum & Hs') & Hlen & Hdone).
    cbn [fst snd] in *. subst sum. wp_go.
    destruct (Forall_at _ _ _ _ Hfin H) as [a ->].
    destruct (Forall_at _ _ _ _ Hfin H0) as [b ->].
    assert (Hsl : (sum_of (positions values (j - window + 1) j)
                   == sum_of (positions values (j - window) (j - 1)) - a + b)%Q).
    { pose proof (sum_of_slide values (j - window) (j - 1) (Fin a) (Fin b)) as Hsl.
      replace (j - 1 + 1) with j in Hsl by lia.
      apply Hsl; first [lia | assumption]. }
    cbn [fst snd]. split; [|split].
    - eexists. split; [reflexivity|].
      replace (j + 1 - window) with (j - window + 1) by lia.
      rewrite Z.add_simpl_r, !Qred_correct, Hs', Hsl. reflexivity.
    - slen.
    - intros k Hk. rewrite at_insert by slen.
      destruct (decide (k = j)) as [->|Hne]; [|apply Hdone; lia].
      unfold ref. destruct (Z.ltb_spec j (window - 1)); [lia|].
      unfold fsub, fadd, real at 1 2. rewrite fdiv_int by lia.
      f_equal. apply real_eq. rewrite !Qred_correct, Hs', Hsl. reflexivity. }
  intros [sum out] (_ & Hlen & Hdone). cbn [fst snd] in *. wp_go.
  split; [exact Hlen|]. intros i Hi. apply Hdone. lia.
Qed.

Lemma fadd_nan_r x : (x + NaN)%F = NaN.
Proof. destruct x; reflexivity. Qed.

(** ** Exponential averages and the MACD histogram *)

Lemma convex_within lo hi k v p :
  (0 <= k <= 1)%Q -> (lo <= v <= hi)%Q -> (lo <= p <= hi)%Q ->
  (lo <= v * k + p * (1 - k) <= hi)%Q.
Proof.
  intros Hk Hv Hp.
  assert (H1 : (0 <= (v - lo) * k)%Q) by (apply Qmult_le_0_compat; lra).
  assert (H2 : (0 <= (p - lo) * (1 - k))%Q) by (apply Qmult_le_0_compat; lra).
  assert (H3 : (0 <= (hi - v) * k)%Q) by (apply Qmult_le_0_compat; lra).
  assert (H4 : (0 <= (hi - p) * (1 - k))%Q) by (apply Qmult_le_0_compat; lra).
  split; lra.
Qed.

(** The smoothing factor [2 / (span + 1)] is a proper weight for a span of
    at least one. *)
Lemma smoothing_factor span :
  1 <= span < Int.max ->
  exists k, (Fin 2 / of_int (Int.add span 1))%F = Fin k /\ (0 < k <= 1)%Q.
Proof.
  intros Hs. rewrite Int_add_id by int_lia.
  change (Fin 2) with (Fin (inject_Z 2)). rewrite fdiv_int by lia.
  change (inject_Z 2) with 2%Q.
  eexists. split; [reflexivity|]. rewrite Qred_correct.
  assert (H : (2 <= inject_Z (span + 1))%Q) by (rewrite <- (Zle_Qle 2); lia).
  split.
  - apply Qlt_shift_div_l; lra.
  - apply Qle_shift_div_r; lra.
Qed.

Lemma EMA_spec values span lo hi :
  1 <= span < Int.max -> Int.fits (len values) ->
  Forall (within lo hi) values ->
  wp (EMA values span) (fun out =>
    length out = length values /\
    at_ out 0 = at_ values 0 /\
    Forall (within lo hi) out).
Proof.
  intros Hs Hfl Hin. unfold EMA.
  destruct (smoothing_factor span Hs) as (k & -> & Hk).
  wp_go.
  { split; [slen|]. apply Z.eqb_eq in Heqb.
    assert (values = []) as -> by (destruct values; [reflexivity|unfold len in Heqb; simpl in Heqb; lia]).
    split; [reflexivity|]. constructor. }
  apply (wp_for_lt (fun i out =>
    length out = length values /\
    at_ out 0 = at_ values 0 /\
    forall j x, 0 <= j < i -> at_ out j = Some x -> within lo hi x)).
  { split; [slen|]. split.
    - rewrite at_insert by slen. rewrite decide_True by reflexivity.
      rewrite at_lookup by lia. symmetry. exact H.
    - intros j x Hj Hx. assert (j = 0) as -> by lia.
      rewrite at_insert in Hx by slen. rewrite decide_True in Hx by reflexivity.
      injection Hx as <-. exact (Forall_at _ _ _ _ Hin H). }
  { intros i out Hi (Hlen & H0 & Hdone). wp_go.
    split; [slen|]. split.
    - rewrite at_insert by slen. rewrite decide_False by lia. exact H0.
    - intros j x Hj Hx. rewrite at_insert in Hx by slen.
      destruct (decide (j = i)) as [->|Hne]; [|apply (Hdone j); [lia|exact Hx]].
      injection Hx as <-.
      destruct (Forall_at _ _ _ _ Hin H1) as (a & -> & Hv).
      destruct (Hdone (i - 1) v1) as (p & -> & Hp); [lia|rewrite at_lookup by lia; exact H2|].
      eexists. split; [reflexivity|]. rewrite !Qred_correct.
      apply convex_within; [lra|exact Hv|exact Hp]. }
  intros out (Hlen & H0 & Hdone). replace (Z.max 1 (len values)) with (len values) in Hdone by slen.
  wp_go. split; [exact Hlen|]. split; [exact H0|].
  apply Forall_lookup. intros j x Hx. apply (Hdone (Z.of_nat j)).
  - apply lookup_lt_Some in Hx. unfold len. lia.
  - rewrite at_lookup, Nat2Z.id by lia. exact Hx.
Qed.

Lemma real_zero q : (q == 0)%Q -> real q = Fin 0.
Proof. intros H. rewrite (real_eq q 0 H). reflexivity. Qed.

Lemma within_point_sub c x y :
  within c c x -> within c c y -> (x - y)%F = Fin 0.
Proof.
  intros (a & -> & Ha) (b & -> & Hb). unfold fsub. apply real_zero. lra.
Qed.

Ltac within_at :=
  match goal with
  | HF : Forall (within ?a ?b) ?s, H : ?s !! _ = Some ?x |- within ?a ?b ?x =>
      exact (Forall_at (within a b) s _ x HF H)
  end.

(** ** Arithmetic on non-negative values *)

Lemma nonneg_f0 : nonneg f0.
Proof. exists 0%Q. split; [reflexivity|lra]. Qed.

Lemma nonneg_add x y : nonneg x -> nonneg y -> nonneg (x + y)%F.
Proof.
  intros (a & -> & Ha) (b & -> & Hb). eexists. split; [reflexivity|].
  rewrite Qred_correct. lra.
Qed.

Lemma nonneg_mul x y : nonneg x -> nonneg y -> nonneg (x * y)%F.
Proof.
  intros (a & -> & Ha) (b & -> & Hb). eexists. split; [reflexivity|].
  rewrite Qred_correct. apply Qmult_le_0_compat; assumption.
Qed.

Lemma nonneg_of_int n : 0 <= n -> nonneg (of_int n).
Proof.
  intros H. eexists. split; [reflexivity|]. rewrite <- (Zle_Qle 0). exact H.
Qed.

Lemma nonneg_div_int x w : 0 < w -> nonneg x -> nonneg (x / of_int w)%F.
Proof.
  intros Hw (a & -> & Ha). rewrite fdiv_int by exact Hw.
  eexists. split; [reflexivity|]. rewrite Qred_correct.
  apply Qle_shift_div_l; [rewrite <- (Zlt_Qlt 0); exact Hw|lra].
Qed.

Lemma fne_Fin a b : (Fin a !=? Fin b)%F = true <-> ~ (a == b)%Q.
Proof.
  unfold fne. rewrite negb_true_iff. split; intros H.
  - intros E. apply feq_Fin in E. congruence.
  - destruct (Fin a =? Fin b)%F eqn:E; [|reflexivity].
    apply feq_Fin in E. contradiction.
Qed.

Lemma nonneg_div x y :
  nonneg x -> nonneg y -> (y !=? f0)%F = true -> nonneg (x / y)%F.
Proof.
  intros (a & -> & Ha) (b & -> & Hb) Hne. apply fne_Fin in Hne.
  unfold fdiv. destruct (Qeq_bool b 0) eqn:E.
  { apply Qeq_bool_iff in E. contradiction. }
  eexists. split; [reflexivity|]. rewrite Qred_correct.
  apply Qle_shift_div_l; lra.
Qed.

(** [100 - 100 / (1 + r)] lies between 0 and 100 for a ratio [r >= 0]. *)
Lemma ratio_score_range r :
  nonneg r -> within 0 100 (f100 - f100 / (f1 + r))%F.
Proof.
  intros (q & -> & Hq). unfold f1, f100, fadd, real.
  unfold fdiv. destruct (Qeq_bool (Qred (1 + q)) 0) eqn:E.
  { apply Qeq_bool_iff in E. rewrite Qred_correct in E. lra. }
  eexists. split; [reflexivity|]. rewrite !Qred_correct.
  assert (H1 : (0 < 100 / (1 + q))%Q) by (apply Qlt_shift_div_l; lra).
  assert (H2 : (100 / (1 + q) <= 100)%Q) by (apply Qle_shift_div_r; lra).
  lra.
Qed.

Lemma nonneg_diff a b :
  let diff := (Fin a - Fin b)%F in
  if (diff >? f0)%F then nonneg diff else nonneg (- diff)%F.
Proof.
  simpl. destruct (flt f0 (real (a - b))) eqn:E.
  - unfold fgt. rewrite E. apply flt_Fin in E. eexists. split; [reflexivity|]. lra.
  - unfold fgt. rewrite E. apply flt_Fin_false in E.
    eexists. split; [reflexivity|]. rewrite Qred_correct. lra.
Qed.

(** ** RSI and MFI *)

Lemma Forall_replicate_f0 n : Forall nonneg (replicate n f0).
Proof. apply Forall_replicate. apply nonneg_f0. Qed.

Ltac nonneg_at :=
  match goal with
  | HF : Forall nonneg ?s, H : ?s !! _ = Some ?x |- nonneg ?x =>
      exact (Forall_at nonneg s _ x HF H)
  end.




(** ** Flat windows: Bollinger %B and realized volatility *)






Lemma flat_return c v p :
  within c c v -> within c c p -> (p !=? f0)%F = true ->
  (v / p - f1)%F = Fin 0.
Proof.
  intros (a & -> & Ha) (b & -> & Hb) Hne. apply fne_Fin in Hne.
  unfold fdiv. destruct (Qeq_bool b 0) eqn:E.
  { apply Qeq_bool_iff in E. contradiction. }
  unfold real, fsub, f1. apply real_zero. rewrite Qred_correct.
  assert (a == b)%Q by lra. rewrite H. field. exact Hne.
Qed.

Lemma RealizedVol_spec sqrt values window :
  0 <= window <= Int.max -> Int.fits (len values) ->
  wp (RealizedVol sqrt values window) (fun out =>
    length out = length values /\
    forall i, 0 <= i < len values ->
      (i < window -> at_ out i = Some NaN) /\
      (window <= i -> 1 <= window ->
       sqrt (Fin 0) = Fin 0 -> (exists r, sqrt (Fin 252) = Fin r) ->
       (exists c, Forall (within c c) values) ->
       at_ out i = Some (Fin 0))).
Proof.
  intros Hw Hfl. unfold RealizedVol. wp_fill. wp_go.
  set (flat := exists c, Forall (within c c) values).
  apply (wp_for_lt (fun _ r =>
    length r = length values /\
    (flat -> forall k x, 0 <= k -> at_ r k = Some x -> x = Fin 0))).
  { split; [slen|]. intros _ k x Hk Hx. rewrite at_lookup in Hx by lia.
    apply lookup_replicate in Hx as [-> _]. reflexivity. }
  { intros i r Hi (Hlen & Hz). wp_go.
    - split; [slen|]. intros [c Hc] k x Hk Hx. rewrite at_insert in Hx by slen.
      destruct (decide (k = i)) as [->|Hne]; [|apply (Hz (ex_intro _ c Hc) k); assumption].
      injection Hx as <-. apply (flat_return c); [within_at|within_at|exact Heqb].
    - split; [exact Hlen|exact Hz]. }
  intros returns (Hlr & Hz). wp_go.
  apply (wp_for_lt (fun i out =>
    length out = length values /\
    (forall k, window <= k < i -> 1 <= window ->
       sqrt (Fin 0) = Fin 0 -> (exists r, sqrt (Fin 252) = Fin r) -> flat ->
       at_ out k = Some (Fin 0)) /\
    (forall k, 0 <= k < len values -> k < window \/ i <= k -> at_ out k = Some NaN))).
  { split; [slen|]. split; [intros; lia|]. intros k Hk _. apply at_replicate. slen. }
  { intros i out Hi (Hlen & Hdone & Htodo).
    apply wp_bind.
    apply (wp_for_lt (fun _ sum => flat -> sum = Fin 0)).
    { intros _. reflexivity. }
    { intros j sum Hj Hs. wp_go. intros Hflat. rewrite (Hs Hflat).
      rewrite (Hz Hflat (i - j) v); [reflexivity|lia|].
      rewrite at_lookup by lia. exact H. }
    intros sum Hs. wp_go.
    apply (wp_for_lt (fun _ sqSum => 1 <= window -> flat -> sqSum = Fin 0)).
    { intros _ _. reflexivity. }
    { intros j sqSum Hj Hq. wp_go. intros Hw1 Hflat. rewrite (Hq Hw1 Hflat).
      rewrite (Hz Hflat (i - j) v); [|lia|rewrite at_lookup by lia; exact H].
      rewrite (Hs Hflat), fdiv_int by lia.
      rewrite (real_zero (0 / inject_Z window)) by (unfold Qdiv; ring).
      reflexivity. }
    intros sqSum Hq. wp_go. split; [slen|]. split.
    - intros k Hk Hw1 Hs0 [r Hr] Hflat. rewrite at_insert by slen.
      destruct (decide (k = i)) as [->|Hne];
        [|apply Hdone; first [lia | assumption | eexists; eassumption]].
      rewrite (Hq Hw1 Hflat), fdiv_int by lia.
      rewrite (real_zero (0 / inject_Z window)) by (unfold Qdiv; ring).
      rewrite Hs0, Hr. f_equal; unfold fmul; apply real_zero; ring.
    - intros k Hk Hc. rewrite at_insert by slen.
      rewrite decide_False by lia. apply Htodo; lia. }
  intros out (Hlen & Hdone & Htodo). wp_go. split; [exact Hlen|].
  intros i Hi. split.
  - intros Hlt. apply Htodo; lia.
  - intros Hge Hw1 Hs0 Hr Hflat. apply Hdone; first [lia | assumption].
Qed.

(** ** Percentile ranks *)

Lemma count_le_all v l :
  Forall (fun y => (y <=? v)%F = true) l -> count_le v l = len l.
Proof.
  induction 1 as [|y l Hy _ IH].
  - reflexivity.
  - rewrite count_le_cons, Hy, IH. unfold len. simpl length. simpl Z.b2z. lia.
Qed.

(** ** RSI of a series that never rises *)

Lemma zero_mul_int n : (Fin 0 * of_int n)%F = Fin 0.
Proof. unfold fmul, of_int. apply real_zero. ring. Qed.

Lemma zero_div_int w : 0 < w -> (Fin 0 / of_int w)%F = Fin 0.
Proof.
  intros H. rewrite fdiv_int by exact H. apply real_zero.
  unfold Qdiv. ring.
Qed.

Lemma zero_div y : nonneg y -> (y !=? f0)%F = true -> (Fin 0 / y)%F = Fin 0.
Proof.
  intros (b & -> & Hb) Hne. apply fne_Fin in Hne. unfold fdiv.
  destruct (Qeq_bool b 0) eqn:E.
  { apply Qeq_bool_iff in E. contradiction. }
  apply real_zero. unfold Qdiv. ring.
Qed.

(** ** Maps that keep the order *)

Lemma positions_map {A B} (f : A -> B) (s : list A) lo hi :
  positions (map f s) lo hi = map f (positions s lo hi).
Proof.
  unfold positions. change (map f s) with (f <$> s).
  rewrite <- fmap_drop, <- fmap_take. reflexivity.
Qed.

Lemma positions_subseteq {A} (s : list A) lo hi x :
  x ∈ positions s lo hi -> x ∈ s.
Proof.
  unfold positions. intros H.
  apply list_elem_of_lookup in H as [k Hk].
  rewrite lookup_take_Some in Hk. destruct Hk as [Hk _].
  rewrite lookup_drop in Hk. apply list_elem_of_lookup. eexists. exact Hk.
Qed.

Lemma valid_map f l :
  (forall a, a ∈ l -> is_nan (f a) = is_nan a) ->
  valid (map f l) = map f (valid l).
Proof.
  induction l as [|x l IH]; intros H; [reflexivity|].
  unfold valid in *. simpl. rewrite !filter_cons.
  rewrite (H x) by left.
  rewrite IH by (intros a Ha; apply H; right; exact Ha).
  destruct (decide (is_nan x = false)); reflexivity.
Qed.

Lemma valid_subseteq l x : x ∈ valid l -> x ∈ l.
Proof. unfold valid. intros [_ H]%list_elem_of_filter. exact H. Qed.

Lemma count_le_map f d x l :
  d = 1 \/ d = -1 ->
  (forall y, y ∈ l -> (f y <=? f x)%F = (y <=? x)%F) ->
  (forall y, y ∈ l -> (f x <=? f y)%F = (x <=? y)%F) ->
  count_le (f x * of_int d)%F (directed d (map f l))
  = count_le (x * of_int d)%F (directed d l).
Proof.
  intros Hd H1 H2. induction l as [|y l IH]; [reflexivity|].
  simpl directed. rewrite !count_le_cons.
  fold (directed d (map f l)). fold (directed d l).
  rewrite IH.
  - f_equal. f_equal. destruct Hd as [-> | ->].
    + rewrite !fle_dir_pos. apply H1. left.
    + rewrite !fle_dir_neg. apply H2. left.
  - intros z Hz. apply H1. right. exact Hz.
  - intros z Hz. apply H2. right. exact Hz.
Qed.

Lemma Normalize_map f values w d i :
  d = 1 \/ d = -1 -> keeps_order f values ->
  Normalize (map f values) w d i = Normalize values w d i.
Proof.
  intros Hd Hf. unfold keeps_order in Hf.
  rewrite Forall_forall in Hf.
  assert (Hnan : forall a, a ∈ values -> is_nan (f a) = is_nan a).
  { intros a Ha. apply (Hf a Ha). }
  assert (Hle : forall a b, a ∈ values -> b ∈ values ->
                  (f a <=? f b)%F = (a <=? b)%F).
  { intros a b Ha Hb. destruct (Hf a Ha) as [_ H].
    rewrite Forall_forall in H. apply H. exact Hb. }
  unfold Normalize. rewrite at_map.
  destruct (at_ values i) as [x|] eqn:Hx; [|reflexivity]. simpl.
  assert (Hxin : x ∈ values).
  { unfold at_ in Hx. destruct (0 <=? i); [|discriminate].
    apply list_elem_of_lookup. eexists. exact Hx. }
  rewrite positions_map.
  rewrite valid_map
    by (intros a Ha; apply Hnan; eapply positions_subseteq; exact Ha).
  rewrite (Hnan x Hxin).
  change (len (map f ?l)) with (len (f <$> l)).
  assert (El : forall l : list float64, len (map f l) = len l)
    by (intros l; apply len_map).
  rewrite El.
  destruct (_ || _ || _); [reflexivity|].
  rewrite count_le_map; [reflexivity|exact Hd| |].
  - intros y Hy. apply Hle; [|exact Hxin].
    eapply positions_subseteq, valid_subseteq. exact Hy.
  - intros y Hy. apply Hle; [exact Hxin|].
    eapply positions_subseteq, valid_subseteq. exact Hy.
Qed.

(** ** What the indicators return *)

(** X1. [SMA] never fails for a positive window; its output is as long as
    its input, undefined before index [window - 1] and, for finite
    values, from there on the mean of the [window] values that end at the
    index. *)
Theorem SMA_is_window_mean values window :
  0 < window <= Int.max -> Int.fits (len values) -> Forall finite values ->
  exists out, SMA values window = Some out /\
    length out = length values /\
    forall i, 0 <= i < len values ->
      at_ out i = Some
        (if i <? window - 1 then NaN
         else real (sum_of (positions values (i - window + 1) i)
                    / inject_Z window)).
Proof. exact (SMA_spec values window). Qed.

Lemma SMA_is_window_mean_example :
  let values := [Fin 1; Fin 2; Fin 6] in
  0 < 2 <= Int.max /\ Int.fits (len values) /\ Forall finite values /\
  exists out, SMA values 2 = Some out /\
    length out = length values /\
    forall i, 0 <= i < len values ->
      at_ out i = Some
        (if i <? 2 - 1 then NaN
         else real (sum_of (positions values (i - 2 + 1) i) / inject_Z 2)).
Proof.
  intros values.
  assert (H1 : 0 < 2 <= Int.max) by (unfold Int.max; lia).
  assert (H2 : Int.fits (len values))
    by (apply fits_small; vm_compute; split; discriminate).
  assert (H3 : Forall finite values)
    by (repeat (constructor; [eexists; reflexivity|]); constructor).
  repeat (split; [assumption|]).
  exact (SMA_is_window_mean values 2 H1 H2 H3).
Defined.

(** X2. An undefined value never leaves the moving average: [SMA] keeps a
    running sum, so every output from the index of a NaN input on is NaN,
    also after the NaN has left the window. *)
Theorem SMA_keeps_NaN values window j :
  0 < window <= Int.max -> Int.fits (len values) ->
  at_ values j = Some NaN ->
  exists out, SMA values window = Some out /\
    length out = length values /\
    forall i, j <= i < len values -> at_ out i = Some NaN.
Proof.
  intros Hw Hfl Hj. apply wp_total. pose proof (at_Some_range _ _ _ Hj) as Hjr.
  rewrite at_lookup in Hj by lia.
  unfold SMA. wp_fill. wp_go.
  { split; [slen|]. intros i Hi. apply at_replicate. slen. }
  apply (wp_for_lt (fun i sum => j < i -> sum = NaN)).
  { lia. }
  { intros k sum Hk Hsum. wp_go. intros Hlt.
    destruct (decide (k = j)) as [->|Hne].
    - rewrite Hj in H. injection H as <-. apply fadd_nan_r.
    - rewrite Hsum by lia. reflexivity. }
  intros sum Hsum. replace (Z.max 0 window) with window in Hsum by lia.
  wp_go.
  apply (wp_for_lt (fun i st =>
    (j < i -> st.1 = NaN) /\
    length st.2 = length values /\
    (forall k, 0 <= k < len values -> k < window - 1 \/ (j <= k /\ k < i) \/ i <= k ->
       (k < window - 1 \/ j <= k) -> at_ st.2 k = Some NaN))).
  { cbn [fst snd]. split; [exact Hsum|]. split; [slen|].
    intros k Hk _ Hc. rewrite at_insert by slen.
    destruct (decide (k = window - 1)) as [->|Hne].
    - rewrite Hsum by lia. reflexivity.
    - apply at_replicate. slen. }
  { intros k [sum' out] Hk (Hs & Hlen & Hout). cbn [fst snd] in *. wp_go.
    cbn [fst snd].
    assert (Hnew : j < k + 1 -> (sum' - v + v0)%F = NaN).
    { intros Hlt. destruct (decide (k = j)) as [->|Hne].
      - rewrite Hj in H0. injection H0 as <-. apply fadd_nan_r.
      - rewrite Hs by lia. reflexivity. }
    split; [exact Hnew|]. split; [slen|].
    intros i Hi Hc1 Hc2. rewrite at_insert by slen.
    destruct (decide (i = k)) as [->|Hne].
    - rewrite Hnew by lia. reflexivity.
    - apply Hout; [lia| |exact Hc2]. lia. }
  intros [sum' out] (_ & Hlen & Hout). cbn [fst snd] in *. wp_go.
  split; [exact Hlen|]. intros i Hi. apply Hout; lia.
Qed.

Lemma SMA_keeps_NaN_example :
  let values := [Fin 1; NaN; Fin 3; Fin 4; Fin 5] in
  0 < 2 <= Int.max /\ Int.fits (len values) /\ at_ values 1 = Some NaN /\
  exists out, SMA values 2 = Some out /\
    length out = length values /\
    forall i, 1 <= i < len values -> at_ out i = Some NaN.
Proof.
  intros values.
  assert (H1 : 0 < 2 <= Int.max) by (unfold Int.max; lia).
  assert (H2 : Int.fits (len values))
    by (apply fits_small; vm_compute; split; discriminate).
  assert (H3 : at_ values 1 = Some NaN) by reflexivity.
  repeat (split; [assumption|]).
  exact (SMA_keeps_NaN values 2 1 H1 H2 H3).
Defined.

(** X3. [EMA] starts from the first value and stays between the bounds of
    its input: for a span of at least one, values that all lie in
    [lo, hi] give averages that all lie in [lo, hi]. *)
Theorem EMA_within_bounds values span lo hi :
  1 <= span < Int.max -> Int.fits (len values) ->
  Forall (within lo hi) values ->
  exists out, EMA values span = Some out /\
    length out = length values /\
    at_ out 0 = at_ values 0 /\
    Forall (within lo hi) out.
Proof. exact (EMA_spec values span lo hi). Qed.

Lemma EMA_within_bounds_example :
  let values := [Fin 1; Fin 3; Fin 2] in
  1 <= 2 < Int.max /\ Int.fits (len values) /\
  Forall (within 1 3) values /\
  exists out, EMA values 2 = Some out /\
    length out = length values /\
    at_ out 0 = at_ values 0 /\
    Forall (within 1 3) out.
Proof.
  intros values.
  assert (H1 : 1 <= 2 < Int.max) by (unfold Int.max; lia).
  assert (H2 : Int.fits (len values))
    by (apply fits_small; vm_compute; split; discriminate).
  assert (H3 : Forall (within 1 3) values).
  { repeat (constructor; [eexists; split; [reflexivity|split; discriminate]|]).
    constructor. }
  repeat (split; [assumption|]).
  exact (EMA_within_bounds values 2 1 3 H1 H2 H3).
Defined.

(** X4. On a flat series the MACD histogram is zero at every index. *)
Theorem MACD_flat_is_zero values c :
  Int.fits (len values) -> Forall (within c c) values ->
  exists out, MACD values = Some out /\
    length out = length values /\ Forall (fun x => x = Fin 0) out.
Proof.
  intros Hfl Hin. apply wp_total. unfold MACD.
  assert (S12 : 1 <= 12 < Int.max) by int_lia.
  assert (S26 : 1 <= 26 < Int.max) by int_lia.
  assert (S9 : 1 <= 9 < Int.max) by int_lia.
  wp_call (EMA_spec values 12 c c S12 Hfl Hin). destruct H as (Hlf & _ & Hf).
  wp_call (EMA_spec values 26 c c S26 Hfl Hin). destruct H as (Hls & _ & Hs).
  wp_go.
  apply (wp_for_lt (fun i m =>
    length m = length values /\
    forall j x, 0 <= j -> at_ m j = Some x -> x = Fin 0)).
  { split; [slen|]. intros j x Hj Hx. rewrite at_lookup in Hx by lia.
    apply lookup_replicate in Hx as [-> _]. reflexivity. }
  { intros i m Hi (Hlen & Hm). wp_go. split; [slen|].
    intros j x Hj Hx. rewrite at_insert in Hx by slen.
    destruct (decide (j = i)) as [->|Hne]; [|apply (Hm j); assumption].
    injection Hx as <-.
    apply (within_point_sub c); within_at. }
  intros macdLine (Hlm & Hm).
  assert (Hz : Forall (within 0 0) macdLine).
  { apply Forall_lookup. intros j x Hx.
    rewrite (Hm (Z.of_nat j) x); [|lia|rewrite at_lookup, Nat2Z.id by lia; exact Hx].
    exists 0%Q. split; [reflexivity|lra]. }
  assert (Hfm : Int.fits (len macdLine)) by (unfold len in *; rewrite Hlm; exact Hfl).
  wp_call (EMA_spec macdLine 9 0 0 S9 Hfm Hz). destruct H as (Hlsig & _ & Hsig).
  wp_go.
  apply (wp_for_lt (fun i h =>
    length h = length values /\
    forall j x, 0 <= j -> at_ h j = Some x -> x = Fin 0)).
  { split; [slen|]. intros j x Hj Hx. rewrite at_lookup in Hx by lia.
    apply lookup_replicate in Hx as [-> _]. reflexivity. }
  { intros i h Hi (Hlen & Hh). wp_go. split; [slen|].
    intros j x Hj Hx. rewrite at_insert in Hx by slen.
    destruct (decide (j = i)) as [->|Hne]; [|apply (Hh j); assumption].
    injection Hx as <-.
    apply (within_point_sub 0); within_at. }
  intros hist (Hlh & Hh). wp_go. split; [exact Hlh|].
  apply Forall_lookup. intros j x Hx. apply (Hh (Z.of_nat j)); [lia|].
  rewrite at_lookup, Nat2Z.id by lia. exact Hx.
Qed.

Lemma MACD_flat_is_zero_example :
  let values := [Fin 5; Fin 5; Fin 5] in
  Int.fits (len values) /\ Forall (within 5 5) values /\
  exists out, MACD values = Some out /\
    length out = length values /\ Forall (fun x => x = Fin 0) out.
Proof.
  intros values.
  assert (H1 : Int.fits (len values))
    by (apply fits_small; vm_compute; split; discriminate).
  assert (H2 : Forall (within 5 5) values).
  { repeat (constructor; [eexists; split; [reflexivity|split; discriminate]|]).
    constructor. }
  repeat (split; [assumption|]).
  exact (MACD_flat_is_zero values 5 H1 H2).
Defined.

(** X5. [Momentum] never fails for a window that is not negative; its
    output at index [i] is undefined before index [window] and where the
    value [window] positions back is zero, and is
    [values[i] / values[i - window] - 1] elsewhere. *)
Theorem Momentum_is_return values window :
  0 <= window <= Int.max -> Int.fits (len values) ->
  exists out, Momentum values window = Some out /\
    length out = length values /\
    forall i, 0 <= i < len values ->
      at_ out i = Some (momentum_at values window i).
Proof.
  intros Hw Hfl. apply wp_total. unfold Momentum. wp_fill. wp_go.
  apply (wp_for_lt (fun i out =>
    length out = length values /\
    (forall k, 0 <= k < len values -> k < Z.max window i ->
       at_ out k = Some (momentum_at values window k)) /\
    (forall k, Z.max window i <= k < len values -> at_ out k = Some NaN))).
  { split; [slen|]. split.
    - intros k Hk Hlt. rewrite at_replicate by slen. unfold momentum_at.
      destruct (Z.ltb_spec k window); [reflexivity|lia].
    - intros k Hk. apply at_replicate. slen. }
  { intros i out Hi (Hlen & Hdone & Htodo).
    assert (Hstep : forall out',
      length out' = length values ->
      (forall k, 0 <= k -> k <> i -> at_ out' k = at_ out k) ->
      at_ out' i = Some (momentum_at values window i) ->
      length out' = length values /\
      (forall k, 0 <= k < len values -> k < Z.max window (i + 1) ->
         at_ out' k = Some (momentum_at values window k)) /\
      (forall k, Z.max window (i + 1) <= k < len values -> at_ out' k = Some NaN)).
    { intros out' Hl Hsame Hi'. split; [exact Hl|]. split.
      - intros k Hk Hlt. destruct (decide (k = i)) as [->|Hne]; [exact Hi'|].
        rewrite Hsame by lia. apply Hdone; lia.
      - intros k Hk. rewrite Hsame by lia. apply Htodo. lia. }
    wp_go; apply Hstep.
    - slen.
    - intros k Hk Hne. rewrite at_insert by slen. rewrite decide_False by exact Hne.
      reflexivity.
    - rewrite at_insert by slen. rewrite decide_True by reflexivity.
      unfold momentum_at. destruct (Z.ltb_spec i window); [lia|].
      rewrite !at_lookup by lia. rewrite H, H0, Heqb. reflexivity.
    - exact Hlen.
    - reflexivity.
    - rewrite Htodo by lia. unfold momentum_at.
      destruct (Z.ltb_spec i window); [lia|].
      rewrite !at_lookup by lia. rewrite H.
      destruct (values !! Z.to_nat i); rewrite ?Heqb; reflexivity. }
  intros out (Hlen & Hdone & Htodo). wp_go. split; [exact Hlen|].
  intros i Hi. destruct (Z.lt_ge_cases i (Z.max window (Z.max window (len values)))).
  - apply Hdone; lia.
  - lia.
Qed.

Lemma Momentum_is_return_example :
  let values := [Fin 2; Fin 0; Fin 3; Fin 5] in
  0 <= 1 <= Int.max /\ Int.fits (len values) /\
  exists out, Momentum values 1 = Some out /\
    length out = length values /\
    forall i, 0 <= i < len values ->
      at_ out i = Some (momentum_at values 1 i).
Proof.
  intros values.
  assert (H1 : 0 <= 1 <= Int.max) by (unfold Int.max; lia).
  assert (H2 : Int.fits (len values))
    by (apply fits_small; vm_compute; split; discriminate).
  repeat (split; [assumption|]).
  exact (Momentum_is_return values 1 H1 H2).
Defined.

(** X6. For finite values and a window of at least one, [RSI] is
    undefined before index [window] and lies between 0 and 100 from
    there on. *)
Theorem RSI_between_0_and_100 values window :
  1 <= window < Int.max -> Int.fits (len values) -> Forall finite values ->
  exists out, RSI values window = Some out /\
    length out = length values /\
    forall i, 0 <= i < len values ->
      exists y, at_ out i = Some y /\
        (i < window -> y = NaN) /\ (window <= i -> within 0 100 y).
Proof.
  intros Hw Hfl Hfin. apply wp_total. unfold RSI. wp_fill. wp_go.
  { split; [slen|]. intros i Hi. exists NaN. rewrite at_replicate by slen.
    split; [reflexivity|]. split; [reflexivity|]. slen. }
  apply (wp_for_lt (fun _ st =>
    (length st.1 = length values /\ Forall nonneg st.1) /\
    (length st.2 = length values /\ Forall nonneg st.2))).
  { cbn [fst snd]. repeat split; try slen; apply Forall_replicate_f0. }
  { intros j [g l] Hj ((Hg & Fg) & (Hl & Fl)). cbn [fst snd] in *.
    apply wp_bind, wp_at; [slen|]. intros a Ha.
    int_simp. apply wp_bind, wp_at; [slen|]. intros b Hb.
    destruct (Forall_at _ _ _ _ Hfin Ha) as [qa ->].
    destruct (Forall_at _ _ _ _ Hfin Hb) as [qb ->].
    pose proof (nonneg_diff qa qb) as Hd. cbv zeta in Hd.
    destruct (Fin qa - Fin qb >? f0)%F; wp_go; cbn [fst snd];
      repeat split; try slen; try assumption;
      apply Forall_insert; assumption. }
  intros [gains losses] ((Hg & Fg) & (Hl & Fl)). cbn [fst snd] in *. wp_go.
  apply (wp_for_le (fun _ st => nonneg st.1 /\ nonneg st.2)).
  { split; apply nonneg_f0. }
  { intros j [ag al] Hj [Hag Hal]. cbn [fst snd] in *. wp_go. cbn [fst snd].
    split; apply nonneg_add; first [assumption | nonneg_at]. }
  intros [sg sl] [Hsg Hsl]. cbn [fst snd] in *.
  assert (Hw0 : 0 < window) by lia.
  pose proof (nonneg_div_int sg window Hw0 Hsg) as Hag0.
  pose proof (nonneg_div_int sl window Hw0 Hsl) as Hal0.
  set (ag0 := (sg / of_int window)%F) in *.
  set (al0 := (sl / of_int window)%F) in *.
  wp_go.
  apply (wp_for_lt (fun i st =>
    nonneg st.1.1 /\ nonneg st.1.2 /\
    length st.2 = length values /\
    (forall k, window + 1 <= k < i -> exists y, at_ st.2 k = Some y /\ within 0 100 y) /\
    (forall k, 0 <= k < len values -> k < window + 1 \/ i <= k -> at_ st.2 k = Some NaN))).
  { cbn [fst snd]. split; [exact Hag0|]. split; [exact Hal0|]. split; [slen|].
    split; [intros; lia|]. intros k Hk _. apply at_replicate. slen. }
  { intros i [[ag al] out] Hi (Hag & Hal & Hlen & Hdone & Htodo).
    cbn [fst snd] in *.
    apply wp_bind, wp_at; [slen|]. intros g Hg'.
    apply wp_bind, wp_at; [slen|]. intros l Hl'.
    assert (Hng : nonneg g) by nonneg_at.
    assert (Hnl : nonneg l) by nonneg_at.
    assert (Hw1 : nonneg (of_int (window - 1))) by (apply nonneg_of_int; lia).
    assert (Hag' : nonneg ((ag * of_int (window - 1) + g) / of_int window)%F).
    { apply nonneg_div_int; [lia|]. apply nonneg_add; [|exact Hng].
      apply nonneg_mul; assumption. }
    assert (Hal' : nonneg ((al * of_int (window - 1) + l) / of_int window)%F).
    { apply nonneg_div_int; [lia|]. apply nonneg_add; [|exact Hnl].
      apply nonneg_mul; assumption. }
    set (ag' := ((ag * of_int (window - 1) + g) / of_int window)%F) in *.
    set (al' := ((al * of_int (window - 1) + l) / of_int window)%F) in *.
    assert (Hrs : nonneg (if (al' !=? f0)%F then (ag' / al')%F
                          else if (ag' =? f0)%F then f0 else Fin 1000000000)).
    { destruct (al' !=? f0)%F eqn:E; [apply nonneg_div; assumption|].
      destruct (ag' =? f0)%F; [apply nonneg_f0|].
      eexists. split; [reflexivity|]. discriminate. }
    apply wp_bind, wp_put; [slen|]. apply wp_ret. cbn [fst snd].
    split; [exact Hag'|]. split; [exact Hal'|]. split; [slen|]. split.
    - intros k Hk. rewrite at_insert by slen.
      destruct (decide (k = i)) as [->|Hne]; [|apply Hdone; lia].
      eexists. split; [reflexivity|]. apply ratio_score_range. exact Hrs.
    - intros k Hk Hc. rewrite at_insert by slen.
      rewrite decide_False by lia. apply Htodo; lia. }
  intros [[ag al] out] (Hag & Hal & Hlen & Hdone & Htodo). cbn [fst snd] in *.
  assert (Hfinal : forall y,
    within 0 100 y ->
    wp (put out window y ≫= (fun out0 => Some out0)) (fun out0 =>
      length out0 = length values /\
      forall i, 0 <= i < len values ->
        exists y, at_ out0 i = Some y /\
          (i < window -> y = NaN) /\ (window <= i -> within 0 100 y))).
  { intros y Hy. wp_go. split; [slen|]. intros i Hi. rewrite at_insert by slen.
    destruct (decide (i = window)) as [->|Hne].
    - exists y. split; [reflexivity|]. split; [lia|]. intros _. exact Hy.
    - destruct (Z.lt_ge_cases i window).
      + exists NaN. split; [apply Htodo; lia|]. split; [reflexivity|lia].
      + destruct (Hdone i) as (y' & Hy' & Hr); [lia|].
        exists y'. split; [exact Hy'|]. split; [lia|]. intros _. exact Hr. }
  destruct ((al =? f0)%F && (ag >? f0)%F).
  - apply Hfinal. exists 100%Q. split; [reflexivity|lra].
  - apply Hfinal. apply ratio_score_range.
    destruct (al !=? f0)%F eqn:E; [apply nonneg_div; assumption|apply nonneg_f0].
Qed.

Lemma RSI_between_0_and_100_example :
  let values := [Fin 1; Fin 2; Fin 3; Fin 2] in
  1 <= 2 < Int.max /\ Int.fits (len values) /\ Forall finite values /\
  exists out, RSI values 2 = Some out /\
    length out = length values /\
    forall i, 0 <= i < len values ->
      exists y, at_ out i = Some y /\
        (i < 2 -> y = NaN) /\ (2 <= i -> within 0 100 y).
Proof.
  intros values.
  assert (H1 : 1 <= 2 < Int.max) by (unfold Int.max; lia).
  assert (H2 : Int.fits (len values))
    by (apply fits_small; vm_compute; split; discriminate).
  assert (H3 : Forall finite values)
    by (repeat (constructor; [eexists; reflexivity|]); constructor).
  repeat (split; [assumption|]).
  exact (RSI_between_0_and_100 values 2 H1 H2 H3).
Defined.

Lemma falling_example_never_rises :
  never_rises [Fin 3; Fin 2; Fin 2; Fin 1].
Proof.
  intros i a b Hb Ha.
  pose proof (at_Some_range _ _ _ Hb) as Rb.
  pose proof (at_Some_range _ _ _ Ha) as Ra.
  unfold len in Ra, Rb. simpl in Ra, Rb.
  assert (Hi : i = 1 \/ i = 2 \/ i = 3) by lia.
  destruct Hi as [-> | [-> | ->]]; vm_compute in Ha, Hb;
    injection Ha as <-; injection Hb as <-; discriminate.
Qed.

(** X7. On a finite series that never rises, [RSI] is zero from index
    [window] on: a flat market reads as 0, not as 50. *)
Theorem RSI_never_rising_is_zero values window :
  1 <= window < Int.max -> Int.fits (len values) -> Forall finite values ->
  never_rises values ->
  exists out, RSI values window = Some out /\
    length out = length values /\
    forall i, 0 <= i < len values ->
      at_ out i = Some (if i <? window then NaN else Fin 0).
Proof.
  intros Hw Hfl Hfin Hfall. apply wp_total. unfold RSI. wp_fill. wp_go.
  { split; [slen|]. intros i Hi. rewrite at_replicate by slen.
    destruct (Z.ltb_spec i window); [reflexivity|slen]. }
  apply (wp_for_lt (fun _ st =>
    (length st.1 = length values /\ Forall (fun x => x = Fin 0) st.1) /\
    (length st.2 = length values /\ Forall nonneg st.2))).
  { cbn [fst snd]. repeat split; try slen.
    - apply Forall_replicate. reflexivity.
    - apply Forall_replicate_f0. }
  { intros j [g l] Hj ((Hg & Fg) & (Hl & Fl)). cbn [fst snd] in *.
    apply wp_bind, wp_at; [slen|]. intros a Ha.
    int_simp. apply wp_bind, wp_at; [slen|]. intros b Hb.
    destruct (Forall_at _ _ _ _ Hfin Ha) as [qa ->].
    destruct (Forall_at _ _ _ _ Hfin Hb) as [qb ->].
    assert (Hle : (qa <= qb)%Q).
    { apply (Hfall j).
      - rewrite at_lookup; [exact Hb|]. clear -Hj. lia.
      - rewrite at_lookup; [exact Ha|]. clear -Hj. lia. }
    pose proof (nonneg_diff qa qb) as Hd. cbv zeta in Hd.
    destruct (Fin qa - Fin qb >? f0)%F eqn:E.
    - exfalso. unfold fsub, fgt, real in E. apply flt_Fin in E.
      rewrite Qred_correct in E. lra.
    - wp_go. cbn [fst snd]. repeat split; try slen; try assumption.
      apply Forall_insert; assumption. }
  intros [gains losses] ((Hg & Fg) & (Hl & Fl)). cbn [fst snd] in *. wp_go.
  apply (wp_for_le (fun _ st => st.1 = Fin 0 /\ nonneg st.2)).
  { split; [reflexivity|apply nonneg_f0]. }
  { intros j [ag al] Hj [Hag Hal]. cbn [fst snd] in *. wp_go. cbn [fst snd].
    split.
    - match goal with H : gains !! _ = Some ?x |- _ =>
        rewrite (Forall_at _ _ _ _ Fg H) end.
      rewrite Hag. reflexivity.
    - apply nonneg_add; first [assumption | nonneg_at]. }
  intros [sg sl] [Hsg Hsl]. cbn [fst snd] in *. subst sg.
  assert (Hw0 : 0 < window) by lia.
  rewrite (zero_div_int window Hw0).
  pose proof (nonneg_div_int sl window Hw0 Hsl) as Hal0.
  set (al0 := (sl / of_int window)%F) in *.
  wp_go.
  apply (wp_for_lt (fun i st =>
    st.1.1 = Fin 0 /\ nonneg st.1.2 /\
    length st.2 = length values /\
    (forall k, window + 1 <= k < i -> at_ st.2 k = Some (Fin 0)) /\
    (forall k, 0 <= k < len values -> k < window + 1 \/ i <= k -> at_ st.2 k = Some NaN))).
  { cbn [fst snd]. split; [reflexivity|]. split; [exact Hal0|]. split; [slen|].
    split; [intros; lia|]. intros k Hk _. apply at_replicate. slen. }
  { intros i [[ag al] out] Hi (Hag & Hal & Hlen & Hdone & Htodo).
    cbn [fst snd] in *. subst ag.
    apply wp_bind, wp_at; [slen|]. intros g Hg'.
    apply wp_bind, wp_at; [slen|]. intros l Hl'.
    rewrite (Forall_at _ _ _ _ Fg Hg').
    assert (Hnl : nonneg l) by nonneg_at.
    assert (Hw1 : nonneg (of_int (window - 1))) by (apply nonneg_of_int; lia).
    rewrite zero_mul_int.
    change (Fin 0 + Fin 0)%F with (Fin 0).
    rewrite (zero_div_int window Hw0).
    assert (Hal' : nonneg ((al * of_int (window - 1) + l) / of_int window)%F).
    { apply nonneg_div_int; [lia|]. apply nonneg_add; [|exact Hnl].
      apply nonneg_mul; assumption. }
    set (al' := ((al * of_int (window - 1) + l) / of_int window)%F) in *.
    assert (Hrs : (if (al' !=? f0)%F then (Fin 0 / al')%F
                   else if (Fin 0 =? f0)%F then f0 else Fin 1000000000) = Fin 0).
    { destruct (al' !=? f0)%F eqn:E; [apply zero_div; assumption|reflexivity]. }
    rewrite Hrs.
    apply wp_bind, wp_put; [slen|]. apply wp_ret. cbn [fst snd].
    split; [reflexivity|]. split; [exact Hal'|]. split; [slen|]. split.
    - intros k Hk. rewrite at_insert by slen.
      destruct (decide (k = i)) as [->|Hne]; [|apply Hdone; lia].
      reflexivity.
    - intros k Hk Hc. rewrite at_insert by slen.
      rewrite decide_False by lia. apply Htodo; lia. }
  intros [[ag al] out] (Hag & Hal & Hlen & Hdone & Htodo). cbn [fst snd] in *.
  subst ag.
  assert (Hgt : (Fin 0 >? f0)%F = false) by reflexivity.
  rewrite Hgt, andb_false_r.
  assert (Hrs : (if (al !=? f0)%F then (Fin 0 / al)%F else f0) = Fin 0).
  { destruct (al !=? f0)%F eqn:E; [apply zero_div; assumption|reflexivity]. }
  rewrite Hrs. wp_go. split; [slen|]. intros i Hi. rewrite at_insert by slen.
  destruct (decide (i = window)) as [->|Hne].
  - destruct (Z.ltb_spec window window); [lia|]. reflexivity.
  - destruct (Z.ltb_spec i window).
    + apply Htodo; lia.
    + apply Hdone. lia.
Qed.

Lemma RSI_never_rising_is_zero_example :
  let values := [Fin 3; Fin 2; Fin 2; Fin 1] in
  1 <= 2 < Int.max /\ Int.fits (len values) /\ Forall finite values /\
  never_rises values /\
  exists out, RSI values 2 = Some out /\
    length out = length values /\
    forall i, 0 <= i < len values ->
      at_ out i = Some (if i <? 2 then NaN else Fin 0).
Proof.
  intros values.
  assert (H1 : 1 <= 2 < Int.max) by (unfold Int.max; lia).
  assert (H2 : Int.fits (len values))
    by (apply fits_small; vm_compute; split; discriminate).
  assert (H3 : Forall finite values)
    by (repeat (constructor; [eexists; reflexivity|]); constructor).
  assert (H4 := falling_example_never_rises).
  repeat (split; [assumption|]).
  exact (RSI_never_rising_is_zero values 2 H1 H2 H3 H4).
Defined.





(** X10. [RealizedVol] is undefined before index [window]; on a flat
    series it is zero from there on.  The square root is only assumed to
    map 0 to 0 and 252 to a finite number. *)
Theorem RealizedVol_flat_is_zero sqrt values window c :
  1 <= window <= Int.max -> Int.fits (len values) ->
  sqrt (Fin 0) = Fin 0 -> (exists r, sqrt (Fin 252) = Fin r) ->
  Forall (within c c) values ->
  exists out, RealizedVol sqrt values window = Some out /\
    length out = length values /\
    forall i, 0 <= i < len values ->
      at_ out i = Some (if i <? window then NaN else Fin 0).
Proof.
  intros Hw Hf H0 H252 Hflat.
  destruct (RealizedVol_spec sqrt values window ltac:(lia) Hf)
    as (out & E & Hlen & H).
  exists out. split; [exact E|]. split; [exact Hlen|].
  intros i Hi. destruct (H i Hi) as [Hwarm Hrest].
  destruct (Z.ltb_spec i window) as [Hlt|Hge].
  - apply Hwarm. exact Hlt.
  - apply Hrest; try assumption; try lia. exists c. exact Hflat.
Qed.

Lemma RealizedVol_flat_is_zero_example :
  let values := [Fin 5; Fin 5; Fin 5] in
  1 <= 1 <= Int.max /\ Int.fits (len values) /\
  sqrt12 (Fin 0) = Fin 0 /\ (exists r, sqrt12 (Fin 252) = Fin r) /\
  Forall (within 5 5) values /\
  exists out, RealizedVol sqrt12 values 1 = Some out /\
    length out = length values /\
    forall i, 0 <= i < len values ->
      at_ out i = Some (if i <? 1 then NaN else Fin 0).
Proof.
  intros values.
  assert (H1 : 1 <= 1 <= Int.max) by (unfold Int.max; lia).
  assert (H2 : Int.fits (len values))
    by (apply fits_small; vm_compute; split; discriminate).
  assert (H3 : sqrt12 (Fin 0) = Fin 0) by (vm_compute; reflexivity).
  assert (H4 : exists r, sqrt12 (Fin 252) = Fin r)
    by (eexists; vm_compute; reflexivity).
  assert (H5 : Forall (within 5 5) values).
  { repeat (constructor; [eexists; split; [reflexivity|split; discriminate]|]).
    constructor. }
  repeat (split; [assumption|]).
  exact (RealizedVol_flat_is_zero sqrt12 values 1 5 H1 H2 H3 H4 H5).
Defined.

(** X11. A value that is the highest valid value of its trailing window
    scores 100 in direction +1, and so does the lowest one in direction
    -1. *)
Theorem RollingScore_extreme_is_100 values w d i x out :
  1 <= w -> Int.fits w -> Int.fits (len values) ->
  RollingScore values w d = Some out ->
  at_ values i = Some x -> is_nan x = false -> w - 1 <= i ->
  (d = 1 /\ Forall (fun y => (y <=? x)%F = true)
              (valid (positions values (i - w + 1) i))) \/
  (d = -1 /\ Forall (fun y => (x <=? y)%F = true)
               (valid (positions values (i - w + 1) i))) ->
  at_ out i = Some (Fin 100).
Proof.
  intros Hw Hfw Hfl Hout Hx Hnan Hi Hext.
  pose proof (at_Some_range _ _ _ Hx) as Hr.
  destruct (RollingScore_spec values w d ltac:(lia) Hfw Hfl)
    as (out' & E & Hlen & Hspec).
  rewrite Hout in E. injection E as <-.
  rewrite (Hspec i Hr). f_equal. unfold Normalize. rewrite Hx, Hnan.
  destruct (Z.ltb_spec i (w - 1)); [lia|]. cbn [orb].
  set (win := valid (positions values (i - w + 1) i)) in *.
  assert (Hlast : win = valid (positions values (i - w + 1) (i - 1)) ++ [x]).
  { apply window_last; try assumption. rewrite <- at_lookup by lia. exact Hx. }
  assert (Hm : 1 <= len win).
  { rewrite Hlast. unfold len. rewrite length_app. simpl. lia. }
  destruct (Z.eqb_spec (len win) 0); [lia|].
  assert (Hc : count_le (x * of_int d)%F (directed d win) = len win).
  { rewrite <- (len_directed d win). apply count_le_all.
    unfold directed. apply Forall_fmap.
    destruct Hext as [[-> Hall] | [-> Hall]].
    - eapply Forall_impl; [exact Hall|]. intros y Hy. simpl.
      rewrite fle_dir_pos. exact Hy.
    - eapply Forall_impl; [exact Hall|]. intros y Hy. simpl.
      rewrite fle_dir_neg. exact Hy. }
  rewrite Hc.
  assert (Hq : ~ (inject_Z (len win) == 0)%Q) by (unfold Qeq; simpl; lia).
  rewrite (real_eq _ 100); [reflexivity|]. field. exact Hq.
Qed.

Lemma RollingScore_extreme_is_100_example :
  let values := [Fin 4; Fin 3; NaN; Fin 1] in
  let out := [NaN; NaN; NaN; Fin 100] in
  1 <= 3 /\ Int.fits 3 /\ Int.fits (len values) /\
  RollingScore values 3 (-1) = Some out /\
  at_ values 3 = Some (Fin 1) /\ is_nan (Fin 1) = false /\ 3 - 1 <= 3 /\
  ((-1 = 1 /\ Forall (fun y => (y <=? Fin 1)%F = true)
              (valid (positions values (3 - 3 + 1) 3))) \/
   (-1 = -1 /\ Forall (fun y => (Fin 1 <=? y)%F = true)
               (valid (positions values (3 - 3 + 1) 3)))) /\
  at_ out 3 = Some (Fin 100).
Proof.
  intros values out.
  assert (H1 : 1 <= 3) by lia.
  assert (H2 : Int.fits 3) by (apply fits_small; lia).
  assert (H3 : Int.fits (len values))
    by (apply fits_small; vm_compute; split; discriminate).
  assert (H4 : RollingScore values 3 (-1) = Some out) by (vm_compute; reflexivity).
  assert (H5 : at_ values 3 = Some (Fin 1)) by reflexivity.
  assert (H6 : is_nan (Fin 1) = false) by reflexivity.
  assert (H7 : 3 - 1 <= 3) by lia.
  assert (H8 : (-1 = 1 /\ Forall (fun y => (y <=? Fin 1)%F = true)
              (valid (positions values (3 - 3 + 1) 3))) \/
   (-1 = -1 /\ Forall (fun y => (Fin 1 <=? y)%F = true)
               (valid (positions values (3 - 3 + 1) 3)))).
  { right. split; [reflexivity|]. vm_compute. repeat constructor. }
  repeat (split; [assumption|]).
  exact (RollingScore_extreme_is_100 values 3 (-1) 3 (Fin 1) out
           H1 H2 H3 H4 H5 H6 H7 H8).
Defined.

(** X12. The percentile scores only depend on the order of the values:
    a map that keeps undefined values undefined and keeps the order of
    the values of a series leaves its scores unchanged. *)
Theorem RollingScore_order_only f values w d :
  0 <= w -> Int.fits w -> Int.fits (len values) -> d = 1 \/ d = -1 ->
  keeps_order f values ->
  RollingScore (map f values) w d = RollingScore values w d.
Proof.
  intros Hw Hfw Hfl Hd Hf.
  destruct (RollingScore_spec values w d Hw Hfw Hfl) as (out & E & Hlen & H).
  destruct (RollingScore_spec (map f values) w d Hw Hfw
              ltac:(rewrite len_map; exact Hfl)) as (out' & E' & Hlen' & H').
  rewrite E, E'. f_equal. apply list_eq_at.
  - rewrite Hlen, Hlen', length_map. reflexivity.
  - intros k Hk. assert (Hk' : 0 <= k < len values) by (unfold len in *; lia).
    rewrite H by exact Hk'. rewrite H' by (rewrite len_map; exact Hk').
    f_equal. apply Normalize_map; assumption.
Qed.

Lemma RollingScore_order_only_example :
  let values := [Fin 1; Fin 3; NaN; Fin 2] in
  0 <= 2 /\ Int.fits 2 /\ Int.fits (len values) /\ (1 = 1 \/ 1 = -1) /\
  keeps_order twice values /\
  RollingScore (map twice values) 2 1 = RollingScore values 2 1.
Proof.
  intros values.
  assert (H1 : 0 <= 2) by lia.
  assert (H2 : Int.fits 2) by (apply fits_small; lia).
  assert (H3 : Int.fits (len values))
    by (apply fits_small; vm_compute; split; discriminate).
  assert (H4 : 1 = 1 \/ 1 = -1) by (left; reflexivity).
  assert (H5 : keeps_order twice values)
    by (unfold keeps_order; repeat constructor).
  repeat (split; [assumption|]).
  exact (RollingScore_order_only twice values 2 1 H1 H2 H3 H4 H5).
Defined.

(** * Further properties of the engine *)

(** ** Ranges of the scores *)

Lemma Normalize_range s w d i :
  0 <= w -> d = 1 \/ d = -1 -> score_ok (Normalize s w d i).
Proof.
  intros Hw Hd.
  destruct (Normalize_nan_or_fin s w d i) as [E | [q E]]; [left; exact E|].
  right. exists q. split; [exact E|].
  assert (Hnan : is_nan (Fin q) = false) by reflexivity.
  destruct (Normalize_defined _ _ _ _ _ Hw E Hnan)
    as (x & Hx & Hxn & Hw1 & Hi & Hm & Hq).
  assert (Hxl : s !! Z.to_nat i = Some x).
  { rewrite <- at_lookup by lia. exact Hx. }
  set (m := len (valid (positions s (i - w + 1) i))) in *.
  set (c := count_le _ _) in Hq.
  assert (Hc : 1 <= c <= m).
  { subst c m. split.
    - rewrite (window_last s w i x) by assumption.
      apply count_le_last; assumption.
    - pose proof (count_le_bounds (x * of_int d)%F
        (directed d (valid (positions s (i - w + 1) i)))) as Hb.
      rewrite len_directed in Hb. lia. }
  injection Hq as ->.
  assert (Hmq : (0 < inject_Z m)%Q).
  { rewrite <- (Zlt_Qlt 0). lia. }
  assert (Hcq : (1 <= inject_Z c)%Q /\ (inject_Z c <= inject_Z m)%Q).
  { rewrite <- (Zle_Qle 1), <- Zle_Qle. lia. }
  rewrite Qred_correct. split.
  - apply Qlt_shift_div_l; [exact Hmq|]. lra.
  - apply Qle_shift_div_r; [exact Hmq|]. lra.
Qed.

Lemma weighted_sum_range l :
  Forall (fun kv : string * float64 =>
            weighted_key kv.1 /\ exists q, kv.2 = Fin q /\ (0 < q <= 100)%Q) l ->
  l <> [] ->
  (0 < weight_sum l)%Q /\ (0 < weighted_sum l)%Q /\
  (weighted_sum l <= 100 * weight_sum l)%Q.
Proof.
  induction 1 as [|[k s] l [(wq & Hwq & Hpos) (q & Hq & Hr)] Hl IH];
    intros Hne; [contradiction|].
  simpl in Hwq, Hq. simpl. rewrite Hwq, Hq. simpl.
  assert (H1 : (0 < q * wq)%Q) by (apply Qmult_lt_0_compat; lra).
  assert (H2 : (0 <= (100 - q) * wq)%Q) by (apply Qmult_le_0_compat; lra).
  destruct l as [|kv l'].
  - simpl. repeat split; lra.
  - destruct IH as (A & B & C); [discriminate|].
    repeat split; lra.
Qed.

Lemma aggregate_range v :
  Forall (fun kv : string * float64 => score_ok kv.2) (keyed v) ->
  score_ok (aggregate v).
Proof.
  intros Hv. unfold aggregate.
  destruct (defined_scores v) as [|kv l'] eqn:El; [left; reflexivity|].
  right. eexists. split; [reflexivity|].
  destruct (weighted_sum_range (kv :: l')) as (A & B & C); [|discriminate|].
  - rewrite <- El. unfold defined_scores. apply Forall_forall.
    intros x [Hx Hin]%list_elem_of_filter. split.
    + exact (proj1 (Forall_forall _ _) (keyed_weighted v) x Hin).
    + pose proof (proj1 (Forall_forall _ _) Hv x Hin) as [E | H].
      * rewrite E in Hx. discriminate.
      * exact H.
  - rewrite Qred_correct. split.
    + apply Qlt_shift_div_l; [exact A|]. lra.
    + apply Qle_shift_div_r; [exact A|]. lra.
Qed.

Lemma score_ok_nan_or_fin x : score_ok x -> nan_or_fin x.
Proof. intros [E | (q & E & _)]; [left | right; exists q]; exact E. Qed.

Lemma bar_result_label p lang raw v :
  models.ScoreResult.Label (bar_result p lang raw v)
  = LabelFromScore (models.ScoreResult.Score (bar_result p lang raw v)) lang.
Proof.
  unfold bar_result. destruct (foldl _ _ _) as [W S].
  destruct (W >? f0)%F; reflexivity.
Qed.

Lemma norm_window_ge cfg n : 10 <= norm_window cfg n.
Proof.
  unfold norm_window.
  destruct (n <? NormWindow cfg);
    match goal with |- context [?a <? 10] => destruct (Z.ltb_spec a 10) end; lia.
Qed.

Lemma norm_window_le cfg n : 10 <= n -> norm_window cfg n <= n.
Proof.
  unfold norm_window. intros Hn.
  destruct (Z.ltb_spec n (NormWindow cfg));
    match goal with |- context [?a <? 10] => destruct (Z.ltb_spec a 10) end; lia.
Qed.

(** What every record of [Compute] satisfies. *)
Lemma Compute_record sqrt pf cfg lang results i r :
  Config_ok cfg -> Int.fits (len (models.PriceFrame.Prices pf)) ->
  Compute sqrt pf cfg lang = Some results -> at_ results i = Some r ->
  exists p, at_ (models.PriceFrame.Prices pf) i = Some p /\
    models.ScoreResult.Date r = models.Price.Date p /\
    models.ScoreResult.Price r = models.Price.Close p /\
    models.ScoreResult.Label r
    = LabelFromScore (models.ScoreResult.Score r) lang /\
    models.Parts.VolSent (models.ScoreResult.Values r) = f0 /\
    models.Parts.VolSent (models.ScoreResult.Raw r) = f0 /\
    models.Parts.MFI (models.ScoreResult.Raw r) = f0 /\
    models.Parts.BB (models.ScoreResult.Raw r) = f0.
Proof.
  intros Hc Hf E Hr.
  destruct (Compute_bar sqrt pf cfg lang results i r Hc Hf E Hr)
    as (S & p & rT & rM & rR & rC & rD & rV & _ & Hp & _ & _ & _ & _ & _ & _ & Hbar).
  simpl in Hbar. exists p. split; [exact Hp|]. subst r.
  rewrite bar_result_label.
  destruct (bar_result_fields p lang
    (models.Parts.mk rT rM rR rC rD rV f0 f0 f0)
    (models.Parts.mk
             (Normalize (s_trend S) (norm_window cfg (len (models.PriceFrame.Prices pf))) 1 i)
             (Normalize (s_mom S) (norm_window cfg (len (models.PriceFrame.Prices pf))) 1 i)
             (Normalize (s_rsi S) (norm_window cfg (len (models.PriceFrame.Prices pf))) 1 i)
             (Normalize (s_macd S) (norm_window cfg (len (models.PriceFrame.Prices pf))) 1 i)
             (Normalize (s_dd S) (norm_window cfg (len (models.PriceFrame.Prices pf))) 1 i)
             (Normalize (s_vol S) (norm_window cfg (len (models.PriceFrame.Prices pf))) (-1) i)
             f0
             (Normalize (s_mfi S) (norm_window cfg (len (models.PriceFrame.Prices pf))) 1 i)
             (Normalize (s_bb S) (norm_window cfg (len (models.PriceFrame.Prices pf))) 1 i)))
    as (-> & -> & -> & ->).
  repeat split.
Qed.

(** The scores of a record are undefined or lie in (0, 100]. *)
Lemma Compute_scores_range sqrt pf cfg lang results i r :
  Config_ok cfg -> Int.fits (len (models.PriceFrame.Prices pf)) ->
  Compute sqrt pf cfg lang = Some results -> at_ results i = Some r ->
  score_ok (models.ScoreResult.Score r) /\
  Forall (fun kv : string * float64 => score_ok kv.2)
    (keyed (models.ScoreResult.Values r)).
Proof.
  intros Hc Hf E Hr.
  destruct (Compute_bar sqrt pf cfg lang results i r Hc Hf E Hr)
    as (S & p & rT & rM & rR & rC & rD & rV & _ & Hp & _ & _ & _ & _ & _ & _ & Hbar).
  simpl in Hbar. subst r.
  pose proof (norm_window_ge cfg (len (models.PriceFrame.Prices pf))) as Hw.
  set (w := norm_window cfg _) in *.
  rewrite (proj1 (bar_result_fields _ _ _ _)).
  assert (Hall : Forall (fun kv : string * float64 => score_ok kv.2)
    (keyed (models.Parts.mk
             (Normalize (s_trend S) w 1 i) (Normalize (s_mom S) w 1 i)
             (Normalize (s_rsi S) w 1 i) (Normalize (s_macd S) w 1 i)
             (Normalize (s_dd S) w 1 i) (Normalize (s_vol S) w (-1) i)
             f0
             (Normalize (s_mfi S) w 1 i) (Normalize (s_bb S) w 1 i)))).
  { unfold keyed. simpl.
    repeat (constructor; [apply Normalize_range; [lia|tauto]|]). constructor. }
  split; [|exact Hall].
  rewrite bar_result_score.
  - apply aggregate_range. exact Hall.
  - eapply Forall_impl; [exact Hall|]. intros kv. apply score_ok_nan_or_fin.
Qed.

(** ** Warm-up *)

Lemma Normalize_warmup s w d i : i < w - 1 -> Normalize s w d i = NaN.
Proof.
  intros H. unfold Normalize. destruct (at_ s i); [|reflexivity].
  apply Z.ltb_lt in H. rewrite H. reflexivity.
Qed.

Lemma Normalize_of_defined s w d i x :
  1 <= w -> w - 1 <= i -> at_ s i = Some x -> is_nan x = false ->
  exists q, Normalize s w d i = Fin q.
Proof.
  intros Hw Hi Hx Hn. pose proof (at_Some_range _ _ _ Hx) as Hr.
  unfold Normalize. rewrite Hx, Hn.
  destruct (Z.ltb_spec i (w - 1)); [lia|]. cbn [orb].
  rewrite (window_last s w i x); try assumption;
    [|rewrite <- at_lookup by lia; exact Hx].
  match goal with |- context [len ?l =? 0] =>
    destruct (Z.eqb_spec (len l) 0) as [E|E] end.
  - unfold len in E. rewrite length_app in E. simpl in E. lia.
  - eexists. reflexivity.
Qed.

Lemma aggregate_nan v :
  Forall (fun kv : string * float64 => kv.2 = NaN) (keyed v) -> aggregate v = NaN.
Proof.
  intros H. unfold aggregate, defined_scores.
  replace (filter _ (keyed v)) with (@nil (string * float64)); [reflexivity|].
  symmetry. induction H as [|kv l E _ IH]; [reflexivity|].
  rewrite filter_cons, decide_False; [exact IH|]. rewrite E. discriminate.
Qed.

(** Before bar [norm_window - 1] nothing is scored. *)
Lemma Compute_warmup sqrt pf cfg lang results i r :
  Config_ok cfg -> Int.fits (len (models.PriceFrame.Prices pf)) ->
  Compute sqrt pf cfg lang = Some results -> at_ results i = Some r ->
  i < norm_window cfg (len (models.PriceFrame.Prices pf)) - 1 ->
  models.ScoreResult.Score r = NaN /\ models.ScoreResult.Label r = "-"%string /\
  Forall (fun kv : string * float64 => kv.2 = NaN)
    (keyed (models.ScoreResult.Values r)).
Proof.
  intros Hc Hf E Hr Hi.
  destruct (Compute_bar sqrt pf cfg lang results i r Hc Hf E Hr)
    as (S & p & rT & rM & rR & rC & rD & rV & _ & Hp & _ & _ & _ & _ & _ & _ & Hbar).
  simpl in Hbar. subst r.
  set (w := norm_window cfg _) in *.
  rewrite bar_result_label. rewrite (proj1 (bar_result_fields _ _ _ _)).
  rewrite !(Normalize_warmup _ w _ i Hi).
  assert (Hall : Forall (fun kv : string * float64 => kv.2 = NaN)
            (keyed (models.Parts.mk NaN NaN NaN NaN NaN NaN f0 NaN NaN))).
  { unfold keyed. simpl. repeat constructor. }
  assert (Hs : models.ScoreResult.Score (bar_result p lang
             (models.Parts.mk rT rM rR rC rD rV f0 f0 f0)
             (models.Parts.mk NaN NaN NaN NaN NaN NaN f0 NaN NaN)) = NaN).
  { rewrite bar_result_score.
    - apply aggregate_nan. exact Hall.
    - eapply Forall_impl; [exact Hall|]. intros kv ->. left. reflexivity. }
  rewrite Hs. repeat split. exact Hall.
Qed.

(** From bar [norm_window - 1] on, finite closes give a score. *)
Lemma Compute_defined sqrt pf cfg lang results i r :
  Config_ok cfg -> Int.fits (len (models.PriceFrame.Prices pf)) ->
  Forall finite (map models.Price.Close (models.PriceFrame.Prices pf)) ->
  Compute sqrt pf cfg lang = Some results -> at_ results i = Some r ->
  norm_window cfg (len (models.PriceFrame.Prices pf)) - 1 <= i ->
  exists q, models.ScoreResult.Score r = Fin q /\ (0 < q <= 100)%Q.
Proof.
  intros Hc Hf Hfin E Hr Hi.
  destruct (Compute_scores_range sqrt pf cfg lang results i r Hc Hf E Hr)
    as [[Hnan | Hok] _]; [|exact Hok].
  exfalso.
  destruct (Compute_bar sqrt pf cfg lang results i r Hc Hf E Hr)
    as (S & p & rT & rM & rR & rC & rD & rV & HS & Hp & HT & _ & _ & _ & _ & _ & Hbar).
  simpl in Hbar. subst r.
  pose proof (norm_window_ge cfg (len (models.PriceFrame.Prices pf))) as Hw.
  set (w := norm_window cfg _) in *.
  destruct HS as (Hfast & Hslow & _ & _ & _ & _ & _ & _ & Htrend & _).
  pose proof (at_Some_range _ _ _ Hp) as Hrange.
  set (prices := models.PriceFrame.Prices pf) in *.
  set (closes := map models.Price.Close prices) in *.
  assert (Hlc : len closes = len prices) by apply len_map.
  destruct Hc as (HcF & HcS & _).
  pose proof (wp_elim _ _ _ (SMA_spec closes (MAFast cfg) HcF
    ltac:(rewrite Hlc; exact Hf) Hfin) Hfast) as [_ HF].
  pose proof (wp_elim _ _ _ (SMA_spec closes (MASlow cfg) HcS
    ltac:(rewrite Hlc; exact Hf) Hfin) Hslow) as [_ HSl].
  specialize (HF i ltac:(lia)). specialize (HSl i ltac:(lia)).
  pose proof (Htrend i p _ _ Hp HF HSl) as Ht.
  assert (Hcp : exists c, models.Price.Close p = Fin c).
  { assert (Hl : closes !! Z.to_nat i = Some (models.Price.Close p)).
    { rewrite <- at_lookup by lia. unfold closes. rewrite at_map, Hp. reflexivity. }
    exact (Forall_at _ _ _ _ Hfin Hl). }
  destruct Hcp as [c Hcp]. rewrite Hcp, trend_at_eq in Ht.
  destruct (Normalize_of_defined (s_trend S) w 1 i _ ltac:(lia) Hi Ht eq_refl)
    as [q Hq].
  rewrite bar_result_score in Hnan.
  - unfold aggregate, defined_scores, keyed in Hnan. cbn [models.Parts.Trend] in Hnan.
    rewrite Hq in Hnan. rewrite filter_cons in Hnan.
    rewrite decide_True in Hnan by reflexivity. discriminate.
  - unfold keyed. simpl.
    repeat (constructor; [apply Normalize_nan_or_fin|]). constructor.
Qed.

(** ** The fields that are read *)

Lemma for_from_ext {St} n i (body body' : Z -> St -> option St) s :
  (forall j s, i <= j < i + Z.of_nat n -> body j s = body' j s) ->
  for_from n i body s = for_from n i body' s.
Proof.
  revert i s. induction n as [|n IH]; intros i s H; [reflexivity|].
  simpl. rewrite (H i s) by lia.
  destruct (body' i s) as [s'|]; [|reflexivity]. simpl.
  apply IH. intros j s0 Hj. apply H. lia.
Qed.

Lemma for_lt_ext {St} lo hi (body body' : Z -> St -> option St) s :
  (forall j s, lo <= j < hi -> body j s = body' j s) ->
  for_lt lo hi body s = for_lt lo hi body' s.
Proof.
  intros H. unfold for_lt. apply for_from_ext. intros j s0 Hj. apply H. lia.
Qed.

Lemma same_inputs_at prices prices' i :
  Forall2 same_inputs prices prices' -> 0 <= i < len prices ->
  exists p p', at_ prices i = Some p /\ at_ prices' i = Some p' /\
    same_inputs p p'.
Proof.
  intros H Hi. rewrite !at_lookup by lia.
  destruct (lookup_lt_is_Some_2 prices (Z.to_nat i)) as [p Hp];
    [unfold len in Hi; lia|].
  destruct (Forall2_lookup_l _ _ _ _ _ H Hp) as (p' & Hp' & Hs).
  exists p, p'. split; [exact Hp|]. split; [exact Hp'|exact Hs].
Qed.

Lemma ten_bars_finite :
  Forall finite (map models.Price.Close (models.PriceFrame.Prices ten_bars)).
Proof. repeat (constructor; [eexists; reflexivity|]). constructor. Qed.

(** [Compute] never fails for a valid configuration. *)
Lemma Compute_total sqrt pf cfg lang :
  Config_ok cfg -> Int.fits (len (models.PriceFrame.Prices pf)) ->
  exists results, Compute sqrt pf cfg lang = Some results /\
    length results = length (models.PriceFrame.Prices pf).
Proof.
  intros Hc Hf.
  destruct (decide (len (models.PriceFrame.Prices pf) = 0)) as [H0|H0].
  - exists []. unfold Compute. rewrite H0. simpl. split; [reflexivity|].
    unfold len in H0. lia.
  - destruct (Compute_spec sqrt pf cfg lang Hc Hf H0) as (results & E & S & HS).
    exists results. split; [exact E|].
    destruct HS as (_ & _ & _ & _ & _ & _ & _ & _ & _ & _ & Hlen & _).
    exact Hlen.
Qed.

(** ** What the records of [Compute] hold *)

(** X13. Every record of [Compute] carries the date and the close of its
    bar, and its label is the one [LabelFromScore] gives for its score;
    the volume-sentiment fields and the raw MFI and Bollinger fields are
    never filled and stay zero. *)
Theorem Compute_record_of_bar sqrt pf cfg lang results i r :
  Config_ok cfg -> Int.fits (len (models.PriceFrame.Prices pf)) ->
  Compute sqrt pf cfg lang = Some results -> at_ results i = Some r ->
  exists p, at_ (models.PriceFrame.Prices pf) i = Some p /\
    models.ScoreResult.Date r = models.Price.Date p /\
    models.ScoreResult.Price r = models.Price.Close p /\
    models.ScoreResult.Label r
    = LabelFromScore (models.ScoreResult.Score r) lang /\
    models.Parts.VolSent (models.ScoreResult.Values r) = f0 /\
    models.Parts.VolSent (models.ScoreResult.Raw r) = f0 /\
    models.Parts.MFI (models.ScoreResult.Raw r) = f0 /\
    models.Parts.BB (models.ScoreResult.Raw r) = f0.
Proof. exact (Compute_record sqrt pf cfg lang results i r). Qed.

Lemma Compute_record_of_bar_example :
  Config_ok DefaultConfig /\
  Int.fits (len (models.PriceFrame.Prices ten_bars)) /\
  Compute sqrt12 ten_bars DefaultConfig "en" = Some ten_bars_results /\
  at_ ten_bars_results 9 = Some ten_bars_last /\
  exists p, at_ (models.PriceFrame.Prices ten_bars) 9 = Some p /\
    models.ScoreResult.Date ten_bars_last = models.Price.Date p /\
    models.ScoreResult.Price ten_bars_last = models.Price.Close p /\
    models.ScoreResult.Label ten_bars_last
    = LabelFromScore (models.ScoreResult.Score ten_bars_last) "en" /\
    models.Parts.VolSent (models.ScoreResult.Values ten_bars_last) = f0 /\
    models.Parts.VolSent (models.ScoreResult.Raw ten_bars_last) = f0 /\
    models.Parts.MFI (models.ScoreResult.Raw ten_bars_last) = f0 /\
    models.Parts.BB (models.ScoreResult.Raw ten_bars_last) = f0.
Proof.
  assert (H1 := DefaultConfig_ok).
  assert (H2 : Int.fits (len (models.PriceFrame.Prices ten_bars))).
  { apply fits_small. vm_compute. split; discriminate. }
  assert (H3 : Compute sqrt12 ten_bars DefaultConfig "en" = Some ten_bars_results)
    by (vm_compute; reflexivity).
  assert (H4 : at_ ten_bars_results 9 = Some ten_bars_last)
    by (vm_compute; reflexivity).
  repeat (split; [assumption|]).
  exact (Compute_record_of_bar sqrt12 ten_bars DefaultConfig "en"
           ten_bars_results 9 ten_bars_last H1 H2 H3 H4).
Defined.

(** X14. The score of a record and each of its eight sub-scores is either
    undefined or a number greater than 0 and at most 100. *)
Theorem Compute_scores_in_range sqrt pf cfg lang results i r :
  Config_ok cfg -> Int.fits (len (models.PriceFrame.Prices pf)) ->
  Compute sqrt pf cfg lang = Some results -> at_ results i = Some r ->
  score_ok (models.ScoreResult.Score r) /\
  Forall (fun kv : string * float64 => score_ok kv.2)
    (keyed (models.ScoreResult.Values r)).
Proof. exact (Compute_scores_range sqrt pf cfg lang results i r). Qed.

Lemma Compute_scores_in_range_example :
  Config_ok DefaultConfig /\
  Int.fits (len (models.PriceFrame.Prices ten_bars)) /\
  Compute sqrt12 ten_bars DefaultConfig "en" = Some ten_bars_results /\
  at_ ten_bars_results 9 = Some ten_bars_last /\
  score_ok (models.ScoreResult.Score ten_bars_last) /\
  Forall (fun kv : string * float64 => score_ok kv.2)
    (keyed (models.ScoreResult.Values ten_bars_last)).
Proof.
  assert (H1 := DefaultConfig_ok).
  assert (H2 : Int.fits (len (models.PriceFrame.Prices ten_bars))).
  { apply fits_small. vm_compute. split; discriminate. }
  assert (H3 : Compute sqrt12 ten_bars DefaultConfig "en" = Some ten_bars_results)
    by (vm_compute; reflexivity).
  assert (H4 : at_ ten_bars_results 9 = Some ten_bars_last)
    by (vm_compute; reflexivity).
  repeat (split; [assumption|]).
  exact (Compute_scores_in_range sqrt12 ten_bars DefaultConfig "en"
           ten_bars_results 9 ten_bars_last H1 H2 H3 H4).
Defined.

(** X15. Before bar [norm_window - 1] nothing is scored: the eight
    sub-scores and the score are undefined and the label is "-".  The
    normalisation window is at least 10, so this holds for every bar of a
    frame of fewer than ten bars. *)
Theorem Compute_warm_up sqrt pf cfg lang results i r :
  Config_ok cfg -> Int.fits (len (models.PriceFrame.Prices pf)) ->
  Compute sqrt pf cfg lang = Some results -> at_ results i = Some r ->
  i < norm_window cfg (len (models.PriceFrame.Prices pf)) - 1 ->
  10 <= norm_window cfg (len (models.PriceFrame.Prices pf)) /\
  models.ScoreResult.Score r = NaN /\ models.ScoreResult.Label r = "-"%string /\
  Forall (fun kv : string * float64 => kv.2 = NaN)
    (keyed (models.ScoreResult.Values r)).
Proof.
  intros Hc Hf E Hr Hi. split; [apply norm_window_ge|].
  exact (Compute_warmup sqrt pf cfg lang results i r Hc Hf E Hr Hi).
Qed.

Lemma Compute_warm_up_example :
  Config_ok DefaultConfig /\
  Int.fits (len (models.PriceFrame.Prices ten_bars)) /\
  Compute sqrt12 ten_bars DefaultConfig "en" = Some ten_bars_results /\
  at_ ten_bars_results 3 = Some ten_bars_early /\
  3 < norm_window DefaultConfig (len (models.PriceFrame.Prices ten_bars)) - 1 /\
  10 <= norm_window DefaultConfig (len (models.PriceFrame.Prices ten_bars)) /\
  models.ScoreResult.Score ten_bars_early = NaN /\
  models.ScoreResult.Label ten_bars_early = "-"%string /\
  Forall (fun kv : string * float64 => kv.2 = NaN)
    (keyed (models.ScoreResult.Values ten_bars_early)).
Proof.
  assert (H1 := DefaultConfig_ok).
  assert (H2 : Int.fits (len (models.PriceFrame.Prices ten_bars))).
  { apply fits_small. vm_compute. split; discriminate. }
  assert (H3 : Compute sqrt12 ten_bars DefaultConfig "en" = Some ten_bars_results)
    by (vm_compute; reflexivity).
  assert (H4 : at_ ten_bars_results 3 = Some ten_bars_early)
    by (vm_compute; reflexivity).
  assert (H5 : 3 < norm_window DefaultConfig
                     (len (models.PriceFrame.Prices ten_bars)) - 1)
    by (vm_compute; reflexivity).
  repeat (split; [assumption|]).
  exact (Compute_warm_up sqrt12 ten_bars DefaultConfig "en"
           ten_bars_results 3 ten_bars_early H1 H2 H3 H4 H5).
Defined.

(** X16. From bar [norm_window - 1] on every bar of a frame with finite
    closes has a score: the trend sub-score is always defined there, so
    the weighted mean is a number greater than 0 and at most 100. *)
Theorem Compute_scored_after_warm_up sqrt pf cfg lang results i r :
  Config_ok cfg -> Int.fits (len (models.PriceFrame.Prices pf)) ->
  Forall finite (map models.Price.Close (models.PriceFrame.Prices pf)) ->
  Compute sqrt pf cfg lang = Some results -> at_ results i = Some r ->
  norm_window cfg (len (models.PriceFrame.Prices pf)) - 1 <= i ->
  exists q, models.ScoreResult.Score r = Fin q /\ (0 < q <= 100)%Q.
Proof. exact (Compute_defined sqrt pf cfg lang results i r). Qed.

Lemma Compute_scored_after_warm_up_example :
  Config_ok DefaultConfig /\
  Int.fits (len (models.PriceFrame.Prices ten_bars)) /\
  Forall finite (map models.Price.Close (models.PriceFrame.Prices ten_bars)) /\
  Compute sqrt12 ten_bars DefaultConfig "en" = Some ten_bars_results /\
  at_ ten_bars_results 9 = Some ten_bars_last /\
  norm_window DefaultConfig (len (models.PriceFrame.Prices ten_bars)) - 1 <= 9 /\
  exists q, models.ScoreResult.Score ten_bars_last = Fin q /\ (0 < q <= 100)%Q.
Proof.
  assert (H1 := DefaultConfig_ok).
  assert (H2 : Int.fits (len (models.PriceFrame.Prices ten_bars))).
  { apply fits_small. vm_compute. split; discriminate. }
  assert (H3 := ten_bars_finite).
  assert (H4 : Compute sqrt12 ten_bars DefaultConfig "en" = Some ten_bars_results)
    by (vm_compute; reflexivity).
  assert (H5 : at_ ten_bars_results 9 = Some ten_bars_last)
    by (vm_compute; reflexivity).
  assert (H6 : norm_window DefaultConfig
                 (len (models.PriceFrame.Prices ten_bars)) - 1 <= 9)
    by (vm_compute; discriminate).
  repeat (split; [assumption|]).
  exact (Compute_scored_after_warm_up sqrt12 ten_bars DefaultConfig "en"
           ten_bars_results 9 ten_bars_last H1 H2 H3 H4 H5 H6).
Defined.

(** X17. [Compute] reads the date, high, low, close and volume of each
    bar and nothing else: two frames whose bars agree on these five
    fields give the same result, whatever their opening prices, tickers
    and frequencies. *)
Theorem Compute_reads_five_fields sqrt pf pf' cfg lang :
  Forall2 same_inputs (models.PriceFrame.Prices pf)
    (models.PriceFrame.Prices pf') ->
  Compute sqrt pf cfg lang = Compute sqrt pf' cfg lang.
Proof.
  intros H. unfold Compute.
  assert (Hlen : len (models.PriceFrame.Prices pf')
                 = len (models.PriceFrame.Prices pf)).
  { unfold len. rewrite (Forall2_length _ _ _ H). reflexivity. }
  rewrite Hlen.
  set (prices := models.PriceFrame.Prices pf) in *.
  set (prices' := models.PriceFrame.Prices pf') in *.
  set (n := len prices) in *.
  destruct (n =? 0); [reflexivity|].
  apply option_bind_ext.
  2:{ apply for_lt_ext. intros j [[[c v] h] l] Hj.
      destruct (same_inputs_at prices prices' j H Hj) as (p & p' & -> & -> & Hs).
      destruct p, p'. unfold same_inputs in Hs. simpl in Hs.
      destruct Hs as (_ & -> & -> & -> & ->). reflexivity. }
  intros [[[closes volumes] highs] lows].
  repeat (apply option_bind_ext; [intros ?|reflexivity]).
  apply option_bind_ext; [reflexivity|].
  apply for_lt_ext. intros j results Hj.
  destruct (same_inputs_at prices prices' j H Hj) as (p & p' & -> & -> & Hs).
  destruct p, p'. unfold same_inputs in Hs. simpl in Hs.
  destruct Hs as (-> & _ & _ & -> & _). reflexivity.
Qed.

Lemma Compute_reads_five_fields_example :
  Forall2 same_inputs (models.PriceFrame.Prices ten_bars)
    (models.PriceFrame.Prices ten_bars_reopened) /\
  Compute sqrt12 ten_bars DefaultConfig "en"
  = Compute sqrt12 ten_bars_reopened DefaultConfig "en".
Proof.
  assert (H1 : Forall2 same_inputs (models.PriceFrame.Prices ten_bars)
                 (models.PriceFrame.Prices ten_bars_reopened))
    by (repeat constructor).
  split; [exact H1|].
  exact (Compute_reads_five_fields sqrt12 ten_bars ten_bars_reopened
           DefaultConfig "en" H1).
Defined.

(** X18. A frame of at least ten bars that is not longer than the
    reference window is normalised over its whole length, so with finite
    closes exactly one of its bars is scored: the last one. *)
Theorem Compute_short_frame_scores_last_bar sqrt pf cfg lang results i r :
  Config_ok cfg -> Int.fits (len (models.PriceFrame.Prices pf)) ->
  Forall finite (map models.Price.Close (models.PriceFrame.Prices pf)) ->
  10 <= len (models.PriceFrame.Prices pf) <= NormWindow cfg ->
  Compute sqrt pf cfg lang = Some results -> at_ results i = Some r ->
  (is_nan (models.ScoreResult.Score r) = false
   <-> i = len (models.PriceFrame.Prices pf) - 1).
Proof.
  intros Hc Hf Hfin Hn E Hr.
  assert (Hw : norm_window cfg (len (models.PriceFrame.Prices pf))
               = len (models.PriceFrame.Prices pf)).
  { unfold norm_window.
    destruct (Z.ltb_spec (len (models.PriceFrame.Prices pf)) (NormWindow cfg)).
    - destruct (Z.ltb_spec (len (models.PriceFrame.Prices pf)) 10); lia.
    - destruct (Z.ltb_spec (NormWindow cfg) 10); lia. }
  pose proof (at_Some_range _ _ _ Hr) as Hi.
  destruct (Compute_total sqrt pf cfg lang Hc Hf) as (results' & E' & Hlen).
  rewrite E in E'. injection E' as <-.
  assert (Hi' : 0 <= i < len (models.PriceFrame.Prices pf)).
  { unfold len in *. lia. }
  split.
  - intros Hs.
    destruct (Z.lt_ge_cases i (len (models.PriceFrame.Prices pf) - 1))
      as [Hlt|Hge]; [|lia].
    destruct (Compute_warmup sqrt pf cfg lang results i r Hc Hf E Hr)
      as (Hnan & _); [lia|].
    rewrite Hnan in Hs. discriminate.
  - intros ->.
    destruct (Compute_defined sqrt pf cfg lang results _ r Hc Hf Hfin E Hr)
      as (q & -> & _); [lia|reflexivity].
Qed.

Lemma Compute_short_frame_scores_last_bar_example :
  Config_ok DefaultConfig /\
  Int.fits (len (models.PriceFrame.Prices ten_bars)) /\
  Forall finite (map models.Price.Close (models.PriceFrame.Prices ten_bars)) /\
  10 <= len (models.PriceFrame.Prices ten_bars) <= NormWindow DefaultConfig /\
  Compute sqrt12 ten_bars DefaultConfig "en" = Some ten_bars_results /\
  at_ ten_bars_results 9 = Some ten_bars_last /\
  (is_nan (models.ScoreResult.Score ten_bars_last) = false
   <-> 9 = len (models.PriceFrame.Prices ten_bars) - 1).
Proof.
  assert (H1 := DefaultConfig_ok).
  assert (H2 : Int.fits (len (models.PriceFrame.Prices ten_bars))).
  { apply fits_small. vm_compute. split; discriminate. }
  assert (H3 := ten_bars_finite).
  assert (H4 : 10 <= len (models.PriceFrame.Prices ten_bars)
               <= NormWindow DefaultConfig)
    by (vm_compute; split; discriminate).
  assert (H5 : Compute sqrt12 ten_bars DefaultConfig "en" = Some ten_bars_results)
    by (vm_compute; reflexivity).
  assert (H6 : at_ ten_bars_results 9 = Some ten_bars_last)
    by (vm_compute; reflexivity).
  repeat (split; [assumption|]).
  exact (Compute_short_frame_scores_last_bar sqrt12 ten_bars DefaultConfig "en"
           ten_bars_results 9 ten_bars_last H1 H2 H3 H4 H5 H6).
Defined.

(** * The score endpoint *)

(** ** The start index and the series *)

Lemma first_from_range start results i k :
  0 <= i -> 0 <= k ->
  0 <= api.first_from start results i k /\
  (api.first_from start results i k < i + len results \/
   api.first_from start results i k = k).
Proof.
  revert i. induction results as [|r rest IH]; intros i Hi Hk; simpl.
  - split; [lia|]. right. reflexivity.
  - unfold len. simpl length.
    destruct (negb _).
    + split; [lia|]. left. lia.
    + destruct (IH (i + 1) ltac:(lia) Hk) as [A B]. split; [exact A|].
      unfold len in B. destruct B as [B|B]; [left; lia|right; exact B].
Qed.

Lemma startIdx_range start tail results :
  Int.fits (len results) ->
  0 <= api.startIdx start tail results <= len results /\
  (results <> [] -> api.startIdx start tail results < len results).
Proof.
  intros Hf. pose proof (len_nonneg results) as Hn.
  assert (Hne : results <> [] -> 0 < len results).
  { destruct results; [congruence|]. intros _. unfold len. simpl. lia. }
  unfold api.startIdx.
  set (k0 := if negb (api.IsZero start) then _ else _).
  destruct (Z.geb_spec k0 (len results)) as [G|G].
  - rewrite Int_sub_id by int_lia.
    destruct (Z.ltb_spec (len results - 1) 0); split; try lia; intros Hr%Hne; lia.
  - destruct (Z.ltb_spec k0 0); split; try lia; intros Hr%Hne; lia.
Qed.

Lemma safeSeries_spec format k results :
  0 <= k <= len results -> Int.fits (len results) ->
  api.safeSeries format k results
  = Some (map (safe_of format) (drop (Z.to_nat k) results)).
Proof.
  intros Hk Hf. unfold api.safeSeries.
  rewrite Int_sub_id by int_lia.
  destruct (Z.ltb_spec (len results - k) 0); [lia|].
  assert (W : wp (for_lt k (len results) (fun i safeSeries =>
      r ← at_ results i;
      let s := if negb (is_nan (models.ScoreResult.Score r))
               then Some (models.ScoreResult.Score r) else None in
      Some (safeSeries ++
              [api.SafeScore.mk (format (models.ScoreResult.Date r)) s
                 (models.ScoreResult.Label r) (models.ScoreResult.Price r)])) [])
    (fun out => out = map (safe_of format) (drop (Z.to_nat k) results))).
  { apply (wp_for_lt (fun j out =>
      k <= j <= len results /\
      out = map (safe_of format) (positions results k (j - 1)))).
    - split; [lia|]. rewrite positions_empty by lia. reflexivity.
    - intros j out Hj [_ ->].
      destruct (at_is_Some results j ltac:(lia)) as [r Hr]. rewrite Hr.
      apply wp_ret. split; [lia|].
      replace (j + 1 - 1) with j by lia.
      rewrite (positions_snoc results k j r);
        [|lia|rewrite <- at_lookup by lia; exact Hr].
      rewrite map_app. simpl. f_equal. f_equal. unfold safe_of.
      destruct (is_nan _); reflexivity.
    - intros out [_ ->]. f_equal. unfold positions.
      rewrite take_ge; [reflexivity|].
      rewrite length_drop. unfold len in *. lia. }
  destruct W as (out & E & ->). exact E.
Qed.

Lemma len_pos {A} (l : list A) : l <> [] -> 0 < len l.
Proof. destruct l; [congruence|]. intros _. unfold len. simpl. lia. Qed.

(** With no start date the series is the last [tail] records. *)
Lemma startIdx_tail tail results :
  Int.fits (len results) -> 1 <= tail <= Int.max ->
  api.startIdx 0 tail results = Z.max 0 (len results - tail).
Proof.
  intros Hf Ht. pose proof (len_nonneg results) as Hn.
  unfold api.startIdx. simpl negb. cbv iota.
  rewrite (Int_sub_id (len results) tail) by int_lia.
  destruct (Z.ltb_spec (len results - tail) 0).
  - destruct (Z.geb_spec 0 (len results)).
    + rewrite Int_sub_id by int_lia.
      destruct (Z.ltb_spec (len results - 1) 0); lia.
    + simpl. lia.
  - destruct (Z.geb_spec (len results - tail) (len results)); [lia|].
    destruct (Z.ltb_spec (len results - tail) 0); lia.
Qed.

(** A tail of zero or less selects the last record alone. *)
Lemma startIdx_tail_nonpos tail results :
  Int.fits (len results) -> results <> [] ->
  tail <= 0 -> len results - tail <= Int.max ->
  api.startIdx 0 tail results = len results - 1.
Proof.
  intros Hf Hne Ht Hmax. pose proof (len_pos results Hne) as Hn.
  unfold api.startIdx. simpl negb. cbv iota.
  rewrite (Int_sub_id (len results) tail) by int_lia.
  destruct (Z.ltb_spec (len results - tail) 0); [lia|].
  destruct (Z.geb_spec (len results - tail) (len results)); [|lia].
  rewrite Int_sub_id by int_lia.
  destruct (Z.ltb_spec (len results - 1) 0); lia.
Qed.

(** Where [len(results) - tail] overflows, the whole series is selected. *)
Lemma startIdx_tail_wraps tail results :
  Int.fits (len results) -> results <> [] ->
  Int.min <= tail -> Int.max < len results - tail ->
  api.startIdx 0 tail results = 0.
Proof.
  intros Hf Hne Ht Hmax. pose proof (len_pos results Hne) as Hn.
  unfold api.startIdx. simpl negb. cbv iota.
  assert (E : Int.sub (len results) tail
              = len results - tail - 18446744073709551616).
  { unfold Int.sub, Int.wrap.
    replace (len results - tail + 9223372036854775808)
      with (len results - tail - 9223372036854775808
            + 1 * 18446744073709551616) by lia.
    rewrite Z.mod_add by lia. rewrite Z.mod_small; int_lia. }
  rewrite E.
  destruct (Z.ltb_spec (len results - tail - 18446744073709551616) 0);
    [|int_lia].
  destruct (Z.geb_spec 0 (len results)); [lia|]. reflexivity.
Qed.

Lemma first_from_none start results i k :
  Forall (fun r => models.ScoreResult.Date r < start) results ->
  api.first_from start results i k = k.
Proof.
  intros H. revert i. induction H as [|r rest Hr _ IH]; intros i; simpl.
  - reflexivity.
  - unfold api.Before. apply Z.ltb_lt in Hr. rewrite Hr. simpl. apply IH.
Qed.

Lemma first_from_first start results i k j r :
  results !! j = Some r -> start <= models.ScoreResult.Date r ->
  Forall (fun r => models.ScoreResult.Date r < start) (take j results) ->
  api.first_from start results i k = i + Z.of_nat j.
Proof.
  revert i j. induction results as [|r0 rest IH]; intros i j Hj Hr Hall.
  - discriminate.
  - destruct j as [|j]; simpl in *.
    + injection Hj as ->. unfold api.Before.
      destruct (Z.ltb_spec (models.ScoreResult.Date r) start); [lia|].
      simpl. lia.
    + apply Forall_cons in Hall as [H0 Hall]. unfold api.Before.
      apply Z.ltb_lt in H0. rewrite H0. simpl.
      rewrite (IH (i + 1) j Hj Hr Hall). lia.
Qed.

(** A start date selects the records from the first one that is not
    before it. *)
Lemma startIdx_start start tail results j r :
  start <> 0 -> results !! j = Some r ->
  start <= models.ScoreResult.Date r ->
  Forall (fun r => models.ScoreResult.Date r < start) (take j results) ->
  api.startIdx start tail results = Z.of_nat j.
Proof.
  intros Hs Hj Hr Hall. unfold api.startIdx, api.IsZero.
  destruct (Z.eqb_spec start 0); [contradiction|]. simpl negb. cbv iota.
  rewrite (first_from_first start results 0 0 j r Hj Hr Hall).
  apply lookup_lt_Some in Hj.
  destruct (Z.geb_spec (0 + Z.of_nat j) (len results)); [unfold len in *; lia|].
  destruct (Z.ltb_spec (0 + Z.of_nat j) 0); lia.
Qed.

(** A start date after every record selects the whole series. *)
Lemma startIdx_start_late start tail results :
  start <> 0 -> Int.fits (len results) ->
  Forall (fun r => models.ScoreResult.Date r < start) results ->
  api.startIdx start tail results = 0.
Proof.
  intros Hs Hf Hall. pose proof (len_nonneg results) as Hn.
  unfold api.startIdx, api.IsZero.
  destruct (Z.eqb_spec start 0); [contradiction|]. simpl negb. cbv iota.
  rewrite first_from_none by exact Hall.
  destruct (Z.geb_spec 0 (len results)).
  - rewrite Int_sub_id by int_lia.
    destruct (Z.ltb_spec (len results - 1) 0); lia.
  - reflexivity.
Qed.

Lemma latest_spec format results :
  Int.fits (len results) ->
  api.latest format results
  = Some match last results with
         | None => (None, None)
         | Some r =>
             if is_nan (models.ScoreResult.Score r) then (None, None)
             else
               let v := models.ScoreResult.Values r in
               (Some (api.SimpleScore.mk (format (models.ScoreResult.Date r))
                        (models.ScoreResult.Score r)
                        (models.ScoreResult.Label r)
                        (models.ScoreResult.Price r)),
                Some (list_to_map [
                  ("trend", models.Parts.Trend v);
                  ("momentum", models.Parts.Momentum v);
                  ("rsi", models.Parts.RSI v);
                  ("macd", models.Parts.MACD v);
                  ("drawdown", models.Parts.Drawdown v);
                  ("volatility", models.Parts.Vol v);
                  ("mfi", models.Parts.MFI v);
                  ("bb_pct_b", models.Parts.BB v) ]))
         end.
Proof.
  intros Hf. unfold api.latest. pose proof (len_nonneg results) as Hn.
  destruct (Z.gtb_spec (len results) 0) as [G|G].
  - rewrite Int_sub_id by int_lia.
    rewrite at_lookup by lia.
    rewrite last_lookup.
    replace (Z.to_nat (len results - 1)) with (pred (length results))
      by (unfold len in *; lia).
    destruct (results !! pred (length results)) as [r|] eqn:E.
    + simpl. destruct (is_nan _); reflexivity.
    + apply lookup_ge_None in E. unfold len in *. lia.
  - assert (results = []) as ->.
    { destruct results; [reflexivity|]. unfold len in G. simpl in G. lia. }
    reflexivity.
Qed.

(** ** From the frame to the response *)

Lemma window_config_ok window : Config_ok (window_config window).
Proof. unfold Config_ok, window_config, Int.max. simpl. lia. Qed.

Lemma handleFearGreed_spec sqrt format pf start window tail lang :
  Int.fits (len (models.PriceFrame.Prices pf)) ->
  exists results resp,
    Compute sqrt pf (window_config window) lang = Some results /\
    length results = length (models.PriceFrame.Prices pf) /\
    api.handleFearGreed format sqrt pf start window tail lang = Some resp /\
    api.Response.Series resp
    = map (safe_of format)
        (drop (Z.to_nat (api.startIdx start tail results)) results) /\
    api.latest format results
    = Some (api.Response.Latest resp, api.Response.LatestSubscores resp).
Proof.
  intros Hf.
  destruct (Compute_total sqrt pf (window_config window) lang
              (window_config_ok window) Hf) as (results & E & Hlen).
  assert (Hfr : Int.fits (len results)).
  { unfold len in *. rewrite Hlen. exact Hf. }
  destruct (startIdx_range start tail results Hfr) as [Hk _].
  pose proof (latest_spec format results Hfr) as HL.
  destruct (last results) as [r|] eqn:El.
  - destruct (is_nan (models.ScoreResult.Score r)) eqn:En.
    + eexists results, _. split; [exact E|]. split; [exact Hlen|].
      unfold api.handleFearGreed. change (Build_Config window _ _ _ _ _ _)
        with (window_config window).
      rewrite E. simpl. rewrite (safeSeries_spec format _ results Hk Hfr).
      simpl. rewrite HL. simpl. split; [reflexivity|]. split; reflexivity.
    + eexists results, _. split; [exact E|]. split; [exact Hlen|].
      unfold api.handleFearGreed. change (Build_Config window _ _ _ _ _ _)
        with (window_config window).
      rewrite E. simpl. rewrite (safeSeries_spec format _ results Hk Hfr).
      simpl. rewrite HL. simpl. split; [reflexivity|]. split; reflexivity.
  - eexists results, _. split; [exact E|]. split; [exact Hlen|].
    unfold api.handleFearGreed. change (Build_Config window _ _ _ _ _ _)
      with (window_config window).
    rewrite E. simpl. rewrite (safeSeries_spec format _ results Hk Hfr).
    simpl. rewrite HL. simpl. split; [reflexivity|]. split; reflexivity.
Qed.

Lemma last_drop_lt {A} (l : list A) k :
  (k < length l)%nat -> last (drop k l) = last l.
Proof.
  intros Hk. rewrite !last_lookup, lookup_drop, length_drop. f_equal. lia.
Qed.

(** ** What the endpoint returns *)

(** X19. From the fetched frame on, [handleFearGreed] never fails,
    whatever the start date, the window, the tail and the language of
    the request: the series of the response is a suffix of the records of
    [Compute], one entry per record, with a null score exactly where the
    score is undefined; for a frame that is not empty the series holds at
    least one entry. *)
Theorem handleFearGreed_series sqrt format pf start window tail lang :
  Int.fits (len (models.PriceFrame.Prices pf)) ->
  exists results resp k,
    Compute sqrt pf (window_config window) lang = Some results /\
    api.handleFearGreed format sqrt pf start window tail lang = Some resp /\
    0 <= k <= len results /\
    (models.PriceFrame.Prices pf <> [] -> k < len results) /\
    api.Response.Series resp
    = map (safe_of format) (drop (Z.to_nat k) results).
Proof.
  intros Hf.
  destruct (handleFearGreed_spec sqrt format pf start window tail lang Hf)
    as (results & resp & E & Hlen & Hh & Hs & _).
  assert (Hfr : Int.fits (len results)).
  { unfold len in *. rewrite Hlen. exact Hf. }
  destruct (startIdx_range start tail results Hfr) as [Hk Hne].
  exists results, resp, (api.startIdx start tail results).
  repeat (split; [first [assumption | lia]|]).
  split; [|exact Hs].
  intros Hp. apply Hne. intros ->. destruct (models.PriceFrame.Prices pf);
    [congruence|discriminate].
Qed.

Lemma handleFearGreed_series_example :
  Int.fits (len (models.PriceFrame.Prices ten_bars)) /\
  exists results resp k,
    Compute sqrt12 ten_bars (window_config 252) "en" = Some results /\
    api.handleFearGreed day_of sqrt12 ten_bars 0 252 600 "en" = Some resp /\
    0 <= k <= len results /\
    (models.PriceFrame.Prices ten_bars <> [] -> k < len results) /\
    api.Response.Series resp
    = map (safe_of day_of) (drop (Z.to_nat k) results).
Proof.
  assert (H1 : Int.fits (len (models.PriceFrame.Prices ten_bars))).
  { apply fits_small. vm_compute. split; discriminate. }
  split; [exact H1|].
  exact (handleFearGreed_series sqrt12 day_of ten_bars 0 252 600 "en" H1).
Defined.

(** X20. Without a start date the series is the last [tail] records, all
    of them when there are fewer.  A tail of zero or less does not give
    an empty series but the last record alone, and a tail so negative
    that [len(results) - tail] overflows gives every record. *)
Theorem series_is_tail format tail results :
  Int.fits (len results) -> Int.min <= tail <= Int.max ->
  exists series,
    api.safeSeries format (api.startIdx 0 tail results) results = Some series /\
    (1 <= tail ->
       series = map (safe_of format)
                  (drop (length results - Z.to_nat tail) results)) /\
    (tail <= 0 -> len results - tail <= Int.max ->
       series = map (safe_of format) (drop (length results - 1) results)) /\
    (Int.max < len results - tail -> series = map (safe_of format) results).
Proof.
  intros Hf Ht.
  destruct (startIdx_range 0 tail results Hf) as [Hk _].
  eexists. split; [apply (safeSeries_spec format _ results Hk Hf)|].
  pose proof (len_nonneg results) as Hn.
  destruct (decide (results = [])) as [->|Hne].
  { repeat split; intros; rewrite !drop_nil; reflexivity. }
  repeat split.
  - intros H1. rewrite startIdx_tail by (first [assumption | lia]).
    do 2 f_equal. unfold len. lia.
  - intros H0 Hmax. rewrite startIdx_tail_nonpos by (first [assumption | lia]).
    do 2 f_equal. unfold len. lia.
  - intros Hmax. rewrite startIdx_tail_wraps by (first [assumption | lia]).
    reflexivity.
Qed.

Lemma series_is_tail_example :
  Int.fits (len ten_bars_results) /\ Int.min <= 3 <= Int.max /\
  exists series,
    api.safeSeries day_of (api.startIdx 0 3 ten_bars_results) ten_bars_results
    = Some series /\
    (1 <= 3 ->
       series = map (safe_of day_of)
                  (drop (length ten_bars_results - Z.to_nat 3) ten_bars_results)) /\
    (3 <= 0 -> len ten_bars_results - 3 <= Int.max ->
       series = map (safe_of day_of)
                  (drop (length ten_bars_results - 1) ten_bars_results)) /\
    (Int.max < len ten_bars_results - 3 ->
       series = map (safe_of day_of) ten_bars_results).
Proof.
  assert (H1 : Int.fits (len ten_bars_results)).
  { apply fits_small. vm_compute. split; discriminate. }
  assert (H2 : Int.min <= 3 <= Int.max) by (unfold Int.min, Int.max; lia).
  repeat (split; [assumption|]).
  exact (series_is_tail day_of 3 ten_bars_results H1 H2).
Defined.

(** X21. With a start date the series begins at the first record that is
    not before it; when every record is before the start date the index
    stays zero and the series holds every record. *)
Theorem series_from_start format start tail results :
  start <> 0 -> Int.fits (len results) ->
  exists series,
    api.safeSeries format (api.startIdx start tail results) results
    = Some series /\
    (forall j r, results !! j = Some r ->
       start <= models.ScoreResult.Date r ->
       Forall (fun r' => models.ScoreResult.Date r' < start) (take j results) ->
       series = map (safe_of format) (drop j results)) /\
    (Forall (fun r => models.ScoreResult.Date r < start) results ->
       series = map (safe_of format) results).
Proof.
  intros Hs Hf.
  destruct (startIdx_range start tail results Hf) as [Hk _].
  eexists. split; [apply (safeSeries_spec format _ results Hk Hf)|].
  split.
  - intros j r Hj Hr Hall.
    rewrite (startIdx_start start tail results j r Hs Hj Hr Hall).
    rewrite Nat2Z.id. reflexivity.
  - intros Hall. rewrite (startIdx_start_late start tail results Hs Hf Hall).
    reflexivity.
Qed.

Lemma series_from_start_example :
  7 <> 0 /\ Int.fits (len ten_bars_results) /\
  exists series,
    api.safeSeries day_of (api.startIdx 7 600 ten_bars_results) ten_bars_results
    = Some series /\
    (forall j r, ten_bars_results !! j = Some r ->
       7 <= models.ScoreResult.Date r ->
       Forall (fun r' => models.ScoreResult.Date r' < 7) (take j ten_bars_results) ->
       series = map (safe_of day_of) (drop j ten_bars_results)) /\
    (Forall (fun r => models.ScoreResult.Date r < 7) ten_bars_results ->
       series = map (safe_of day_of) ten_bars_results).
Proof.
  assert (H1 : 7 <> 0) by discriminate.
  assert (H2 : Int.fits (len ten_bars_results)).
  { apply fits_small. vm_compute. split; discriminate. }
  repeat (split; [assumption|]).
  exact (series_from_start day_of 7 600 ten_bars_results H1 H2).
Defined.

(** X22. For a frame of fewer than ten bars the response has no latest
    score and no latest sub-scores, and every entry of its series has a
    null score and the label "-". *)
Theorem handleFearGreed_short_history sqrt format pf start window tail lang :
  len (models.PriceFrame.Prices pf) < 10 ->
  exists resp,
    api.handleFearGreed format sqrt pf start window tail lang = Some resp /\
    api.Response.Latest resp = None /\
    api.Response.LatestSubscores resp = None /\
    Forall (fun s => api.SafeScore.Score s = None /\
                     api.SafeScore.Label s = "-"%string)
      (api.Response.Series resp).
Proof.
  intros Hn.
  assert (Hf : Int.fits (len (models.PriceFrame.Prices pf))).
  { pose proof (len_nonneg (models.PriceFrame.Prices pf)). int_lia. }
  destruct (handleFearGreed_spec sqrt format pf start window tail lang Hf)
    as (results & resp & E & Hlen & Hh & Hs & HL).
  assert (Hfr : Int.fits (len results)).
  { unfold len in *. rewrite Hlen. exact Hf. }
  assert (Hall : Forall (fun r => models.ScoreResult.Score r = NaN /\
                     models.ScoreResult.Label r = "-"%string) results).
  { apply Forall_lookup. intros j r Hj.
    assert (Hat : at_ results (Z.of_nat j) = Some r).
    { rewrite at_lookup by lia. rewrite Nat2Z.id. exact Hj. }
    pose proof (at_Some_range _ _ _ Hat) as Hr.
    pose proof (norm_window_ge (window_config window)
                  (len (models.PriceFrame.Prices pf))) as Hw.
    destruct (Compute_warmup sqrt pf (window_config window) lang results
                (Z.of_nat j) r (window_config_ok window) Hf E Hat)
      as (A & B & _); [unfold len in *; lia|].
    split; assumption. }
  exists resp. split; [exact Hh|].
  rewrite latest_spec in HL by exact Hfr.
  assert (HN : (api.Response.Latest resp, api.Response.LatestSubscores resp)
               = (None, None)).
  { injection HL as HL. rewrite <- HL.
    destruct (last results) as [r|] eqn:El; [|reflexivity].
    apply last_Some in El as [l' ->].
    apply Forall_app in Hall as [_ Hr]. apply Forall_singleton in Hr as [-> _].
    reflexivity. }
  injection HN as -> ->. split; [reflexivity|]. split; [reflexivity|].
  rewrite Hs. apply Forall_fmap. 
  apply (Forall_impl _ _ _ (Forall_drop _ _ _ Hall)).
  intros r [Hsc Hlb]. unfold safe_of. simpl. rewrite Hsc. split; [reflexivity|exact Hlb].
Qed.

Lemma handleFearGreed_short_history_example :
  len (models.PriceFrame.Prices three_bars) < 10 /\
  exists resp,
    api.handleFearGreed day_of sqrt12 three_bars 0 252 600 "zh" = Some resp /\
    api.Response.Latest resp = None /\
    api.Response.LatestSubscores resp = None /\
    Forall (fun s => api.SafeScore.Score s = None /\
                     api.SafeScore.Label s = "-"%string)
      (api.Response.Series resp).
Proof.
  assert (H1 : len (models.PriceFrame.Prices three_bars) < 10)
    by (vm_compute; reflexivity).
  split; [exact H1|].
  exact (handleFearGreed_short_history sqrt12 day_of three_bars 0 252 600 "zh" H1).
Defined.

(** X23. For a frame of at least ten bars with finite closes the response
    has a latest score: it carries the date and the close of the last
    bar, a score greater than 0 and at most 100 and the label of that
    score, and the last entry of the series holds the same values. *)
Theorem handleFearGreed_latest sqrt format pf start window tail lang :
  Int.fits (len (models.PriceFrame.Prices pf)) ->
  10 <= len (models.PriceFrame.Prices pf) ->
  Forall finite (map models.Price.Close (models.PriceFrame.Prices pf)) ->
  exists resp p q,
    api.handleFearGreed format sqrt pf start window tail lang = Some resp /\
    last (models.PriceFrame.Prices pf) = Some p /\
    (0 < q <= 100)%Q /\
    api.Response.Latest resp
    = Some (api.SimpleScore.mk (format (models.Price.Date p)) (Fin q)
              (LabelFromScore (Fin q) lang) (models.Price.Close p)) /\
    last (api.Response.Series resp)
    = Some (api.SafeScore.mk (format (models.Price.Date p)) (Some (Fin q))
              (LabelFromScore (Fin q) lang) (models.Price.Close p)).
Proof.
  intros Hf Hn Hfin.
  destruct (handleFearGreed_spec sqrt format pf start window tail lang Hf)
    as (results & resp & E & Hlen & Hh & Hs & HL).
  assert (Hfr : Int.fits (len results)).
  { unfold len in *. rewrite Hlen. exact Hf. }
  assert (Hlr : len results = len (models.PriceFrame.Prices pf)).
  { unfold len. rewrite Hlen. reflexivity. }
  destruct (at_is_Some results (len results - 1) ltac:(lia)) as [r Hr].
  pose proof (norm_window_le (window_config window) _ Hn) as Hw.
  destruct (Compute_defined sqrt pf (window_config window) lang results
              (len results - 1) r (window_config_ok window) Hf Hfin E Hr
              ltac:(lia)) as (q & Hq & Hrange).
  destruct (Compute_record sqrt pf (window_config window) lang results
              (len results - 1) r (window_config_ok window) Hf E Hr)
    as (p & Hp & HD & HP & HLb & _).
  assert (Hlast : last results = Some r).
  { rewrite last_lookup. rewrite at_lookup in Hr by lia.
    replace (pred (length results)) with (Z.to_nat (len results - 1))
      by (unfold len; lia). exact Hr. }
  assert (Hplast : last (models.PriceFrame.Prices pf) = Some p).
  { rewrite last_lookup. rewrite at_lookup in Hp by lia.
    replace (pred (length (models.PriceFrame.Prices pf)))
      with (Z.to_nat (len results - 1)) by (unfold len in *; lia). exact Hp. }
  exists resp, p, q. split; [exact Hh|]. split; [exact Hplast|].
  split; [exact Hrange|].
  rewrite latest_spec in HL by exact Hfr. rewrite Hlast, Hq in HL.
  simpl in HL. injection HL as HL1 HL2.
  split.
  - rewrite <- HL1. rewrite HLb, HD, HP, Hq. reflexivity.
  - rewrite Hs.
    destruct (startIdx_range start tail results Hfr) as [Hk Hne].
    assert (Hne' : results <> []).
    { intros ->. unfold len in *. simpl in *. lia. }
    specialize (Hne Hne').
    rewrite fmap_last. rewrite last_drop_lt by (unfold len in *; lia).
    rewrite Hlast. simpl. unfold safe_of. rewrite HLb, HD, HP, Hq. reflexivity.
Qed.

Lemma handleFearGreed_latest_example :
  Int.fits (len (models.PriceFrame.Prices ten_bars)) /\
  10 <= len (models.PriceFrame.Prices ten_bars) /\
  Forall finite (map models.Price.Close (models.PriceFrame.Prices ten_bars)) /\
  exists resp p q,
    api.handleFearGreed day_of sqrt12 ten_bars 0 252 600 "en" = Some resp /\
    last (models.PriceFrame.Prices ten_bars) = Some p /\
    (0 < q <= 100)%Q /\
    api.Response.Latest resp
    = Some (api.SimpleScore.mk (day_of (models.Price.Date p)) (Fin q)
              (LabelFromScore (Fin q) "en") (models.Price.Close p)) /\
    last (api.Response.Series resp)
    = Some (api.SafeScore.mk (day_of (models.Price.Date p)) (Some (Fin q))
              (LabelFromScore (Fin q) "en") (models.Price.Close p)).
Proof.
  assert (H1 : Int.fits (len (models.PriceFrame.Prices ten_bars))).
  { apply fits_small. vm_compute. split; discriminate. }
  assert (H2 : 10 <= len (models.PriceFrame.Prices ten_bars))
    by (vm_compute; discriminate).
  assert (H3 := ten_bars_finite).
  repeat (split; [assumption|]).
  exact (handleFearGreed_latest sqrt12 day_of ten_bars 0 252 600 "en" H1 H2 H3).
Defined.
